(** * CompanyCity visualization: the runtime performance-management core

    A shallow embedding of the object pool ([utils/ObjectPool]), the particle
    lifecycle manager ([components/ParticleSystem.ts]), the LOD manager
    ([systems/LODManager]), the animation loop ([systems/AnimationLoop.ts])
    and the camera controller ([core/Camera]), with the properties their
    specification states about them.

    Conventions of the embedding.
    - A JavaScript [number] that the code only adds, subtracts, multiplies and
      compares is a rational ([Q]) and its arithmetic is exact, except in the
      smoothing of the camera, whose statements depend on rounding: there
      every operation goes through a rounding function, [JS.unrounded] for
      exact arithmetic or [JS.round64] for IEEE doubles.  Where the code
      divides, or stores [Infinity] or [NaN], the value is a [JS.number],
      which keeps [Infinity], [-Infinity] and [NaN] apart from the finite
      values.
    - A name that the code imports from a module that does not export it is
      [undefined]: an absent value, read as [NaN] where a number is wanted,
      and a [TypeError] where it is called or constructed with.
    - Counters and lengths are [nat] or [Z] ([Z] where the code can drive a
      counter below zero).
    - An object with identity (a pooled instance, a particle) is a reference;
      a [Set] of such objects is a [gset], a [Map] iterated in insertion
      order is an association list.
    - Wall-clock readings ([Date.now()], [performance.now()]), random samples
      and results of the 3D engine are arguments of the function that reads
      them.
    - Calls into collaborators (hooks, events) are recorded in a trace; where
      the code catches what a callback throws, the callbacks that throw are
      given by an oracle. *)

From Stdlib Require Import QArith Qabs Qminmax Qround Qpower Lqa.
From stdpp Require Import gmap list strings pretty.

(** ** JavaScript numbers *)

Module JS.

Definition Qltb (x y : Q) : bool := negb (Qle_bool y x).
Definition Qgtb (x y : Q) : bool := Qltb y x.
Definition Qleb (x y : Q) : bool := Qle_bool x y.
Definition Qgeb (x y : Q) : bool := Qle_bool y x.

(** [Math.PI], the double nearest to pi: 0x400921FB54442D18. *)
Definition Math_PI : Q := 884279719003555 # 281474976710656.

(** A number that may be infinite or undefined. *)
Inductive number : Type :=
| Fin (q : Q)
| PInf
| NInf
| NaN.

(** [a / b] on finite operands. *)
Definition div (a b : Q) : number :=
  if Qeq_bool b 0 then
    if Qltb 0 a then PInf else if Qltb a 0 then NInf else NaN
  else Fin (a / b).

(** [a < b]; every comparison with [NaN] is false. *)
Definition lt (a b : number) : bool :=
  match a, b with
  | NaN, _ | _, NaN => false
  | Fin x, Fin y => Qltb x y
  | Fin _, PInf => true
  | Fin _, NInf => false
  | PInf, _ => false
  | NInf, NInf => false
  | NInf, _ => true
  end.

Definition gt (a b : number) : bool := lt b a.

(** [a - b]. *)
Definition sub (a b : number) : number :=
  match a, b with
  | NaN, _ | _, NaN => NaN
  | Fin x, Fin y => Fin (x - y)
  | Fin _, PInf => NInf
  | Fin _, NInf => PInf
  | PInf, PInf => NaN
  | PInf, _ => PInf
  | NInf, NInf => NaN
  | NInf, _ => NInf
  end.

(** [Math.abs]. *)
Definition abs (a : number) : number :=
  match a with
  | Fin x => Fin (Qabs x)
  | PInf | NInf => PInf
  | NaN => NaN
  end.

(** [a * b] for a finite [b]. *)
Definition mulq (a : number) (b : Q) : number :=
  match a with
  | Fin x => Fin (x * b)
  | PInf => if Qltb 0 b then PInf else if Qltb b 0 then NInf else NaN
  | NInf => if Qltb 0 b then NInf else if Qltb b 0 then PInf else NaN
  | NaN => NaN
  end.

(** [a + b]. *)
Definition add (a b : number) : number :=
  match a, b with
  | NaN, _ | _, NaN => NaN
  | Fin x, Fin y => Fin (x + y)
  | PInf, NInf | NInf, PInf => NaN
  | PInf, _ | _, PInf => PInf
  | NInf, _ | _, NInf => NInf
  end.

(** [Math.max(a, b)] and [Math.min(a, b)]: [NaN] when an argument is. *)
Definition max (a b : number) : number :=
  match a, b with
  | NaN, _ | _, NaN => NaN
  | PInf, _ | _, PInf => PInf
  | NInf, c | c, NInf => c
  | Fin x, Fin y => Fin (Qmax x y)
  end.

Definition min (a b : number) : number :=
  match a, b with
  | NaN, _ | _, NaN => NaN
  | NInf, _ | _, NInf => NInf
  | PInf, c | c, PInf => c
  | Fin x, Fin y => Fin (Qmin x y)
  end.

(** The number that an imported binding stands for in arithmetic.  [None]
    is a name that the module imported from does not export: it is
    [undefined], and arithmetic reads it as [NaN]. *)
Definition toNumber (v : option Q) : number :=
  match v with
  | Some q => Fin q
  | None => NaN
  end.

(** *** Rounding

    Where a property depends on the rounding of doubles, the arithmetic
    of the function takes the rounding as a parameter [rnd], applied to
    the exact result of every operation and to every decimal literal.
    [unrounded] is exact arithmetic, the convention of this file;
    [round64] is IEEE 754 binary64, round to nearest, ties to even. *)

Definition unrounded (q : Q) : Q := q.

Definition round (rnd : Q -> Q) (a : number) : number :=
  match a with
  | Fin q => Fin (rnd q)
  | _ => a
  end.

(** [2^e] *)
Definition pow2 (e : Z) : Q :=
  if (0 <=? e)%Z then inject_Z (2 ^ e) else 1 # Z.to_pos (2 ^ (- e)).

(** The exponent of the leading bit of a positive rational. *)
Definition floorLog2 (a : Q) : Z :=
  let l := (Z.log2 (Qnum a) - Z.log2 (Zpos (Qden a)))%Z in
  if Qle_bool (pow2 l) a then l else (l - 1)%Z.

(** The integer nearest to a rational that is not negative, the even one
    of two that are equally near. *)
Definition roundHalfEven (m : Q) : Z :=
  let f := Qfloor m in
  match Qcompare (m - inject_Z f) (1 # 2) with
  | Lt => f
  | Gt => (f + 1)%Z
  | Eq => if Z.even f then f else (f + 1)%Z
  end.

(** The double nearest to [q]: 53 significant bits, the last of them worth
    no less than [2^-1074].  Magnitudes of [2^1024] and more, which a
    double rounds to an infinity, do not occur where this is used. *)
Definition round64 (q : Q) : Q :=
  if Qeq_bool q 0 then 0
  else
    let a := Qabs q in
    let e := Z.max (floorLog2 a - 52) (-1074) in
    let r := Qred (inject_Z (roundHalfEven (a / pow2 e)) * pow2 e) in
    if Qle_bool 0 q then r else - r.

(** What a throwing call leaves behind. *)
Inductive completion (A : Type) : Type :=
| Normal (a : A)
| Throw (message : string).
Arguments Normal {A} a.
Arguments Throw {A} message.

End JS.

(** ** Object pool ([utils/ObjectPool]) *)

Module ObjectPool.
Import JS.

Section Pool.
Context {T : Type} `{Countable T}.

(** [createFn k] is the object the [k]-th call of the factory returns;
    [resetFn obj = false] when the reset hook throws on [obj]. *)
Record PoolConfig : Type := mkConfig {
  createFn : nat -> T;
  resetFn : T -> bool;
  validateFn : T -> bool;
  initialSize : nat;
  maxSize : nat;
  autoGrow : bool;
  autoShrink : bool;
  shrinkThreshold : Q
}.

Record PoolStats : Type := mkStats {
  total : Z;
  activeCount : Z;
  availableCount : Z;
  created : Z;
  reused : Z;
  disposed : Z;
  peak : Z
}.

(** [available] is the array with its last element first: [push] is a
    cons and [pop] takes the head.  [createCalls] counts the calls of
    [createFn]; [disposeLog] records the arguments of [disposeFn], the
    latest first. *)
Record t : Type := mkPool {
  available : list T;
  active : gset T;
  config : PoolConfig;
  stats : PoolStats;
  lastShrinkCheck : Z;
  createCalls : nat;
  disposeLog : list T
}.

Definition shrinkCheckInterval : Z := 5000.

Definition with_available (l : list T) (p : t) : t :=
  mkPool l (active p) (config p) (stats p) (lastShrinkCheck p)
         (createCalls p) (disposeLog p).
Definition with_active (a : gset T) (p : t) : t :=
  mkPool (available p) a (config p) (stats p) (lastShrinkCheck p)
         (createCalls p) (disposeLog p).
Definition with_stats (s : PoolStats) (p : t) : t :=
  mkPool (available p) (active p) (config p) s (lastShrinkCheck p)
         (createCalls p) (disposeLog p).
Definition with_lastShrinkCheck (n : Z) (p : t) : t :=
  mkPool (available p) (active p) (config p) (stats p) n
         (createCalls p) (disposeLog p).

(** [this.config.createFn()] *)
Definition callCreate (p : t) : T * t :=
  (createFn (config p) (createCalls p),
   mkPool (available p) (active p) (config p) (stats p)
          (lastShrinkCheck p) (S (createCalls p)) (disposeLog p)).

(** [this.config.disposeFn(obj)] *)
Definition callDispose (obj : T) (p : t) : t :=
  mkPool (available p) (active p) (config p) (stats p)
         (lastShrinkCheck p) (createCalls p) (obj :: disposeLog p).

Definition onCreated (s : PoolStats) : PoolStats :=
  mkStats (total s + 1) (activeCount s) (availableCount s)
          (created s + 1) (reused s) (disposed s) (peak s).
Definition onReused (s : PoolStats) : PoolStats :=
  mkStats (total s) (activeCount s) (availableCount s)
          (created s) (reused s + 1) (disposed s) (peak s).
Definition onDisposed (s : PoolStats) : PoolStats :=
  mkStats (total s - 1) (activeCount s) (availableCount s)
          (created s) (reused s) (disposed s + 1) (peak s).
Definition addAvailable (d : Z) (s : PoolStats) : PoolStats :=
  mkStats (total s) (activeCount s) (availableCount s + d)
          (created s) (reused s) (disposed s) (peak s).
Definition addActive (d : Z) (s : PoolStats) : PoolStats :=
  mkStats (total s) (activeCount s + d) (availableCount s)
          (created s) (reused s) (disposed s) (peak s).
Definition updatePeak (s : PoolStats) : PoolStats :=
  mkStats (total s) (activeCount s) (availableCount s)
          (created s) (reused s) (disposed s)
          (if (peak s <? activeCount s)%Z then activeCount s else peak s).

Definition getTotalSize (p : t) : nat :=
  length (available p) + size (active p).
Definition getActiveCount (p : t) : nat := size (active p).
Definition getAvailableCount (p : t) : nat := length (available p).

(** [createObject]: throws at the size limit, else pushes a new object. *)
Definition createObject (p : t) : completion T * t :=
  if (maxSize (config p) <=? getTotalSize p)%nat then
    (Throw ("Pool has reached maximum size: " +:+ pretty (maxSize (config p))),
     p)
  else
    let '(obj, p1) := callCreate p in
    let p2 := with_available (obj :: available p1) p1 in
    let p3 := with_stats
                (addAvailable 1 (onCreated (stats p2))) p2 in
    (Normal obj, p3).

(** [initialize]: the loop of the constructor, [n] iterations left. *)
Fixpoint initialize (n : nat) (p : t) : completion unit * t :=
  match n with
  | O => (Normal tt, p)
  | S n' =>
      match createObject p with
      | (Normal _, p1) => initialize n' p1
      | (Throw e, p1) => (Throw e, p1)
      end
  end.

Definition emptyStats : PoolStats := mkStats 0 0 0 0 0 0 0.

(** The constructor; it throws when [initialize] does. *)
Definition construct (cfg : PoolConfig) : completion t :=
  let p0 := mkPool [] ∅ cfg emptyStats 0 0 [] in
  match initialize (initialSize cfg) p0 with
  | (Normal _, p) => Normal p
  | (Throw e, _) => Throw e
  end.

(** [acquire].  The method calls itself after a rejected instance; each
    call spends one unit of [fuel], and [None] is the run that has not
    returned within [fuel] calls. *)
Fixpoint acquire (fuel : nat) (p : t) : option (completion T * t) :=
  match fuel with
  | O => None
  | S fuel' =>
      let taken :=
        match available p with
        | obj :: rest =>
            Some (obj, with_stats (onReused (stats p))
                         (with_available rest p))
        | [] =>
            if autoGrow (config p)
               && (getTotalSize p <? maxSize (config p))%nat
            then
              let '(obj, p1) := callCreate p in
              Some (obj, with_stats (onCreated (stats p1)) p1)
            else None
        end in
      match taken with
      | None => Some (Throw "Pool exhausted and cannot grow", p)
      | Some (obj, p1) =>
          if negb (validateFn (config p1) obj) then
            let p2 := callDispose obj p1 in
            let p3 := with_stats (onDisposed (stats p2)) p2 in
            acquire fuel' p3
          else
            let p2 := with_active ({[obj]} ∪ active p1) p1 in
            let p3 := with_stats
                        (updatePeak
                           (addAvailable (-1)
                              (addActive 1 (stats p2)))) p2 in
            Some (Normal obj, p3)
      end
  end.

(** One iteration of the shrink loop: [pop], and dispose what came out. *)
Definition shrinkOne (p : t) : t :=
  match available p with
  | obj :: rest =>
      let p1 := callDispose obj (with_available rest p) in
      with_stats (addAvailable (-1) (onDisposed (stats p1))) p1
  | [] => p
  end.

(** [checkShrink]; [now] is [Date.now()]. *)
Definition checkShrink (now : Z) (p : t) : t :=
  if (now - lastShrinkCheck p <? shrinkCheckInterval)%Z then p
  else
    let p1 := with_lastShrinkCheck now p in
    let utilizationRatio :=
      div (inject_Z (activeCount (stats p1)))
          (inject_Z (total (stats p1))) in
    if lt utilizationRatio (Fin (shrinkThreshold (config p1)))
       && (initialSize (config p1) <? length (available p1))%nat
    then
      let excessObjects :=
        (length (available p1) - initialSize (config p1))%nat in
      let objectsToRemove :=
        Nat.min excessObjects (length (available p1) / 4) in
      Nat.iter objectsToRemove shrinkOne p1
    else p1.

(** [release]; [now] is the clock [checkShrink] reads. *)
Definition release (now : Z) (obj : T) (p : t) : t :=
  if decide (obj ∈ active p) then
    let p1 := with_stats (addActive (-1) (stats p))
                (with_active (active p ∖ {[obj]}) p) in
    if resetFn (config p1) obj then
      let p2 := with_stats (addAvailable 1 (stats p1))
                  (with_available (obj :: available p1) p1) in
      if autoShrink (config p2) then checkShrink now p2 else p2
    else
      let p2 := callDispose obj p1 in
      with_stats (onDisposed (stats p2)) p2
  else p.

(** [getUtilization] *)
Definition getUtilization (p : t) : number :=
  let total := getTotalSize p in
  if (0 <? total)%nat
  then div (inject_Z (Z.of_nat (size (active p))))
           (inject_Z (Z.of_nat total))
  else Fin 0.

(** [releaseAll]; [activeObjects] is [Array.from(this.active)], the
    active objects in the order the set iterates them. *)
Definition releaseAll (now : Z) (activeObjects : list T) (p : t) : t :=
  foldl (fun acc obj => release now obj acc) p activeObjects.

(** [batchRelease] *)
Definition batchRelease (now : Z) (objects : list T) (p : t) : t :=
  foldl (fun acc obj => release now obj acc) p objects.

(** The loop of [batchAcquire], [count] iterations left, [objects] acquired
    so far: a failing [acquire] releases them and throws again. *)
Fixpoint batchLoop (fuel : nat) (now : Z) (count : nat) (objects : list T)
    (p : t) : option (completion (list T) * t) :=
  match count with
  | O => Some (Normal objects, p)
  | S count' =>
      match acquire fuel p with
      | None => None
      | Some (Normal obj, p1) =>
          batchLoop fuel now count' (objects ++ [obj]) p1
      | Some (Throw e, p1) =>
          Some (Throw e, foldl (fun acc o => release now o acc) p1 objects)
      end
  end.

(** [batchAcquire(count)] *)
Definition batchAcquire (fuel : nat) (now : Z) (count : nat) (p : t)
  : option (completion (list T) * t) :=
  batchLoop fuel now count [] p.

(** The shrinking loop of [resize]: at most [n] objects, taken from
    [available] while there are any. *)
Fixpoint removeAvailable (n : nat) (p : t) : t :=
  match n with
  | O => p
  | S n' =>
      match available p with
      | [] => p
      | _ :: _ => removeAvailable n' (shrinkOne p)
      end
  end.

(** [resize(newSize)]; growing is the loop of [initialize]. *)
Definition resize (newSize : Z) (p : t) : completion unit * t :=
  if (newSize <? 0)%Z then (Throw "Pool size cannot be negative", p)
  else if (Z.of_nat (maxSize (config p)) <? newSize)%Z
  then (Throw ("New size exceeds maximum: " +:+ pretty (maxSize (config p))),
        p)
  else
    let currentSize := getTotalSize p in
    let size := Z.to_nat newSize in
    if (currentSize <? size)%nat then initialize (size - currentSize) p
    else if (size <? currentSize)%nat
         then (Normal tt, removeAvailable (currentSize - size) p)
         else (Normal tt, p).

(** [validate]: the array is filtered from its first element on, the
    rejected objects are disposed; the active ones are only counted.  The
    result is the pair of [valid] and [invalid]. *)
Definition validate (p : t) : (nat * nat) * t :=
  let ok := fun obj => validateFn (config p) obj = true in
  let array := rev (available p) in
  let kept := filter ok array in
  let rejected := filter (fun obj => ~ ok obj) array in
  let n := Z.of_nat (length rejected) in
  let s := stats p in
  ((length kept + size (filter ok (active p)),
    length rejected + size (filter (fun obj => ~ ok obj) (active p)))%nat,
   mkPool (rev kept) (active p) (config p)
          (mkStats (total s - n) (activeCount s) (availableCount s - n)
                   (created s) (reused s) (disposed s + n) (peak s))
          (lastShrinkCheck p) (createCalls p)
          (rev rejected ++ disposeLog p)).

(** [getStats] *)
Definition getStats (p : t) : PoolStats :=
  let s := stats p in
  mkStats (Z.of_nat (getTotalSize p)) (Z.of_nat (size (active p)))
          (Z.of_nat (length (available p)))
          (created s) (reused s) (disposed s) (peak s).

(** The pool holds no more than [maxSize] objects. *)
Definition bounded (p : t) : Prop :=
  (getTotalSize p <= maxSize (config p))%nat.

(** A call of the public interface, with the clock it reads. *)
Inductive call : Type :=
| Acquire
| Release (obj : T) (now : Z).

(** A sequence of calls; an exception of [acquire] is caught by the
    caller, and the sequence goes on from the pool as it was left. *)
Fixpoint run (fuel : nat) (cs : list call) (p : t) : option t :=
  match cs with
  | [] => Some p
  | Acquire :: cs' =>
      match acquire fuel p with
      | Some (_, p1) => run fuel cs' p1
      | None => None
      end
  | Release obj now :: cs' => run fuel cs' (release now obj p)
  end.

(** The size of the pool is what the counters say was made and not
    disposed. *)
Definition conserved (p : t) : Prop :=
  Z.of_nat (getTotalSize p) = (created (stats p) - disposed (stats p))%Z.

(** What the pool keeps true of its two collections when the factory
    returns a new object at each call. *)
Record consistent (p : t) : Prop := mkConsistent {
  available_NoDup : NoDup (available p);
  available_inactive : forall obj : T, obj ∈ available p -> obj ∉ active p;
  made_by_factory : forall obj : T,
    obj ∈ available p \/ obj ∈ active p ->
    exists k, (k < createCalls p)%nat /\ obj = createFn (config p) k;
  size_conserved : conserved p
}.

(** What a call of [acquire] that returns has done. *)
Definition returned (p : t) (r : completion T) (p' : t) : Prop :=
  config p' = config p
  /\ (r = Throw "Pool exhausted and cannot grow"
      \/ exists obj, r = Normal obj
           /\ validateFn (config p) obj = true /\ obj ∈ active p')
  /\ exists rejected,
       disposeLog p' = rejected ++ disposeLog p
       /\ Forall (fun obj => validateFn (config p) obj = false) rejected
       /\ disposed (stats p')
          = (disposed (stats p) + Z.of_nat (length rejected))%Z.

(** What ends the retries of [acquire]: growth is off, or the active
    objects fill the pool, or an available object is accepted, or the
    object of the [k]-th call of the factory from now on is. *)
Definition retryEnds (k : nat) (p : t) : Prop :=
  autoGrow (config p) = false
  \/ (maxSize (config p) <= size (active p))%nat
  \/ (exists obj, obj ∈ available p /\ validateFn (config p) obj = true)
  \/ validateFn (config p) (createFn (config p) (createCalls p + k)) = true.

End Pool.

Arguments PoolConfig T : clear implicits.
Arguments t T {_ _} .

End ObjectPool.

(** ** Vectors ([types/index.ts], [Vector3]) *)

Module Vector3.
Record t : Type := mk { x : Q; y : Q; z : Q }.
Definition zero : t := mk 0 0 0.
End Vector3.

(** ** Particles ([components/ParticleSystem.ts]) *)

Module TrailData.
Record t : Type := mk {
  positions : list Vector3.t;
  maxLength : nat;
  fadeRate : Q
}.
End TrailData.

Module ParticleData.
Record t : Type := mk {
  id : string;
  type : string;
  position : Vector3.t;
  velocity : Vector3.t;
  life : Q;
  maxLife : Q;
  size : Q;
  color : Z;
  trail : option TrailData.t
}.
End ParticleData.

Module DataParticle.
Import JS.
Local Open Scope Q_scope.

(** The part of [mesh] the class writes: its position and the opacity and
    colour of its material. *)
Record Mesh : Type := mkMesh {
  meshPosition : Vector3.t;
  opacity : number;
  meshColor : Z
}.

(** [trail], [trailGeometry] and [trailMaterial]: the position buffer of
    the line, one point per entry, and the opacity of its material. *)
Record Line : Type := mkLine {
  points : list Vector3.t;
  lineOpacity : number
}.

Record t : Type := mk {
  mesh : Mesh;
  data : ParticleData.t;
  trail : option Line
}.

(** The constructor: [createMesh], and [createTrail] when the data has a
    trail. *)
Definition construct (d : ParticleData.t) : t :=
  mk (mkMesh (ParticleData.position d) (Fin (8 # 10)) (ParticleData.color d))
     d
     (match ParticleData.trail d with
      | Some tr =>
          Some (mkLine (replicate (TrailData.maxLength tr)
                                  (ParticleData.position d))
                       (Fin (3 # 10)))
      | None => None
      end).

(** [updateTrail]: shift the first [maxLength] points by one, put the
    current position first, fade the line.  The buffer keeps its length;
    [lifeRatio] is [life / maxLife]. *)
Definition updateTrail (d : ParticleData.t) (l : Line) : Line :=
  match ParticleData.trail d with
  | None => l
  | Some tr =>
      let maxPoints := TrailData.maxLength tr in
      let old := points l in
      let shifted :=
        ParticleData.position d
          :: take (maxPoints - 1) old ++ drop (Nat.max maxPoints 1) old in
      let lifeRatio := div (ParticleData.life d) (ParticleData.maxLife d) in
      mkLine (take (length old) shifted) (mulq lifeRatio (3 # 10))
  end.

(** [update(deltaTime)]: the result is [false] when the particle is to be
    removed. *)
Definition update (deltaTime : Q) (p : t) : bool * t :=
  let d := data p in
  let life := ParticleData.life d - deltaTime in
  let d1 := ParticleData.mk (ParticleData.id d) (ParticleData.type d)
              (ParticleData.position d) (ParticleData.velocity d)
              life (ParticleData.maxLife d) (ParticleData.size d)
              (ParticleData.color d) (ParticleData.trail d) in
  if Qleb life 0 then (false, mk (mesh p) d1 (trail p))
  else
    let pos := ParticleData.position d1 in
    let vel := ParticleData.velocity d1 in
    let pos' :=
      Vector3.mk (Vector3.x pos + Vector3.x vel * deltaTime)
                 (Vector3.y pos + Vector3.y vel * deltaTime)
                 (Vector3.z pos + Vector3.z vel * deltaTime) in
    let d2 := ParticleData.mk (ParticleData.id d1) (ParticleData.type d1)
                pos' vel life (ParticleData.maxLife d1)
                (ParticleData.size d1) (ParticleData.color d1)
                (ParticleData.trail d1) in
    let lifeRatio := div life (ParticleData.maxLife d2) in
    let mesh' := mkMesh pos' (mulq lifeRatio (8 # 10))
                        (meshColor (mesh p)) in
    let trail' :=
      match trail p, ParticleData.trail d2 with
      | Some l, Some _ => Some (updateTrail d2 l)
      | other, _ => other
      end in
    let vy :=
      if Qgtb (Vector3.y vel) (-10)
      then Vector3.y vel - (98 # 10) * deltaTime * (1 # 10)
      else Vector3.y vel in
    let d3 := ParticleData.mk (ParticleData.id d2) (ParticleData.type d2)
                pos' (Vector3.mk (Vector3.x vel) vy (Vector3.z vel))
                life (ParticleData.maxLife d2) (ParticleData.size d2)
                (ParticleData.color d2) (ParticleData.trail d2) in
    (true, mk mesh' d3 trail').

(** [reset(data)] *)
Definition reset (d : ParticleData.t) (p : t) : t :=
  mk (mkMesh (ParticleData.position d) (Fin (8 # 10)) (ParticleData.color d))
     d
     (match trail p, ParticleData.trail d with
      | Some l, Some _ =>
          Some (mkLine (replicate (length (points l))
                                  (ParticleData.position d))
                       (lineOpacity l))
      | other, _ => other
      end).

(** The particle after each of a sequence of [update] calls, as long as it
    stays alive. *)
Fixpoint updates (dts : list Q) (p : t) : t :=
  match dts with
  | [] => p
  | dt :: rest =>
      match update dt p with
      | (true, p') => updates rest p'
      | (false, p') => p'
      end
  end.

(** Whether every [update] call of the sequence keeps the particle
    alive. *)
Fixpoint survives (dts : list Q) (p : t) : bool :=
  match dts with
  | [] => true
  | dt :: rest =>
      match update dt p with
      | (true, p') => survives rest p'
      | (false, _) => false
      end
  end.

End DataParticle.

Module ParticleSystem.
Import JS.
Local Open Scope Q_scope.

Inductive Quality : Type := low | medium | high.

Record ParticleConfig : Type := mkConfig {
  maxParticles : nat;
  spawnRate : Q;
  enablePhysics : bool;
  enableCollisions : bool;
  quality : Quality
}.

(** An entry of [PARTICLE_CONFIGS] ([config.ts]), as far as this class
    reads it. *)
Record TypeConfig : Type := mkTypeConfig {
  baseSize : Q;
  sizeVariation : Q;
  hasTrail : bool
}.

(** Particles are references; [objects] holds what each one points to.
    [activeParticles] is the set in insertion order, [group] the particles
    whose mesh is attached to the scene group. *)
Record t : Type := mk {
  config : ParticleConfig;
  particlePool : ObjectPool.t nat;
  objects : gmap nat DataParticle.t;
  activeParticles : list nat;
  spawnTimer : Q;
  enabled : bool;
  group : gset nat
}.

(** [createParticle]: every new particle starts from the same data. *)
Definition createParticle : DataParticle.t :=
  DataParticle.construct
    (ParticleData.mk EmptyString "data-flow" Vector3.zero Vector3.zero 1 1 (1 # 2)
                     9133302 None).

Definition deref (s : t) (r : nat) : DataParticle.t :=
  default createParticle (objects s !! r).

(** The constructor.  It calls [new ObjectPool] with three positional
    arguments, a factory, a reset hook and a size, while the constructor
    of [ObjectPool] takes one configuration object and reads the first
    argument as that.  The factory function has none of the fields of a
    configuration, so the defaults stand, [createFn] among them is
    undefined, and the first [createObject] of [initialize] throws on
    calling it: no configuration gets a system built. *)
Definition construct (c : ParticleConfig) : completion t :=
  Throw "TypeError: this.config.createFn is not a function".

Definition with_pool (pool : ObjectPool.t nat) (s : t) : t :=
  mk (config s) pool (objects s) (activeParticles s) (spawnTimer s)
     (enabled s) (group s).
Definition with_spawnTimer (v : Q) (s : t) : t :=
  mk (config s) (particlePool s) (objects s) (activeParticles s) v
     (enabled s) (group s).

Section Spawn.
(** [Math.sqrt], and the table [PARTICLE_CONFIGS] with its [default]
    fallback applied. *)
Variable Math_sqrt : Q -> Q.
Variable PARTICLE_CONFIGS : string -> TypeConfig.

(** What one [spawnParticle] call reads from outside: the samples of
    [Math.random()] for the speed and the size, and the text of the id. *)
Record Samples : Type := mkSamples {
  speedSample : Q;
  sizeSample : Q;
  idText : string
}.

Definition getParticleSize (ty : string) (r : Samples) : Q :=
  let c := PARTICLE_CONFIGS ty in
  baseSize c + sizeSample r * sizeVariation c.

Definition shouldHaveTrail (s : t) (ty : string) : bool :=
  hasTrail (PARTICLE_CONFIGS ty)
  && negb (match quality (config s) with low => true | _ => false end).

(** [a / b] where the code goes on with the quotient: a finite quotient
    as it is, and 0 where JavaScript has [NaN] or an infinity (a zero
    travel time, whose particle expires at its first [update]). *)
Definition quotient (a b : Q) : Q :=
  match div a b with Fin q => q | _ => 0 end.

(** [spawnParticle(from, to, type, color)].  [None]: the pool's
    [acquire] has not returned within [fuel] calls.  The unused
    [midPoint] is left out. *)
Definition spawnParticle (fuel : nat) (r : Samples)
    (from to : Vector3.t) (ty : string) (color : Z) (s : t)
  : option (completion (option nat) * t) :=
  if (maxParticles (config s) <=? length (activeParticles s))%nat
  then Some (Normal None, s)
  else
    match ObjectPool.acquire fuel (particlePool s) with
    | None => None
    | Some (Throw e, pool) => Some (Throw e, with_pool pool s)
    | Some (Normal particle, pool) =>
        let dx := Vector3.x to - Vector3.x from in
        let dy := Vector3.y to - Vector3.y from in
        let dz := Vector3.z to - Vector3.z from in
        let distance := Math_sqrt (dx * dx + dy * dy + dz * dz) in
        let speed := 30 + speedSample r * 20 in
        let travelTime := quotient distance speed in
        let particleData :=
          ParticleData.mk (idText r) ty from
            (Vector3.mk (quotient dx travelTime)
                        (quotient dy travelTime)
                        (quotient dz travelTime))
            travelTime travelTime (getParticleSize ty r) color
            (if shouldHaveTrail s ty
             then Some (TrailData.mk [] 10 (1 # 10)) else None) in
        let obj := DataParticle.reset particleData (deref s particle) in
        Some (Normal (Some particle),
              mk (config s) pool (<[particle := obj]> (objects s))
                 (if decide (particle ∈ activeParticles s)
                  then activeParticles s
                  else activeParticles s ++ [particle])
                 (spawnTimer s) (enabled s)
                 ({[particle]} ∪ group s))
    end.

(** [spawnDataFlow(fromDistrict, toDistrict, color)] *)
Definition spawnDataFlow (fuel : nat) (r : Samples)
    (fromDistrict toDistrict : Vector3.t) (color : Z) (s : t)
  : option (completion unit * t) :=
  if lt (Fin (spawnTimer s)) (div 1 (spawnRate (config s)))
  then Some (Normal tt, s)
  else
    match spawnParticle fuel r fromDistrict toDistrict "data-flow"
                        color s with
    | None => None
    | Some (Throw e, s1) => Some (Throw e, s1)
    | Some (Normal _, s1) => Some (Normal tt, with_spawnTimer 0 s1)
    end.

End Spawn.

(** The first loop of [update]: [particle.update(deltaTime)] on every
    active particle, collecting those to remove. *)
Fixpoint updateParticles (deltaTime : Q) (rs : list nat)
    (objs : gmap nat DataParticle.t)
  : gmap nat DataParticle.t * list nat :=
  match rs with
  | [] => (objs, [])
  | r :: rest =>
      let '(alive, p') :=
        DataParticle.update deltaTime (default createParticle (objs !! r)) in
      let '(objs', dead) :=
        updateParticles deltaTime rest (<[r := p']> objs) in
      (objs', if alive then dead else r :: dead)
  end.

(** One iteration of the second loop: drop the particle from the active
    set and release it; the pool calls [resetParticle], which detaches the
    mesh, when the particle was active in the pool. *)
Definition removeParticle (now : Z) (r : nat) (s : t) : t :=
  let pool := particlePool s in
  mk (config s) (ObjectPool.release now r pool) (objects s)
     (filter (fun r' => r' ≠ r) (activeParticles s))
     (spawnTimer s) (enabled s)
     (if decide (r ∈ ObjectPool.active pool)
      then group s ∖ {[r]} else group s).

(** [update(deltaTime)]; [now] is [Date.now()] as the pool reads it. *)
Definition update (now : Z) (deltaTime : Q) (s : t) : t :=
  if negb (enabled s) then s
  else
    let s1 := with_spawnTimer (spawnTimer s + deltaTime) s in
    let '(objs, particlesToRemove) :=
      updateParticles deltaTime (activeParticles s1) (objects s1) in
    let s2 := mk (config s1) (particlePool s1) objs (activeParticles s1)
                 (spawnTimer s1) (enabled s1) (group s1) in
    foldl (fun acc r => removeParticle now r acc) s2 particlesToRemove.

Definition setEnabled (b : bool) (s : t) : t :=
  mk (config s) (particlePool s) (objects s) (activeParticles s)
     (spawnTimer s) b (group s).

Definition setQuality (q : Quality) (s : t) : t :=
  let c := config s in
  let c' :=
    match q with
    | low => mkConfig 50 2 (enablePhysics c) (enableCollisions c) low
    | medium => mkConfig 100 5 (enablePhysics c) (enableCollisions c) medium
    | high => mkConfig 200 10 (enablePhysics c) (enableCollisions c) high
    end in
  mk c' (particlePool s) (objects s) (activeParticles s) (spawnTimer s)
     (enabled s) (group s).

Definition getActiveCount (s : t) : nat := length (activeParticles s).
Definition getMaxCount (s : t) : nat := maxParticles (config s).


Section Run.
Variable Math_sqrt : Q -> Q.
Variable PARTICLE_CONFIGS : string -> TypeConfig.

(** A call of the public interface, with what it reads from outside. *)
Inductive call : Type :=
| SpawnParticle (r : Samples) (from to : Vector3.t) (ty : string) (color : Z)
| SpawnDataFlow (r : Samples) (from to : Vector3.t) (color : Z)
| Update (now : Z) (deltaTime : Q).

(** A sequence of calls; an exception of the pool leaves the system as the
    throwing call left it, and the sequence goes on. *)
Fixpoint run (fuel : nat) (cs : list call) (s : t) : option t :=
  match cs with
  | [] => Some s
  | SpawnParticle r from to ty color :: cs' =>
      match spawnParticle Math_sqrt PARTICLE_CONFIGS fuel r from to ty color s with
      | Some (_, s1) => run fuel cs' s1
      | None => None
      end
  | SpawnDataFlow r from to color :: cs' =>
      match spawnDataFlow Math_sqrt PARTICLE_CONFIGS fuel r from to color s with
      | Some (_, s1) => run fuel cs' s1
      | None => None
      end
  | Update now deltaTime :: cs' => run fuel cs' (update now deltaTime s)
  end.

End Run.

End ParticleSystem.

(** ** LOD manager ([systems/LODManager]) *)

Module LODManager.
Import JS.
Local Open Scope Q_scope.

Inductive LODLevel : Type := high | medium | low | culled.

Inductive Quality : Type := lowQuality | mediumQuality | highQuality.
Inductive ViewMode : Type := city | network | transition.

(** The owning component; [District] and [Building] both have [setLOD]. *)
Inductive Component : Type := District | Building.
Definition hasSetLOD (c : Component) : bool := true.

Definition Distances : Type := (Q * Q * Q)%type.

Record LODConfig : Type := mkConfig {
  enableLOD : bool;
  distances : Distances;
  enableFrustumCulling : bool;
  enableOcclusionCulling : bool;
  updateFrequency : Q
}.

(** [object] is the uuid of the scene object, [objectVisible] its
    [visible] flag.  The bounding sphere is read by the frustum test only,
    whose result is an input here. *)
Record LODObject : Type := mkObject {
  object : string;
  objectVisible : bool;
  component : option Component;
  lastDistance : number;
  lastLODLevel : LODLevel;
  isVisible : bool;
  forceUpdate : bool
}.

Record Stats : Type := mkStats {
  totalObjects : Z;
  visibleCount : Z;
  culledObjects : Z;
  highCount : Z;
  mediumCount : Z;
  lowCount : Z;
  lastUpdateDuration : Q
}.

(** [lodObjects] is the [Map] in insertion order. *)
Record t : Type := mk {
  config : LODConfig;
  lodObjects : list (string * LODObject);
  visibleObjects : gset string;
  lastUpdateTime : Q;
  updateInterval : number;
  stats : Stats
}.

(** Calls that leave the manager. *)
Inductive effect : Type :=
| SetLOD (objectId : string) (c : Component) (distance : Q) (d : Distances)
| GenericLOD (objectId : string) (level : LODLevel)
| Emit (event : string) (objectId : string).

Definition defaultConfig : LODConfig :=
  mkConfig true (50, 100, 200) true false 30.

Definition construct (c : LODConfig) : t :=
  mk c [] ∅ 0 (div 1000 (updateFrequency c)) (mkStats 0 0 0 0 0 0 0).

Definition with_config (c : LODConfig) (m : t) : t :=
  mk c (lodObjects m) (visibleObjects m) (lastUpdateTime m)
     (updateInterval m) (stats m).
Definition with_objects (l : list (string * LODObject)) (m : t) : t :=
  mk (config m) l (visibleObjects m) (lastUpdateTime m)
     (updateInterval m) (stats m).
Definition with_interval (i : number) (m : t) : t :=
  mk (config m) (lodObjects m) (visibleObjects m) (lastUpdateTime m)
     i (stats m).
Definition with_stats (s : Stats) (m : t) : t :=
  mk (config m) (lodObjects m) (visibleObjects m) (lastUpdateTime m)
     (updateInterval m) s.

Definition set_distances (d : Distances) (c : LODConfig) : LODConfig :=
  mkConfig (enableLOD c) d (enableFrustumCulling c)
           (enableOcclusionCulling c) (updateFrequency c).
Definition set_frequency (f : Q) (c : LODConfig) : LODConfig :=
  mkConfig (enableLOD c) (distances c) (enableFrustumCulling c)
           (enableOcclusionCulling c) f.

Definition set_forceUpdate (b : bool) (o : LODObject) : LODObject :=
  mkObject (object o) (objectVisible o) (component o) (lastDistance o)
           (lastLODLevel o) (isVisible o) b.

(** [markAllForUpdate] *)
Definition markAllForUpdate (m : t) : t :=
  with_objects
    (map (fun e => (fst e, set_forceUpdate true (snd e))) (lodObjects m)) m.

(** [markObjectForUpdate] *)
Definition markObjectForUpdate (objectId : string) (m : t) : t :=
  with_objects
    (map (fun e => if String.eqb (fst e) objectId
                   then (fst e, set_forceUpdate true (snd e)) else e)
         (lodObjects m)) m.

(** [setDistances] *)
Definition setDistances (d : Distances) (m : t) : t :=
  markAllForUpdate (with_config (set_distances d (config m)) m).

(** [setUpdateFrequency] *)
Definition setUpdateFrequency (frequency : Q) (m : t) : t :=
  let f := Qmax 5 (Qmin 60 frequency) in
  with_interval (div 1000 f) (with_config (set_frequency f (config m)) m).

(** [enableFrustumCulling] *)
Definition setFrustumCulling (b : bool) (m : t) : t :=
  let c := config m in
  markAllForUpdate
    (with_config (mkConfig (enableLOD c) (distances c) b
                           (enableOcclusionCulling c) (updateFrequency c))
                 m).

(** [adjustQualitySettings] *)
Definition adjustQualitySettings (q : Quality) (m : t) : t :=
  let '(d, f) :=
    match q with
    | lowQuality => ((75, 150, 300), 15)
    | mediumQuality => ((60, 120, 250), 20)
    | highQuality => ((50, 100, 200), 30)
    end in
  let c := set_frequency f (set_distances d (config m)) in
  markAllForUpdate (with_interval (div 1000 f) (with_config c m)).

(** [handleViewModeChange] *)
Definition handleViewModeChange (v : ViewMode) (m : t) : t :=
  let '(h, md, l) := distances (config m) in
  let d :=
    match v with
    | city => (h * (12 # 10), md * (12 # 10), l * (12 # 10))
    | network => (h * (6 # 10), md * (6 # 10), l * (6 # 10))
    | transition => (h, md, l)
    end in
  markAllForUpdate (with_config (set_distances d (config m)) m).

(** [Map.set]: a known key keeps its place. *)
Fixpoint mapSet (k : string) (o : LODObject)
    (l : list (string * LODObject)) : list (string * LODObject) :=
  match l with
  | [] => [(k, o)]
  | (k', o') :: rest =>
      if String.eqb k' k then (k, o) :: rest else (k', o') :: mapSet k o rest
  end.

Definition addTotal (d : Z) (s : Stats) : Stats :=
  mkStats (totalObjects s + d) (visibleCount s) (culledObjects s)
          (highCount s) (mediumCount s) (lowCount s) (lastUpdateDuration s).

(** [addObject(object, component)]; [uuid] is [object.uuid]. *)
Definition addObject (uuid : string) (visible : bool)
    (c : option Component) (m : t) : t * list effect :=
  let lodObject := mkObject uuid visible c PInf high true true in
  (with_stats (addTotal 1 (stats m))
              (with_objects (mapSet uuid lodObject (lodObjects m)) m),
   [Emit "lod:object-added" uuid]).

(** [removeObject] *)
Definition removeObject (objectId : string) (m : t) : t * list effect :=
  if existsb (fun e => String.eqb (fst e) objectId) (lodObjects m) then
    (mk (config m)
        (filter (fun e => fst e ≠ objectId) (lodObjects m))
        (visibleObjects m ∖ {[objectId]}) (lastUpdateTime m)
        (updateInterval m) (addTotal (-1) (stats m)),
     [Emit "lod:object-removed" objectId])
  else (m, []).

(** What an update pass carries from object to object. *)
Record Pass : Type := mkPass {
  passVisible : gset string;
  passStats : Stats;
  passEffects : list effect
}.

(** [setObjectVisibility] *)
Definition setObjectVisibility (visible : bool) (o : LODObject) (p : Pass)
  : LODObject * Pass :=
  if Bool.eqb (isVisible o) visible then (o, p)
  else
    (mkObject (object o) visible (component o) (lastDistance o)
              (lastLODLevel o) visible (forceUpdate o),
     mkPass (if visible then {[object o]} ∪ passVisible p
             else passVisible p ∖ {[object o]})
            (passStats p) (passEffects p)).

Definition set_level (l : LODLevel) (o : LODObject) : LODObject :=
  mkObject (object o) (objectVisible o) (component o) (lastDistance o)
           l (isVisible o) (forceUpdate o).

Definition countCulled (s : Stats) : Stats :=
  mkStats (totalObjects s) (visibleCount s) (culledObjects s + 1)
          (highCount s) (mediumCount s) (lowCount s) (lastUpdateDuration s).
Definition countVisible (s : Stats) : Stats :=
  mkStats (totalObjects s) (visibleCount s + 1) (culledObjects s)
          (highCount s) (mediumCount s) (lowCount s) (lastUpdateDuration s).
Definition countLevel (l : LODLevel) (s : Stats) : Stats :=
  mkStats (totalObjects s) (visibleCount s) (culledObjects s)
          (highCount s + match l with high => 1 | _ => 0 end)
          (mediumCount s + match l with medium => 1 | _ => 0 end)
          (lowCount s + match l with low => 1 | _ => 0 end)
          (lastUpdateDuration s).
Definition with_passStats (s : Stats) (p : Pass) : Pass :=
  mkPass (passVisible p) s (passEffects p).
Definition emit (es : list effect) (p : Pass) : Pass :=
  mkPass (passVisible p) (passStats p) (passEffects p ++ es).

(** [applyLODLevel]: the component hook, the generic material
    adjustment, the event. *)
Definition applyLODLevel (d : Distances) (o : LODObject) (level : LODLevel)
    (distance : Q) : list effect :=
  (match component o with
   | Some c => if hasSetLOD c then [SetLOD (object o) c distance d] else []
   | None => []
   end)
  ++ [GenericLOD (object o) level; Emit "lod:level-change" (object o)].

Definition level_eqb (a b : LODLevel) : bool :=
  match a, b with
  | high, high | medium, medium | low, low | culled, culled => true
  | _, _ => false
  end.

(** The tier by distance; [None] is "too far". *)
Definition tierOf (d : Distances) (distance : Q) : option LODLevel :=
  let '(highDist, mediumDist, lowDist) := d in
  if Qleb distance highDist then Some high
  else if Qleb distance mediumDist then Some medium
  else if Qleb distance lowDist then Some low
  else None.

(** [updateLODObject].  [distance] is the distance of the object to the
    camera and [intersects] the answer of the frustum to its bounding
    sphere, both from the 3D engine; [camera] tells whether a camera was
    passed. *)
Definition updateLODObject (cfg : LODConfig) (camera : bool)
    (distance : Q) (intersects : bool) (o : LODObject) (p : Pass)
  : LODObject * Pass :=
  let distanceChanged :=
    gt (abs (sub (Fin distance) (lastDistance o))) (Fin 5) in
  if negb (forceUpdate o) && negb distanceChanged then (o, p)
  else
    let o1 := mkObject (object o) (objectVisible o) (component o)
                       (Fin distance) (lastLODLevel o) (isVisible o)
                       false in
    let isInFrustum :=
      if camera && enableFrustumCulling cfg then intersects else true in
    if negb isInFrustum then
      let '(o2, p2) := setObjectVisibility false o1 p in
      (set_level culled o2, with_passStats (countCulled (passStats p2)) p2)
    else
      match tierOf (distances cfg) distance with
      | None =>
          let '(o2, p2) := setObjectVisibility false o1 p in
          (set_level culled o2,
           with_passStats (countCulled (passStats p2)) p2)
      | Some newLODLevel =>
          let p1 := with_passStats (countLevel newLODLevel (passStats p)) p in
          let '(o2, p2) := setObjectVisibility true o1 p1 in
          let p3 := with_passStats (countVisible (passStats p2)) p2 in
          if negb (level_eqb newLODLevel (lastLODLevel o2))
             || forceUpdate o2
          then
            (set_level newLODLevel o2,
             emit (applyLODLevel (distances cfg) o2 newLODLevel distance) p3)
          else (o2, p3)
      end.

(** The loop of [update] over the tracked objects; [probe] gives the
    engine's distance and frustum answer for an object. *)
Fixpoint updateObjects (cfg : LODConfig) (camera : bool)
    (probe : string -> Q * bool) (l : list (string * LODObject)) (p : Pass)
  : list (string * LODObject) * Pass :=
  match l with
  | [] => ([], p)
  | (k, o) :: rest =>
      let '(distance, intersects) := probe (object o) in
      let '(o', p1) := updateLODObject cfg camera distance intersects o p in
      let '(rest', p2) := updateObjects cfg camera probe rest p1 in
      ((k, o') :: rest', p2)
  end.

(** [update(cameraPosition, camera)]; [now] is [performance.now()] at
    entry and [duration] the time the pass is measured to take. *)
Definition update (now duration : Q) (camera : bool)
    (probe : string -> Q * bool) (m : t) : t * list effect :=
  if lt (Fin (now - lastUpdateTime m)) (updateInterval m) then (m, [])
  else
    let s := stats m in
    let s0 := mkStats (totalObjects s) 0 0 0 0 0 (lastUpdateDuration s) in
    let '(objs, p) :=
      updateObjects (config m) camera probe (lodObjects m)
                    (mkPass (visibleObjects m) s0 []) in
    let s1 := passStats p in
    let s2 := mkStats (totalObjects s1) (visibleCount s1) (culledObjects s1)
                      (highCount s1) (mediumCount s1) (lowCount s1)
                      duration in
    (mk (config m) objs (passVisible p) now (updateInterval m) s2,
     passEffects p ++ [Emit "lod:stats-update" EmptyString]).

Definition getObjectLODLevel (objectId : string) (m : t)
  : option LODLevel :=
  match find (fun e => String.eqb (fst e) objectId) (lodObjects m) with
  | Some e => Some (lastLODLevel (snd e))
  | None => None
  end.

Definition lookupObject (objectId : string) (m : t) : option LODObject :=
  match find (fun e => String.eqb (fst e) objectId) (lodObjects m) with
  | Some e => Some (snd e)
  | None => None
  end.

End LODManager.

(** ** Animation loop ([systems/AnimationLoop.ts]) *)

Module AnimationLoop.
Import JS.
Local Open Scope Q_scope.

Record AnimationLoopConfig : Type := mkConfig {
  targetFPS : Q;
  enableAdaptiveFrameRate : bool;
  enablePerformanceTracking : bool;
  maxDeltaTime : Q;
  enableFixedTimeStep : bool;
  fixedTimeStep : Q
}.

(** [scheduled] tells whether a frame request is pending ([animationId]). *)
Record t : Type := mk {
  isRunning : bool;
  isPaused : bool;
  scheduled : bool;
  lastTime : Q;
  elapsedTime : Q;
  deltaTime : Q;
  frameCount : nat;
  fpsHistory : list number;
  frameTimeHistory : list Q;
  lastPerformanceUpdate : Z;
  accumulator : Q;
  config : AnimationLoopConfig
}.

Definition performanceUpdateInterval : Z := 500.
Definition maxAccumulator : Q := 1 # 4.

(** Calls that leave the loop: each registry of hooks is called once with
    the arguments shown; frames are requested directly or after a delay. *)
Inductive effect : Type :=
| PreUpdate (deltaTime elapsedTime : Q)
| Update (deltaTime elapsedTime : Q)
| Render
| PostRender (deltaTime elapsedTime : Q)
| RequestFrame
| Timeout (delay : number)
| CancelFrame
| PerformanceUpdate
| Emit (event : string)
| ConsoleError
| SetError.

Definition construct (c : AnimationLoopConfig) : t :=
  mk false false false 0 0 0 0 [] [] 0 0 c.

(** [render]; the interpolation fraction is not passed on. *)
Definition render (s : t) : list effect :=
  [Render; PostRender (deltaTime s) (elapsedTime s)].

(** [variableTimeStepUpdate] *)
Definition variableTimeStepUpdate (s : t) : list effect :=
  [PreUpdate (deltaTime s) (elapsedTime s);
   Update (deltaTime s) (elapsedTime s)] ++ render s.

Definition with_accumulator (a : Q) (s : t) : t :=
  mk (isRunning s) (isPaused s) (scheduled s) (lastTime s) (elapsedTime s)
     (deltaTime s) (frameCount s) (fpsHistory s) (frameTimeHistory s)
     (lastPerformanceUpdate s) a (config s).

(** The [while] loop of [fixedTimeStepUpdate]; [None] when it has not
    ended within [fuel] iterations. *)
Fixpoint drain (fuel : nat) (s : t) : option (t * list effect) :=
  if Qgeb (accumulator s) (fixedTimeStep (config s)) then
    match fuel with
    | O => None
    | S fuel' =>
        let step := fixedTimeStep (config s) in
        match drain fuel' (with_accumulator (accumulator s - step) s) with
        | Some (s', es) =>
            Some (s', PreUpdate step (elapsedTime s)
                        :: Update step (elapsedTime s) :: es)
        | None => None
        end
    end
  else Some (s, []).

(** [fixedTimeStepUpdate] *)
Definition fixedTimeStepUpdate (fuel : nat) (s : t)
  : option (t * list effect) :=
  let a := accumulator s + deltaTime s in
  let a' := if Qgtb a maxAccumulator then maxAccumulator else a in
  match drain fuel (with_accumulator a' s) with
  | Some (s', es) => Some (s', es ++ render s')
  | None => None
  end.

(** [getCurrentFPS] *)
Definition getCurrentFPS (s : t) : number :=
  match fpsHistory s with
  | [] => Fin 0
  | h :: _ => List.last (fpsHistory s) h
  end.

(** [getAdaptiveFPS] *)
Definition getAdaptiveFPS (s : t) : Q :=
  let currentFPS := getCurrentFPS s in
  let target := targetFPS (config s) in
  if lt currentFPS (Fin (target * (8 # 10))) then Qmax 30 (target * (75 # 100))
  else if gt currentFPS (Fin (target * (11 # 10)))
       then Qmin 120 (target * (11 # 10))
       else target.

(** [scheduleAdaptiveFrame] *)
Definition scheduleAdaptiveFrame (s : t) : list effect :=
  let targetDelay := div 1000 (getAdaptiveFPS s) in
  let rest := sub targetDelay (Fin (deltaTime s * 1000)) in
  let actualDelay :=
    match rest with
    | Fin q => Fin (Qmax 0 q)
    | PInf => PInf
    | NInf => Fin 0
    | NaN => NaN
    end in
  if gt actualDelay (Fin 0) then [Timeout actualDelay] else [RequestFrame].

(** [adjustPerformanceSettings(quality)], which the constructor registers
    as the listener of 'performance:quality-change'. *)
Inductive PerformanceQuality : Type :=
| lowQuality | mediumQuality | highQuality.

Definition adjustPerformanceSettings (quality : PerformanceQuality) (s : t)
  : t :=
  let '(fps, adaptive) :=
    match quality with
    | lowQuality => (30%Q, true)
    | mediumQuality => (45%Q, true)
    | highQuality => (60%Q, false)
    end in
  mk (isRunning s) (isPaused s) (scheduled s) (lastTime s) (elapsedTime s)
     (deltaTime s) (frameCount s) (fpsHistory s) (frameTimeHistory s)
     (lastPerformanceUpdate s) (accumulator s)
     (mkConfig fps adaptive (enablePerformanceTracking (config s))
               (maxDeltaTime (config s)) (enableFixedTimeStep (config s))
               (fixedTimeStep (config s))).

(** [trackPerformance(frameTime)]; [now] is [Date.now()].  When an update
    of the performance state is due the averages go to the state manager
    and 'performance:update' is emitted ([PerformanceUpdate]).  A quality
    change that a collaborator answers with reaches the loop through
    [adjustPerformanceSettings]; it is taken to arrive between two frames,
    not within this call. *)
Definition trackPerformance (now : Z) (frameTime : Q) (s : t)
  : t * list effect :=
  let ft := frameTimeHistory s ++ [frameTime] in
  let fps := fpsHistory s ++ [div 1000 frameTime] in
  let over := (60 <? length ft)%nat in
  let ft' := if over then drop 1 ft else ft in
  let fps' := if over then drop 1 fps else fps in
  let due := (performanceUpdateInterval <? now - lastPerformanceUpdate s)%Z in
  (mk (isRunning s) (isPaused s) (scheduled s) (lastTime s) (elapsedTime s)
      (deltaTime s) (frameCount s) fps' ft'
      (if due then now else lastPerformanceUpdate s)
      (accumulator s) (config s),
   if due then [PerformanceUpdate] else []).

Definition with_scheduled (b : bool) (s : t) : t :=
  mk (isRunning s) (isPaused s) b (lastTime s) (elapsedTime s)
     (deltaTime s) (frameCount s) (fpsHistory s) (frameTimeHistory s)
     (lastPerformanceUpdate s) (accumulator s) (config s).

(** [loop(currentTime)]: one tick, when no callback throws (the general
    case is [loopWith] below).  [now] is [Date.now()]; [fuel] bounds the
    fixed-step loop. *)
Definition loop (fuel : nat) (now : Z) (currentTime : Q) (s : t)
  : option (t * list effect) :=
  if negb (isRunning s) then Some (s, [])
  else
    let rawDeltaTime := currentTime - lastTime s in
    let dt := Qmin (rawDeltaTime / 1000) (maxDeltaTime (config s)) in
    let s1 := mk (isRunning s) (isPaused s) (scheduled s) currentTime
                 (elapsedTime s + dt) dt (S (frameCount s))
                 (fpsHistory s) (frameTimeHistory s)
                 (lastPerformanceUpdate s) (accumulator s) (config s) in
    let '(s2, es1) :=
      if enablePerformanceTracking (config s1)
      then trackPerformance now rawDeltaTime s1 else (s1, []) in
    if isPaused s2 then Some (with_scheduled true s2, es1 ++ [RequestFrame])
    else
      let updated :=
        if enableFixedTimeStep (config s2)
        then fixedTimeStepUpdate fuel s2
        else Some (s2, variableTimeStepUpdate s2) in
      match updated with
      | None => None
      | Some (s3, es2) =>
          let es3 :=
            if enableAdaptiveFrameRate (config s3)
            then scheduleAdaptiveFrame s3 else [RequestFrame] in
          Some (with_scheduled true s3, es1 ++ es2 ++ es3)
      end.

(** [start]; [now] is [performance.now()]. *)
Definition start (now : Q) (s : t) : t * list effect :=
  if isRunning s then (s, [])
  else
    (mk true false true now (elapsedTime s) (deltaTime s) (frameCount s)
        (fpsHistory s) (frameTimeHistory s) (lastPerformanceUpdate s)
        (accumulator s) (config s),
     [RequestFrame; Emit "animation:start"]).

(** [stop] *)
Definition stop (s : t) : t * list effect :=
  if negb (isRunning s) then (s, [])
  else
    (mk false false false (lastTime s) (elapsedTime s) (deltaTime s)
        (frameCount s) (fpsHistory s) (frameTimeHistory s)
        (lastPerformanceUpdate s) (accumulator s) (config s),
     (if scheduled s then [CancelFrame] else [])
       ++ [Emit "animation:stop"]).

(** [pause] *)
Definition pause (s : t) : t * list effect :=
  if negb (isRunning s) || isPaused s then (s, [])
  else
    (mk (isRunning s) true (scheduled s) (lastTime s) (elapsedTime s)
        (deltaTime s) (frameCount s) (fpsHistory s) (frameTimeHistory s)
        (lastPerformanceUpdate s) (accumulator s) (config s),
     [Emit "animation:pause"]).

(** [resume]; [now] is [performance.now()]. *)
Definition resume (now : Q) (s : t) : t * list effect :=
  if negb (isRunning s) || negb (isPaused s) then (s, [])
  else
    (mk (isRunning s) false (scheduled s) now (elapsedTime s)
        (deltaTime s) (frameCount s) (fpsHistory s) (frameTimeHistory s)
        (lastPerformanceUpdate s) (accumulator s) (config s),
     [Emit "animation:resume"]).

(** [step] *)
Definition step (s : t) : t * list effect :=
  if isRunning s && negb (isPaused s) then (s, [])
  else
    let dt := fixedTimeStep (config s) in
    let s1 := mk (isRunning s) (isPaused s) (scheduled s) (lastTime s)
                 (elapsedTime s + dt) dt (frameCount s) (fpsHistory s)
                 (frameTimeHistory s) (lastPerformanceUpdate s)
                 (accumulator s) (config s) in
    (s1, variableTimeStepUpdate s1).

(** Callbacks that may throw.  [hooks s e] tells whether a callback of
    the registry throws at the call [e] made with the loop in state [s];
    the callbacks after it in the registry, and the registries after that
    one, are then not called. *)
Definition Hooks : Type := t -> effect -> bool.

(** Registry calls in order: the calls made, and whether the last one
    threw. *)
Fixpoint callAll (hooks : Hooks) (s : t) (calls : list effect)
  : list effect * bool :=
  match calls with
  | [] => ([], false)
  | e :: rest =>
      if hooks s e then ([e], true)
      else let '(es, threw) := callAll hooks s rest in (e :: es, threw)
  end.

(** [variableTimeStepUpdate], and with it [render] *)
Definition variableTimeStepUpdateWith (hooks : Hooks) (s : t)
  : list effect * bool :=
  callAll hooks s (variableTimeStepUpdate s).

(** The [while] loop of [fixedTimeStepUpdate]: an exception leaves it with
    the accumulator as it stands. *)
Fixpoint drainWith (hooks : Hooks) (fuel : nat) (s : t)
  : option (t * list effect * bool) :=
  if Qgeb (accumulator s) (fixedTimeStep (config s)) then
    match fuel with
    | O => None
    | S fuel' =>
        let step := fixedTimeStep (config s) in
        let '(es, threw) :=
          callAll hooks s [PreUpdate step (elapsedTime s);
                           Update step (elapsedTime s)] in
        if threw then Some (s, es, true)
        else
          match drainWith hooks fuel' (with_accumulator (accumulator s - step) s)
          with
          | Some (s', es', threw') => Some (s', es ++ es', threw')
          | None => None
          end
    end
  else Some (s, [], false).

(** [fixedTimeStepUpdate] *)
Definition fixedTimeStepUpdateWith (hooks : Hooks) (fuel : nat) (s : t)
  : option (t * list effect * bool) :=
  let a := accumulator s + deltaTime s in
  let a' := if Qgtb a maxAccumulator then maxAccumulator else a in
  match drainWith hooks fuel (with_accumulator a' s) with
  | Some (s', es, true) => Some (s', es, true)
  | Some (s', es, false) =>
      let '(rs, threw) := callAll hooks s' (render s') in
      Some (s', es ++ rs, threw)
  | None => None
  end.

(** [loop(currentTime)] with its [try] and [catch]: an exception of a
    callback ends the update of the frame, is logged and reported to the
    state manager, and the next frame is requested all the same. *)
Definition loopWith (hooks : Hooks) (fuel : nat) (now : Z) (currentTime : Q)
    (s : t) : option (t * list effect) :=
  if negb (isRunning s) then Some (s, [])
  else
    let rawDeltaTime := currentTime - lastTime s in
    let dt := Qmin (rawDeltaTime / 1000) (maxDeltaTime (config s)) in
    let s1 := mk (isRunning s) (isPaused s) (scheduled s) currentTime
                 (elapsedTime s + dt) dt (S (frameCount s))
                 (fpsHistory s) (frameTimeHistory s)
                 (lastPerformanceUpdate s) (accumulator s) (config s) in
    let '(s2, es1) :=
      if enablePerformanceTracking (config s1)
      then trackPerformance now rawDeltaTime s1 else (s1, []) in
    if isPaused s2 then Some (with_scheduled true s2, es1 ++ [RequestFrame])
    else
      let updated :=
        if enableFixedTimeStep (config s2)
        then fixedTimeStepUpdateWith hooks fuel s2
        else Some (s2, fst (variableTimeStepUpdateWith hooks s2),
                   snd (variableTimeStepUpdateWith hooks s2)) in
      match updated with
      | None => None
      | Some (s3, es2, threw) =>
          let caught := if threw then [ConsoleError; SetError] else [] in
          let es3 :=
            if enableAdaptiveFrameRate (config s3)
            then scheduleAdaptiveFrame s3 else [RequestFrame] in
          Some (with_scheduled true s3, es1 ++ es2 ++ caught ++ es3)
      end.

(** Callbacks that never throw. *)
Definition quiet : Hooks := fun _ _ => false.

Definition with_config (c : AnimationLoopConfig) (s : t) : t :=
  mk (isRunning s) (isPaused s) (scheduled s) (lastTime s) (elapsedTime s)
     (deltaTime s) (frameCount s) (fpsHistory s) (frameTimeHistory s)
     (lastPerformanceUpdate s) (accumulator s) c.

(** [setTargetFPS] *)
Definition setTargetFPS (fps : Q) (s : t) : t :=
  let c := config s in
  with_config (mkConfig (Qmax 15 (Qmin 120 fps)) (enableAdaptiveFrameRate c)
                        (enablePerformanceTracking c) (maxDeltaTime c)
                        (enableFixedTimeStep c) (fixedTimeStep c)) s.

(** [setFixedTimeStep(enabled, timeStep)]; [None] is a call without a time
    step. *)
Definition setFixedTimeStep (enabled : bool) (timeStep : option Q) (s : t)
  : t :=
  let c := config s in
  with_config (mkConfig (targetFPS c) (enableAdaptiveFrameRate c)
                        (enablePerformanceTracking c) (maxDeltaTime c)
                        enabled
                        (match timeStep with
                         | Some v => v
                         | None => fixedTimeStep c
                         end)) s.

(** What happens to a loop, in order: the host's frame callback and the
    calls of the public interface. *)
Inductive event : Type :=
| Frame (now : Z) (currentTime : Q)
| Start (now : Q)
| Stop
| Pause
| Resume (now : Q)
| Step.

Definition handle (fuel : nat) (e : event) (s : t)
  : option (t * list effect) :=
  match e with
  | Frame now currentTime => loop fuel now currentTime s
  | Start now => Some (start now s)
  | Stop => Some (stop s)
  | Pause => Some (pause s)
  | Resume now => Some (resume now s)
  | Step => Some (step s)
  end.

Fixpoint run (fuel : nat) (es : list event) (s : t)
  : option (t * list effect) :=
  match es with
  | [] => Some (s, [])
  | e :: rest =>
      match handle fuel e s with
      | None => None
      | Some (s1, out1) =>
          match run fuel rest s1 with
          | None => None
          | Some (s2, out2) => Some (s2, out1 ++ out2)
          end
      end
  end.

End AnimationLoop.

(** ** Camera controller ([core/Camera]) *)

Module Camera.
Import JS.
Local Open Scope Q_scope.

(** [MIN_CAMERA_DISTANCE] and [MAX_CAMERA_DISTANCE] as the class gets
    them.  It imports the two names from ['@/config'], and [config.ts]
    exports neither (they are constants of [types/index.ts], 30 and 300):
    both are [undefined] where [setDistance] reads them. *)
Definition MIN_CAMERA_DISTANCE : option Q := None.
Definition MAX_CAMERA_DISTANCE : option Q := None.

(** [distance] can hold the [NaN] that [setDistance] stores. *)
Record CameraState : Type := mkState {
  distance : number;
  angle : Q;
  elevation : Q;
  target : Vector3.t;
  fov : Q
}.

Record CameraConfig : Type := mkConfig {
  configFov : Q;
  near : Q;
  far : Q;
  aspect : Q;
  initialDistance : Q;
  smoothing : Q
}.

(** [cameraFov] is the field of view of the engine's camera;
    [positionUpdates] counts the calls of [updatePosition], which places
    the engine's camera from the state. *)
Record t : Type := mk {
  state : CameraState;
  targetState : CameraState;
  config : CameraConfig;
  transitionProgress : number;
  isTransitioning : bool;
  transitionDuration : Q;
  transitionStart : Z;
  cameraFov : Q;
  positionUpdates : nat
}.

(** The constructor, with the rounding of its one product. *)
Definition constructWith (rnd : Q -> Q) (c : CameraConfig) : t :=
  let s := mkState (Fin (initialDistance c)) 0
                   (rnd (Math_PI * rnd (35 # 100)))
                   Vector3.zero (configFov c) in
  mk s s c (Fin 0) false 1000 0 (configFov c) 1.

Definition construct (c : CameraConfig) : t := constructWith unrounded c.

Definition updatePosition (c : t) : t :=
  mk (state c) (targetState c) (config c) (transitionProgress c)
     (isTransitioning c) (transitionDuration c) (transitionStart c)
     (cameraFov c) (S (positionUpdates c)).

Definition with_state (s : CameraState) (c : t) : t :=
  mk s (targetState c) (config c) (transitionProgress c)
     (isTransitioning c) (transitionDuration c) (transitionStart c)
     (cameraFov c) (positionUpdates c).
Definition with_targetState (s : CameraState) (c : t) : t :=
  mk (state c) s (config c) (transitionProgress c)
     (isTransitioning c) (transitionDuration c) (transitionStart c)
     (cameraFov c) (positionUpdates c).
Definition with_cameraFov (f : Q) (c : t) : t :=
  mk (state c) (targetState c) (config c) (transitionProgress c)
     (isTransitioning c) (transitionDuration c) (transitionStart c)
     f (positionUpdates c).

(** [Math.min(x, 1)] *)
Definition min1 (a : number) : number :=
  match a with
  | Fin q => Fin (Qmin q 1)
  | PInf => Fin 1
  | NInf => NInf
  | NaN => NaN
  end.

(** [updateTransition]; [now] is [Date.now()]. *)
Definition updateTransition (now : Z) (c : t) : bool * t :=
  let elapsed := inject_Z (now - transitionStart c) in
  let progress := min1 (div elapsed (transitionDuration c)) in
  let finished :=
    match progress with Fin q => Qgeb q 1 | _ => false end in
  if finished then
    (false,
     mk (state c) (targetState c) (config c) (Fin 0) false
        (transitionDuration c) (transitionStart c) (cameraFov c)
        (positionUpdates c))
  else
    (true,
     mk (state c) (targetState c) (config c) progress (isTransitioning c)
        (transitionDuration c) (transitionStart c) (cameraFov c)
        (positionUpdates c)).

(** The angle difference after the two wrapping steps of [update]. *)
Definition wrapAngleWith (rnd : Q -> Q) (angleDiff : Q) : Q :=
  let turn := rnd (Math_PI * 2) in
  let d1 := if Qgtb angleDiff Math_PI then rnd (angleDiff - turn)
            else angleDiff in
  if Qltb d1 (- Math_PI) then rnd (d1 + turn) else d1.

Definition wrapAngle (angleDiff : Q) : Q := wrapAngleWith unrounded angleDiff.

Definition angleDiffOf (c : t) : Q :=
  wrapAngle (angle (targetState c) - angle (state c)).

(** One smoothing step of [update] on a field that holds a finite number:
    whether it moves, and where to. *)
Definition moves (rnd : Q -> Q) (threshold current goal : Q) : bool :=
  Qgtb (Qabs (rnd (goal - current))) threshold.

Definition smoothed (rnd : Q -> Q) (threshold current goal smoothing : Q)
  : Q :=
  if moves rnd threshold current goal
  then rnd (current + rnd (rnd (goal - current) * smoothing))
  else current.

(** The same step on the distance, which may be [NaN]. *)
Definition movesNumber (rnd : Q -> Q) (threshold : Q)
    (current goal : number) : bool :=
  gt (abs (round rnd (sub goal current))) (Fin threshold).

Definition smoothedNumber (rnd : Q -> Q) (threshold : Q)
    (current goal : number) (smoothing : Q) : number :=
  if movesNumber rnd threshold current goal
  then round rnd
         (add current
              (round rnd (mulq (round rnd (sub goal current)) smoothing)))
  else current.

(** [update(deltaTime)]; [now] is [Date.now()]. *)
Definition updateWith (rnd : Q -> Q) (now : Z) (deltaTime : Q) (c : t) : t :=
  let '(needs0, c0) :=
    if isTransitioning c then updateTransition now c else (false, c) in
  let smoothing := smoothing (config c0) in
  let s := state c0 in
  let tg := targetState c0 in
  let moveD := movesNumber rnd (rnd (1 # 100)) (distance s) (distance tg) in
  let distance' :=
    smoothedNumber rnd (rnd (1 # 100)) (distance s) (distance tg) smoothing in
  let angleDiff := wrapAngleWith rnd (rnd (angle tg - angle s)) in
  let moveA := Qgtb (Qabs angleDiff) (rnd (1 # 1000)) in
  let angle' :=
    if moveA then rnd (angle s + rnd (angleDiff * smoothing)) else angle s in
  let moveE := moves rnd (rnd (1 # 1000)) (elevation s) (elevation tg) in
  let elevation' :=
    smoothed rnd (rnd (1 # 1000)) (elevation s) (elevation tg) smoothing in
  let tx := rnd (Vector3.x (target tg) - Vector3.x (target s)) in
  let ty := rnd (Vector3.y (target tg) - Vector3.y (target s)) in
  let tz := rnd (Vector3.z (target tg) - Vector3.z (target s)) in
  let moveT := Qgtb (Qabs tx) (rnd (1 # 100))
               || Qgtb (Qabs ty) (rnd (1 # 100))
               || Qgtb (Qabs tz) (rnd (1 # 100)) in
  let target' :=
    if moveT
    then Vector3.mk (rnd (Vector3.x (target s) + rnd (tx * smoothing)))
                    (rnd (Vector3.y (target s) + rnd (ty * smoothing)))
                    (rnd (Vector3.z (target s) + rnd (tz * smoothing)))
    else target s in
  let moveF := moves rnd (rnd (1 # 10)) (fov s) (fov tg) in
  let fov' := smoothed rnd (rnd (1 # 10)) (fov s) (fov tg) smoothing in
  let c1 := with_state (mkState distance' angle' elevation' target' fov')
                       c0 in
  let c2 := if moveF then with_cameraFov fov' c1 else c1 in
  if needs0 || moveD || moveA || moveE || moveT || moveF
  then updatePosition c2 else c2.

Definition update (now : Z) (deltaTime : Q) (c : t) : t :=
  updateWith unrounded now deltaTime c.

Definition set_distance (v : number) (s : CameraState) : CameraState :=
  mkState v (angle s) (elevation s) (target s) (fov s).
Definition set_angle (v : Q) (s : CameraState) : CameraState :=
  mkState (distance s) v (elevation s) (target s) (fov s).
Definition set_elevation (v : Q) (s : CameraState) : CameraState :=
  mkState (distance s) (angle s) v (target s) (fov s).
Definition set_target (v : Vector3.t) (s : CameraState) : CameraState :=
  mkState (distance s) (angle s) (elevation s) v (fov s).
Definition set_fov (v : Q) (s : CameraState) : CameraState :=
  mkState (distance s) (angle s) (elevation s) (target s) v.

(** [setDistance(distance, smooth)]; the argument may be the [NaN] that
    [zoom] computes from a target distance that is [NaN]. *)
Definition setDistance (d : number) (smooth : bool) (c : t) : t :=
  let clampedDistance :=
    max (toNumber MIN_CAMERA_DISTANCE) (min (toNumber MAX_CAMERA_DISTANCE) d) in
  if smooth
  then with_targetState (set_distance clampedDistance (targetState c)) c
  else
    updatePosition
      (with_targetState (set_distance clampedDistance (targetState c))
         (with_state (set_distance clampedDistance (state c)) c)).

(** [setAngle(angle, smooth)] *)
Definition setAngle (a : Q) (smooth : bool) (c : t) : t :=
  if smooth then with_targetState (set_angle a (targetState c)) c
  else
    updatePosition
      (with_targetState (set_angle a (targetState c))
         (with_state (set_angle a (state c)) c)).

(** The bounds that [setElevation] clamps to, [0.1] and [Math.PI / 2.5]. *)
Definition minElevationWith (rnd : Q -> Q) : Q := rnd (1 # 10).
Definition maxElevationWith (rnd : Q -> Q) : Q := rnd (Math_PI / (25 # 10)).
Definition minElevation : Q := minElevationWith unrounded.
Definition maxElevation : Q := maxElevationWith unrounded.

(** [setElevation(elevation, smooth)] *)
Definition setElevationWith (rnd : Q -> Q) (e : Q) (smooth : bool) (c : t)
  : t :=
  let clampedElevation :=
    Qmax (minElevationWith rnd) (Qmin (maxElevationWith rnd) e) in
  if smooth
  then with_targetState (set_elevation clampedElevation (targetState c)) c
  else
    updatePosition
      (with_targetState (set_elevation clampedElevation (targetState c))
         (with_state (set_elevation clampedElevation (state c)) c)).

Definition setElevation (e : Q) (smooth : bool) (c : t) : t :=
  setElevationWith unrounded e smooth c.

(** [setTarget(target, smooth)] *)
Definition setTarget (v : Vector3.t) (smooth : bool) (c : t) : t :=
  if smooth then with_targetState (set_target v (targetState c)) c
  else
    updatePosition
      (with_targetState (set_target v (targetState c))
         (with_state (set_target v (state c)) c)).

(** [setFOV(fov, smooth)] *)
Definition setFOV (f : Q) (smooth : bool) (c : t) : t :=
  let clampedFOV := Qmax 10 (Qmin 120 f) in
  if smooth then with_targetState (set_fov clampedFOV (targetState c)) c
  else
    with_cameraFov clampedFOV
      (with_targetState (set_fov clampedFOV (targetState c))
         (with_state (set_fov clampedFOV (state c)) c)).

(** [orbit] and [zoom] *)
Definition orbit (deltaAngle deltaElevation : Q) (c : t) : t :=
  let c1 := setAngle (angle (targetState c) + deltaAngle) true c in
  setElevation (elevation (targetState c1) + deltaElevation) true c1.

Definition zoom (factor : Q) (c : t) : t :=
  setDistance (mulq (distance (targetState c)) factor) true c.

(** [startTransition(duration)]; [now] is [Date.now()]. *)
Definition startTransition (duration : Q) (now : Z) (c : t) : t :=
  mk (state c) (targetState c) (config c) (Fin 0) true duration now
     (cameraFov c) (positionUpdates c).

(** [stopTransition] *)
Definition stopTransition (c : t) : t :=
  mk (state c) (targetState c) (config c) (Fin 0) false
     (transitionDuration c) (transitionStart c) (cameraFov c)
     (positionUpdates c).

(** [zoomIn] and [zoomOut]; [None] is a call without an amount. *)
Definition zoomIn (amount : option Q) (c : t) : t :=
  zoom (match amount with Some a => a | None => 9 # 10 end) c.

Definition zoomOut (amount : option Q) (c : t) : t :=
  zoom (match amount with Some a => a | None => 11 # 10 end) c.

(** [focusOn(position, distance, transition)]; [None] is a call without a
    distance. *)
Definition focusOn (position : Vector3.t) (d : option Q) (transition : bool)
    (now : Z) (c : t) : t :=
  let c0 := if transition then startTransition 1000 now c else c in
  let c1 := setTarget position transition c0 in
  match d with
  | Some v => setDistance (Fin v) transition c1
  | None => c1
  end.

(** [ANIMATION_CONFIG.viewTransitionDuration] *)
Definition viewTransitionDuration : Q := 1000.

Record Presets : Type := mkPresets {
  presetDistance : Q;
  presetAngle : Q;
  presetElevation : Q;
  presetFov : Q
}.

(** [getViewModePresets] *)
Definition getViewModePresets (mode : LODManager.ViewMode) : Presets :=
  match mode with
  | LODManager.city => mkPresets 140 0 (Math_PI * (35 # 100)) 45
  | LODManager.network => mkPresets 80 0 (Math_PI * (4 # 10)) 50
  | LODManager.transition => mkPresets 110 0 (Math_PI * (37 # 100)) 47
  end.

(** [setViewMode(mode, transition)] *)
Definition setViewMode (mode : LODManager.ViewMode) (transition : bool)
    (now : Z) (c : t) : t :=
  let presets := getViewModePresets mode in
  let c0 :=
    if transition then startTransition viewTransitionDuration now c else c in
  setFOV (presetFov presets) transition
    (setElevation (presetElevation presets) transition
       (setAngle (presetAngle presets) transition
          (setDistance (Fin (presetDistance presets)) transition c0))).

(** [reset(transition)] *)
Definition reset (transition : bool) (now : Z) (c : t) : t :=
  let c0 := if transition then startTransition 1000 now c else c in
  setFOV (configFov (config c0)) transition
    (setTarget Vector3.zero transition
       (setElevation (Math_PI * (35 # 100)) transition
          (setAngle 0 transition
             (setDistance (Fin (initialDistance (config c0))) transition
                          c0)))).

(** [getCurrentViewMode] *)
Definition getCurrentViewMode (c : t) : LODManager.ViewMode :=
  let d := distance (state c) in
  if gt d (Fin 150) then LODManager.city
  else if lt d (Fin 100) then LODManager.network
  else LODManager.transition.

(** [isMoving] *)
Definition isMoving (c : t) : bool :=
  let threshold := 1 # 100 in
  let s := state c in
  let tg := targetState c in
  gt (abs (sub (distance tg) (distance s))) (Fin threshold)
  || Qgtb (Qabs (angle tg - angle s)) threshold
  || Qgtb (Qabs (elevation tg - elevation s)) threshold
  || Qgtb (Qabs (Vector3.x (target tg) - Vector3.x (target s))) threshold
  || Qgtb (Qabs (Vector3.y (target tg) - Vector3.y (target s))) threshold
  || Qgtb (Qabs (Vector3.z (target tg) - Vector3.z (target s))) threshold
  || isTransitioning c.

(** The calls of the public interface that move the camera, in the order
    they are made; the clock readings are those of [Date.now()]. *)
Inductive call : Type :=
| Update (now : Z) (deltaTime : Q)
| SetDistance (d : Q) (smooth : bool)
| SetAngle (a : Q) (smooth : bool)
| SetElevation (e : Q) (smooth : bool)
| SetTarget (v : Vector3.t) (smooth : bool)
| SetFOV (f : Q) (smooth : bool)
| Orbit (deltaAngle deltaElevation : Q)
| Zoom (factor : Q)
| ZoomIn (amount : option Q)
| ZoomOut (amount : option Q)
| FocusOn (position : Vector3.t) (d : option Q) (transition : bool) (now : Z)
| SetViewMode (mode : LODManager.ViewMode) (transition : bool) (now : Z)
| Reset (transition : bool) (now : Z)
| StartTransition (duration : Q) (now : Z)
| StopTransition.

Definition perform (k : call) (c : t) : t :=
  match k with
  | Update now dt => update now dt c
  | SetDistance d smooth => setDistance (Fin d) smooth c
  | SetAngle a smooth => setAngle a smooth c
  | SetElevation e smooth => setElevation e smooth c
  | SetTarget v smooth => setTarget v smooth c
  | SetFOV f smooth => setFOV f smooth c
  | Orbit da de => orbit da de c
  | Zoom factor => zoom factor c
  | ZoomIn amount => zoomIn amount c
  | ZoomOut amount => zoomOut amount c
  | FocusOn position d transition now => focusOn position d transition now c
  | SetViewMode mode transition now => setViewMode mode transition now c
  | Reset transition now => reset transition now c
  | StartTransition duration now => startTransition duration now c
  | StopTransition => stopTransition c
  end.

Definition run (ks : list call) (c : t) : t :=
  fold_left (fun c k => perform k c) ks c.

(** A run of [update] calls, one for each clock reading and time step. *)
Definition updates (ticks : list (Z * Q)) (c : t) : t :=
  fold_left (fun c tick => update (fst tick) (snd tick) c) ticks c.

End Camera.

(** * Scenarios

    Concrete pools, particles, managers, loops and cameras that the
    properties below are run on. *)

(** A factory of numbered objects, and a validator that accepts none. *)
Definition rejectingConfig : ObjectPool.PoolConfig nat :=
  ObjectPool.mkConfig (fun k => k) (fun _ => true) (fun _ => false)
                      0 1000 true true (1 # 2).

(** A factory of numbered objects with a validator that rejects the even
    ones, three objects warm, no growth; and its pool as constructed. *)
Definition pickyConfig : ObjectPool.PoolConfig nat :=
  ObjectPool.mkConfig (fun k => k) (fun _ => true) Nat.odd
                      3 10 false false (1 # 2).

Definition pickyPool : ObjectPool.t nat :=
  ObjectPool.mkPool [2; 1; 0]%nat ∅ pickyConfig
                    (ObjectPool.mkStats 3 0 3 3 0 0 0) 0 3 [].

(** A pool that starts empty and may grow, with the validator of
    [pickyConfig]: the first object the factory makes is rejected, the
    second accepted. *)
Definition fussyConfig : ObjectPool.PoolConfig nat :=
  ObjectPool.mkConfig (fun k => k) (fun _ => true) Nat.odd
                      0 10 true false (1 # 2).

Definition fussyPool : ObjectPool.t nat :=
  ObjectPool.mkPool [] ∅ fussyConfig ObjectPool.emptyStats 0 0 [].

(** A factory that hands out one and the same object at every call. *)
Definition sharedConfig : ObjectPool.PoolConfig nat :=
  ObjectPool.mkConfig (fun _ => 0%nat) (fun _ => true) (fun _ => true)
                      0 10 true false (1 # 2).

(** [velocity.y] of a particle. *)
Definition velocityY (p : DataParticle.t) : Q :=
  Vector3.y (ParticleData.velocity (DataParticle.data p)).

(** A particle sinking at 9.95 units per second with ten seconds to live. *)
Definition sinking : DataParticle.t :=
  DataParticle.construct
    (ParticleData.mk "particle-1" "data-flow" Vector3.zero
                     (Vector3.mk 0 (- (199 # 20)) 0) 10 10 (1 # 2) 9133302
                     None).

(** The update time of a sequence of ticks. *)
Definition totalTime (dts : list Q) : Q := fold_right Qplus 0%Q dts.

(** A square root that is exact on the whole squares, and a table with one
    entry for every type. *)
Definition sqrtOfSquare (x : Q) : Q := inject_Z (Z.sqrt (Qfloor x)).
Definition plainTable (ty : string) : ParticleSystem.TypeConfig :=
  ParticleSystem.mkTypeConfig (1 # 2) (1 # 5) false.
Definition midSamples : ParticleSystem.Samples :=
  ParticleSystem.mkSamples (1 # 2) 0 "particle-1".

(** The constructor of [ParticleSystem] throws as the repository wires
    it.  A system to call the methods on is assembled here from the parts
    that constructor names: the configuration, and a pool that
    [ObjectPool]'s constructor builds from a configuration object holding
    the factory ([createParticle]; the [k]-th call allocates reference
    [k]), the reset hook ([resetParticle], which does not throw) and the
    initial size [Math.min(50, maxParticles)]; nothing is active and the
    timer is at 0. *)
Definition assembledPool (c : ParticleSystem.ParticleConfig)
  : ObjectPool.PoolConfig nat :=
  ObjectPool.mkConfig (fun k => k) (fun _ => true) (fun _ => true)
                      (Nat.min 50 (ParticleSystem.maxParticles c)) 1000
                      true true (1 # 2).

Definition assembled (c : ParticleSystem.ParticleConfig)
  : option ParticleSystem.t :=
  match ObjectPool.construct (assembledPool c) with
  | JS.Normal pool => Some (ParticleSystem.mk c pool ∅ [] 0 true ∅)
  | JS.Throw _ => None
  end.

(** A system of at most one particle and two spawns per second, one second
    of updates after it was assembled. *)
Definition singleConfig : ParticleSystem.ParticleConfig :=
  ParticleSystem.mkConfig 1 2 true false ParticleSystem.high.

Definition ready : option ParticleSystem.t :=
  match assembled singleConfig with
  | Some s => Some (ParticleSystem.update 0 1 s)
  | None => None
  end.

(** The same system 2.4 seconds after a particle was spawned on a path of
    100 units, which it travels in 2.5 seconds. *)
Definition crowded : option ParticleSystem.t :=
  match ready with
  | Some s =>
      match ParticleSystem.spawnDataFlow sqrtOfSquare plainTable 1 midSamples
              Vector3.zero (Vector3.mk 100 0 0) 0 s with
      | Some (JS.Normal _, s1) => Some (ParticleSystem.update 0 (24 # 10) s1)
      | _ => None
      end
  | None => None
  end.

(** Every object 30 units from the camera and inside the frustum. *)
Definition nearby (objectId : string) : Q * bool := (30%Q, true).

(** A manager with one district, registered and not yet updated. *)
Definition oneDistrict : LODManager.t :=
  fst (LODManager.addObject "district-1" true (Some LODManager.District)
         (LODManager.construct LODManager.defaultConfig)).

(** The same manager after its first update pass, at 100 ms. *)
Definition settled : LODManager.t :=
  fst (LODManager.update 100 1 false nearby oneDistrict).

(** Sixty frames per second, variable step, no tracking, a step of at most
    a tenth of a second. *)
Definition plainLoop : AnimationLoop.t :=
  AnimationLoop.construct
    (AnimationLoop.mkConfig 60 false false (1 # 10) false (1 # 60)).

(** A camera 140 units out with a smoothing factor of a tenth, and the same
    camera asked to turn to the angle 13. *)
Definition restingCamera : Camera.t :=
  Camera.construct (Camera.mkConfig 45 (1 # 10) 1000 (16 # 9) 140 (1 # 10)).

Definition whirled : Camera.t := Camera.setAngle 13 true restingCamera.

(** The same camera on its way down to an elevation of a fifth, from 45
    to 50 degrees. *)
Definition approaching : Camera.t :=
  Camera.setFOV 50 true (Camera.setElevation (1 # 5) true restingCamera).

(** A pool of five objects that may grow to ten. *)
Definition tenPool : ObjectPool.PoolConfig nat :=
  ObjectPool.mkConfig (fun k => k) (fun _ => true) (fun _ => true)
                      5 10 true false (1 # 2).

(** Three [release] calls of the end-to-end scenario of the pool. *)
Definition releaseThree : list (ObjectPool.call (T := nat)) :=
  [ObjectPool.Release 9%nat 0; ObjectPool.Release 8%nat 0;
   ObjectPool.Release 7%nat 0].

(** The pool of [pickyConfig] after one [acquire]: object 2 was rejected
    and disposed, object 1 is active, object 0 is available. *)
Definition pickyActive : ObjectPool.t nat :=
  match ObjectPool.acquire 4 pickyPool with
  | Some (_, p) => p
  | None => pickyPool
  end.

(** The pool of [tenPool] as constructed. *)
Definition tenPoolNew : ObjectPool.t nat :=
  ObjectPool.mkPool [4; 3; 2; 1; 0]%nat ∅ tenPool
                    (ObjectPool.mkStats 5 0 5 5 0 0 0) 0 5 [].

(** The remaining life, the position and the velocity of a particle. *)
Definition lifeOf (p : DataParticle.t) : Q :=
  ParticleData.life (DataParticle.data p).
Definition positionOf (p : DataParticle.t) : Vector3.t :=
  ParticleData.position (DataParticle.data p).
Definition velocityOf (p : DataParticle.t) : Vector3.t :=
  ParticleData.velocity (DataParticle.data p).

(** The active particles are a set, and within the cap. *)
Definition withinCap (s : ParticleSystem.t) : Prop :=
  NoDup (ParticleSystem.activeParticles s)
  /\ (length (ParticleSystem.activeParticles s)
      <= ParticleSystem.maxParticles (ParticleSystem.config s))%nat.

(** A particle gliding from (1, 2, 3) with five seconds to live. *)
Definition gliding : DataParticle.t :=
  DataParticle.construct
    (ParticleData.mk "particle-2" "data-flow" (Vector3.mk 1 2 3)
                     (Vector3.mk 3 0 (-4)) 5 5 (1 # 2) 9133302 None).

(** Calls on the system of one particle: a second of updates, two spawn
    requests, a tick. *)
Definition busyCalls : list ParticleSystem.call :=
  [ParticleSystem.Update 0 1;
   ParticleSystem.SpawnDataFlow midSamples Vector3.zero (Vector3.mk 100 0 0) 0;
   ParticleSystem.SpawnParticle midSamples Vector3.zero (Vector3.mk 0 0 50)
                                "energy" 65416;
   ParticleSystem.Update 0 (1 # 10)].

(** The rank of a tier, from the most detailed on; "too far" counts as
    culled. *)
Definition tierRank (l : option LODManager.LODLevel) : nat :=
  match l with
  | Some LODManager.high => 0
  | Some LODManager.medium => 1
  | Some LODManager.low => 2
  | Some LODManager.culled | None => 3
  end.

(** The factor a view mode applies to the thresholds. *)
Definition viewFactor (v : LODManager.ViewMode) : Q :=
  match v with
  | LODManager.city => 12 # 10
  | LODManager.network => 6 # 10
  | LODManager.transition => 1
  end.

(** Whether the frustum test lets an object through. *)
Definition inFrustum (cfg : LODManager.LODConfig) (camera intersects : bool)
  : bool :=
  if camera && LODManager.enableFrustumCulling cfg then intersects else true.

(** The counters of a pass over at most [n] objects: every visible object
    is counted in one tier, and visible and culled objects together are at
    most [n]. *)
Definition tallied (s : LODManager.Stats) (n : Z) : Prop :=
  (LODManager.highCount s + LODManager.mediumCount s + LODManager.lowCount s
   = LODManager.visibleCount s
   /\ 0 <= LODManager.visibleCount s
   /\ 0 <= LODManager.culledObjects s
   /\ LODManager.visibleCount s + LODManager.culledObjects s <= n)%Z.

(** A district as [addObject] registers it. *)
Definition freshDistrict : LODManager.LODObject :=
  LODManager.mkObject "district-1" true (Some LODManager.District)
                      JS.PInf LODManager.high true true.

(** A district registered while its scene object was hidden. *)
Definition hiddenDistrict : LODManager.LODObject :=
  LODManager.mkObject "district-2" false (Some LODManager.District)
                      JS.PInf LODManager.high true true.

(** The steps that the update hooks of a trace were called with. *)
Definition updateSteps (out : list AnimationLoop.effect) : list Q :=
  flat_map (fun e => match e with
                     | AnimationLoop.Update dt _ => [dt]
                     | _ => []
                     end) out.

(** A loop is paused only while it runs, and keeps at most sixty samples
    in each of its two histories. *)
Definition wellFormed (s : AnimationLoop.t) : Prop :=
  (AnimationLoop.isPaused s = true -> AnimationLoop.isRunning s = true)
  /\ length (AnimationLoop.fpsHistory s)
     = length (AnimationLoop.frameTimeHistory s)
  /\ (length (AnimationLoop.frameTimeHistory s) <= 60)%nat.

(** A loop with a fixed step of a sixtieth of a second that tracks its
    performance, started at 0 ms. *)
Definition steppedLoop : AnimationLoop.t :=
  fst (AnimationLoop.start 0
         (AnimationLoop.construct
            (AnimationLoop.mkConfig 60 true true (1 # 10) true (1 # 60)))).

(** The target elevation and the target field of view are within the
    bounds that [setElevation] and [setFOV] clamp to. *)
Definition clampedTargets (c : Camera.t) : Prop :=
  (Camera.minElevation <= Camera.elevation (Camera.targetState c)
   <= Camera.maxElevation)%Q
  /\ (10 <= Camera.fov (Camera.targetState c) <= 120)%Q.

(** How far the distance is from its target; 0 where the difference is not
    a finite number. *)
Definition distanceGap (c : Camera.t) : Q :=
  match JS.sub (Camera.distance (Camera.targetState c))
               (Camera.distance (Camera.state c)) with
  | JS.Fin q => q
  | _ => 0%Q
  end.

(** A busy minute of a camera: a zoom far out, a jump to the network view,
    an orbit, ticks, a reset. *)
Definition busyCamera : list Camera.call :=
  [Camera.Zoom 100; Camera.Update 0 (1 # 60);
   Camera.SetViewMode LODManager.network false 16;
   Camera.Orbit 7 (-5); Camera.SetFOV 500 true; Camera.Update 16 (1 # 60);
   Camera.FocusOn (Vector3.mk 10 0 10) (Some 5%Q) true 32;
   Camera.Update 32 (1 # 60); Camera.Reset true 48; Camera.Update 48 (1 # 60)].

(** The factor left of a gap after [n] smoothing steps with the factor
    [k]. *)
Fixpoint decay (k : Q) (n : nat) : Q :=
  match n with
  | O => 1
  | S m => (1 - k) * decay k m
  end.

(** A camera with a smoothing factor of a half whose target distance is
    one unit further out than its distance. *)
Definition nudged : Camera.t :=
  let c := Camera.construct
             (Camera.mkConfig 45 (1 # 10) 1000 (16 # 9) 140 (1 # 2)) in
  Camera.with_targetState
    (Camera.set_distance (JS.Fin 141) (Camera.targetState c)) c.

(** A camera with a smoothing factor of 1, constructed and then asked for
    the lowest elevation, in binary64 arithmetic. *)
Definition lowered64 : Camera.t :=
  Camera.setElevationWith JS.round64 0 true
    (Camera.constructWith JS.round64
       (Camera.mkConfig 45 (1 # 10) 1000 (16 # 9) 140 1)).

(** How far one smoothing step can leave the range [[lo, hi]] of its
    current and target value, for a rounding whose error on [x] is at most
    [u * |x| + eta]: nothing for exact arithmetic. *)
Definition slack (u eta lo hi : Q) : Q :=
  let e := ((hi - lo) * (2 * u + u * u) + eta * (2 + u))%Q in
  (e * (1 + u) + u * hi + eta)%Q.

Ltac camera_fields :=
  cbn [Camera.state Camera.targetState Camera.config Camera.distance
       Camera.angle Camera.elevation Camera.target Camera.fov
       Camera.isTransitioning Camera.transitionDuration
       Camera.transitionStart Camera.transitionProgress
       Camera.with_state Camera.with_targetState Camera.with_cameraFov
       Camera.updatePosition Camera.set_distance Camera.set_angle
       Camera.set_elevation Camera.set_target Camera.set_fov
       Camera.startTransition Camera.stopTransition] in *.

(** * Properties *)

(** ** The scenarios of the specification, run on the model *)

(** Thresholds [50, 100, 200]: 30 is [high], 75 [medium], 150 [low], 250
    too far. *)
Example tiers_by_distance :
  map (LODManager.tierOf (50, 100, 200)%Q) [30; 75; 150; 250]%Q
  = [Some LODManager.high; Some LODManager.medium; Some LODManager.low; None].
Proof. reflexivity. Qed.

(** Ten objects can be acquired, five of them constructed on demand; the
    eleventh call fails and leaves the pool as it was; after three are
    released, two calls reuse them and construct nothing. *)
Example pool_end_to_end :
  exists p0 p10 p13 p15,
    ObjectPool.construct tenPool = JS.Normal p0
    /\ ObjectPool.run 1 (replicate 10 ObjectPool.Acquire) p0 = Some p10
    /\ ObjectPool.getActiveCount p10 = 10%nat
    /\ ObjectPool.created (ObjectPool.stats p10) = 10%Z
    /\ ObjectPool.acquire 1 p10
       = Some (JS.Throw "Pool exhausted and cannot grow", p10)
    /\ ObjectPool.run 1 releaseThree p10 = Some p13
    /\ ObjectPool.getAvailableCount p13 = 3%nat
    /\ ObjectPool.run 1 [ObjectPool.Acquire; ObjectPool.Acquire] p13 = Some p15
    /\ ObjectPool.created (ObjectPool.stats p15) = 10%Z
    /\ ObjectPool.reused (ObjectPool.stats p15) = 7%Z
    /\ ObjectPool.getActiveCount p15 = 9%nat.
Proof.
  eexists _, _, _, _.
  split; [vm_compute; reflexivity|].
  split; [vm_compute; reflexivity|].
  split; [vm_compute; reflexivity|].
  split; [vm_compute; reflexivity|].
  split; [vm_compute; reflexivity|].
  split; [vm_compute; reflexivity|].
  split; [vm_compute; reflexivity|].
  split; [vm_compute; reflexivity|].
  split; [vm_compute; reflexivity|].
  split; vm_compute; reflexivity.
Qed.

(** A raw frame delta of five seconds reaches the hooks as the maximal step
    of a tenth of a second. *)
Example delta_clamped :
  exists s dt et,
    AnimationLoop.run 0 [AnimationLoop.Start 0; AnimationLoop.Frame 0 5000]
                      plainLoop
    = Some (s, [AnimationLoop.RequestFrame; AnimationLoop.Emit "animation:start";
                AnimationLoop.PreUpdate dt et; AnimationLoop.Update dt et;
                AnimationLoop.Render; AnimationLoop.PostRender dt et;
                AnimationLoop.RequestFrame])
    /\ (dt == 1 # 10)%Q.
Proof.
  eexists _, _, _. split; vm_compute; reflexivity.
Qed.

(** The clamp of [setDistance] reads two names that are not defined: the
    target distance it stores is [NaN], whatever was asked for. *)
Example target_distance_clamped :
  map (fun d => Camera.distance
                  (Camera.targetState
                     (Camera.setDistance (JS.Fin d) true restingCamera)))
      [5; 80; 1000]%Q
  = [JS.NaN; JS.NaN; JS.NaN].
Proof. reflexivity. Qed.

(** ** Comparisons of rationals *)

Lemma Qltb_lt (x y : Q) : JS.Qltb x y = true <-> (x < y)%Q.
Proof.
  unfold JS.Qltb. rewrite negb_true_iff.
  destruct (Qle_bool y x) eqn:E.
  - apply Qle_bool_iff in E. split; [discriminate | intros L; lra].
  - split; [intros _ | reflexivity].
    apply Qnot_le_lt. intros L. apply Qle_bool_iff in L. congruence.
Qed.

Lemma Qltb_ge (x y : Q) : JS.Qltb x y = false <-> (y <= x)%Q.
Proof.
  destruct (JS.Qltb x y) eqn:E.
  - apply Qltb_lt in E. split; [discriminate | intros L; lra].
  - split; [intros _ | reflexivity].
    apply Qnot_lt_le. intros L. apply Qltb_lt in L. congruence.
Qed.

Lemma Qleb_le (x y : Q) : JS.Qleb x y = true <-> (x <= y)%Q.
Proof. apply Qle_bool_iff. Qed.

Lemma Qleb_gt (x y : Q) : JS.Qleb x y = false <-> (y < x)%Q.
Proof.
  unfold JS.Qleb. destruct (Qle_bool x y) eqn:E.
  - apply Qle_bool_iff in E. split; [discriminate | intros L; lra].
  - split; [intros _ | reflexivity].
    apply Qnot_le_lt. intros L. apply Qle_bool_iff in L. congruence.
Qed.

(** ** The object pool *)

Section PoolFacts.
Context {T : Type} `{Countable T}.
Implicit Types (p : ObjectPool.t T) (obj : T).

Import ObjectPool.

Lemma getUtilization_cases p :
  getUtilization p =
  JS.Fin (match getTotalSize p with
          | O => 0
          | S _ => inject_Z (Z.of_nat (size (active p)))
                   / inject_Z (Z.of_nat (getTotalSize p))
          end)%Q.
Proof.
  unfold getUtilization. destruct (getTotalSize p) as [|n] eqn:E; [reflexivity|].
  cbn [Nat.ltb Nat.leb]. unfold JS.div.
  destruct (Qeq_bool (inject_Z (Z.of_nat (S n))) 0) eqn:Z0; [|reflexivity].
  apply Qeq_bool_iff in Z0. unfold Qeq in Z0. simpl in Z0. lia.
Qed.

Lemma inject_div (a : Z) (n : nat) :
  (inject_Z a / inject_Z (Z.of_nat (S n)) == a # Pos.of_succ_nat n)%Q.
Proof.
  rewrite Qmake_Qdiv. rewrite Zpos_P_of_succ_nat, <- Nat2Z.inj_succ. reflexivity.
Qed.

(** C10.  [getUtilization] always yields a finite number, never the [NaN]
    or infinity of a division by zero: 0 when [available.length +
    active.size] is 0, and otherwise [active.size] divided by that sum, a
    value between 0 and 1. *)
Theorem getUtilization_guarded p :
  exists q : Q,
    getUtilization p = JS.Fin q
    /\ ((length (available p) + size (active p) = 0)%nat -> q == 0)%Q
    /\ ((0 < length (available p) + size (active p))%nat ->
        q == inject_Z (Z.of_nat (size (active p)))
             / inject_Z (Z.of_nat (length (available p) + size (active p))))%Q
    /\ (0 <= q <= 1)%Q.
Proof.
  eexists. split; [apply getUtilization_cases|].
  unfold getTotalSize.
  destruct (length (available p) + size (active p))%nat as [|n] eqn:E.
  - split; [reflexivity|]. split; [lia | lra].
  - split; [discriminate|]. split; [reflexivity|].
    rewrite inject_div. unfold Qle. simpl. lia.
Qed.

(** *** Termination of [acquire] *)

Lemma returned_after_reject p obj p3 r p' :
  config p3 = config p ->
  validateFn (config p) obj = false ->
  disposeLog p3 = obj :: disposeLog p ->
  disposed (stats p3) = (disposed (stats p) + 1)%Z ->
  returned p3 r p' -> returned p r p'.
Proof.
  intros Hc Ev Hl Hd (Hc' & Hr & rej & Hlog & Hrej & Hn).
  rewrite Hc in *. split; [exact Hc'|]. split; [exact Hr|].
  exists (rej ++ [obj]). split.
  { rewrite Hlog, Hl, <- app_assoc. reflexivity. }
  split.
  { apply Forall_app. split; [exact Hrej|]. constructor; [exact Ev | constructor]. }
  rewrite Hn, Hd, length_app. cbn [length]. lia.
Qed.

Lemma returned_now p r p' :
  config p' = config p ->
  disposeLog p' = disposeLog p ->
  disposed (stats p') = disposed (stats p) ->
  (r = JS.Throw "Pool exhausted and cannot grow"
   \/ exists obj, r = JS.Normal obj
        /\ validateFn (config p) obj = true /\ obj ∈ active p') ->
  returned p r p'.
Proof.
  intros Hc Hl Hd Hr. split; [exact Hc|]. split; [exact Hr|].
  exists []. split; [exact Hl|]. split; [constructor|]. rewrite Hd. cbn. lia.
Qed.

(** With nothing available, the retries end at the first object of the
    factory that the validator accepts. *)
Lemma acquire_grows_within (k : nat) : forall p,
  available p = [] ->
  retryEnds k p ->
  exists r p', acquire (S k) p = Some (r, p') /\ returned p r p'.
Proof.
  induction k as [|k IH]; intros p Ha Hend.
  - cbn [acquire]. rewrite Ha.
    destruct (autoGrow (config p)
              && (getTotalSize p <? maxSize (config p))%nat) eqn:Eg.
    + apply andb_true_iff in Eg as [Eg El]. apply Nat.ltb_lt in El.
      unfold getTotalSize in El. rewrite Ha in El. cbn [length Nat.add] in El.
      destruct Hend as [Hoff | [Hfull | [(obj & Hin & _) | Hok]]].
      * rewrite Hoff in Eg. discriminate.
      * lia.
      * rewrite Ha in Hin. apply not_elem_of_nil in Hin. destruct Hin.
      * rewrite Nat.add_0_r in Hok. cbn. rewrite Hok. cbn.
        eexists _, _. split; [reflexivity|].
        apply returned_now; try reflexivity.
        right. eexists. split; [reflexivity|]. split; [exact Hok|].
        cbn. apply elem_of_union. left. apply elem_of_singleton. reflexivity.
    + eexists _, _. split; [reflexivity|].
      apply returned_now; try reflexivity. left. reflexivity.
  - remember (S k) as m eqn:Em. cbn [acquire]. rewrite Ha.
    destruct (autoGrow (config p)
              && (getTotalSize p <? maxSize (config p))%nat) eqn:Eg.
    + cbn [callCreate with_stats config].
      destruct (validateFn (config p) (createFn (config p) (createCalls p)))
        eqn:Ev; cbn [negb].
      * eexists _, _. split; [reflexivity|].
        apply returned_now; try reflexivity.
        right. eexists. split; [reflexivity|]. split; [exact Ev|].
        cbn. apply elem_of_union. left. apply elem_of_singleton. reflexivity.
      * subst m. set (p3 := with_stats (onDisposed _) _).
        destruct (IH p3) as (r & p' & Hacq & Hret).
        { exact Ha. }
        { destruct Hend as [Hoff | [Hfull | [(obj & Hin & Hv) | Hok]]].
          - left. exact Hoff.
          - right. left. exact Hfull.
          - right. right. left. exists obj. split; assumption.
          - right. right. right. cbn [p3 with_stats callDispose config createCalls].
            replace (S (createCalls p) + k)%nat with (createCalls p + S k)%nat
              by lia. exact Hok. }
        exists r, p'. split; [exact Hacq|].
        apply (returned_after_reject p (createFn (config p) (createCalls p)) p3);
          try reflexivity; assumption.
    + eexists _, _. split; [reflexivity|].
      apply returned_now; try reflexivity. left. reflexivity.
Qed.

(** A rejected object leaves [available] shorter by one. *)
Lemma acquire_ends_within (k n : nat) : forall p,
  length (available p) = n ->
  retryEnds k p ->
  exists r p', acquire (S (n + k)) p = Some (r, p') /\ returned p r p'.
Proof.
  induction n as [|n IH]; intros p Hlen Hend.
  - destruct (available p) as [|obj rest] eqn:Ea; [|discriminate].
    apply acquire_grows_within; assumption.
  - destruct (available p) as [|obj rest] eqn:Ea; [discriminate|].
    injection Hlen as Hlen.
    remember (S (n + k)) as m eqn:Em. cbn [Nat.add acquire]. rewrite Ea.
    cbn [with_stats with_available config available stats].
    destruct (validateFn (config p) obj) eqn:Ev; cbn [negb].
    + eexists _, _. split; [reflexivity|].
      apply returned_now; try reflexivity.
      right. eexists. split; [reflexivity|]. split; [exact Ev|].
      cbn. apply elem_of_union. left. apply elem_of_singleton. reflexivity.
    + subst m. set (p3 := with_stats (onDisposed _) _).
      destruct (IH p3) as (r & p' & Hacq & Hret).
      { exact Hlen. }
      { destruct Hend as [Hoff | [Hfull | [(o & Hin & Hv) | Hok]]].
        - left. exact Hoff.
        - right. left. exact Hfull.
        - right. right. left. exists o. split; [|exact Hv].
          rewrite Ea in Hin. apply elem_of_cons in Hin as [->|Hin];
            [congruence | exact Hin].
        - right. right. right. exact Hok. }
      exists r, p'. split; [exact Hacq|].
      apply (returned_after_reject p obj p3); try reflexivity; assumption.
Qed.

(** When nothing ends the retries, none of them is the last. *)
Lemma acquire_retries_for_ever (fuel : nat) : forall p,
  (forall k, ~ retryEnds k p) -> acquire fuel p = None.
Proof.
  induction fuel as [|fuel IH]; intros p Hno; [reflexivity|].
  assert (Hg : autoGrow (config p) = true).
  { destruct (autoGrow (config p)) eqn:E; [reflexivity|].
    destruct (Hno 0%nat). left. exact E. }
  assert (Hroom : (size (active p) < maxSize (config p))%nat).
  { apply Nat.nle_gt. intros Hle. destruct (Hno 0%nat). right. left. exact Hle. }
  cbn [acquire]. destruct (available p) as [|obj rest] eqn:Ea.
  - rewrite Hg. unfold getTotalSize. rewrite Ea. cbn [length Nat.add andb].
    apply Nat.ltb_lt in Hroom as Hlt. rewrite Hlt.
    cbn [callCreate with_stats config].
    destruct (validateFn (config p) (createFn (config p) (createCalls p)))
      eqn:Ev.
    { destruct (Hno 0%nat). right. right. right.
      rewrite Nat.add_0_r. exact Ev. }
    cbn [negb]. apply IH. intros k [Hoff | [Hfull | [(o & Hin & Hv) | Hok]]].
    + apply (Hno 0%nat). left. exact Hoff.
    + apply (Hno 0%nat). right. left. exact Hfull.
    + cbn in Hin. rewrite Ea in Hin. apply not_elem_of_nil in Hin. exact Hin.
    + apply (Hno (S k)). right. right. right. cbn in Hok.
      replace (createCalls p + S k)%nat with (S (createCalls p) + k)%nat by lia.
      exact Hok.
  - cbn [with_stats with_available config available stats].
    destruct (validateFn (config p) obj) eqn:Ev.
    { destruct (Hno 0%nat). right. right. left. exists obj.
      split; [rewrite Ea; apply elem_of_cons; left; reflexivity | exact Ev]. }
    cbn [negb]. apply IH. intros k [Hoff | [Hfull | [(o & Hin & Hv) | Hok]]].
    + apply (Hno 0%nat). left. exact Hoff.
    + apply (Hno 0%nat). right. left. exact Hfull.
    + apply (Hno 0%nat). right. right. left. exists o. split; [|exact Hv].
      rewrite Ea. apply elem_of_cons. right. exact Hin.
    + apply (Hno k). right. right. right. exact Hok.
Qed.

(** A validator that rejects what the factory makes keeps a growing pool
    with nothing available in the retry chain for ever. *)
Lemma acquire_never_returns (fuel : nat) : forall p,
  available p = [] ->
  autoGrow (config p) = true ->
  (size (active p) < maxSize (config p))%nat ->
  (forall obj, validateFn (config p) obj = false) ->
  acquire fuel p = None.
Proof.
  induction fuel as [|fuel IH]; intros p Ha Hg Hsz Hrej; [reflexivity|].
  cbn [acquire]. rewrite Ha, Hg. unfold getTotalSize. rewrite Ha.
  cbn [length Nat.add andb].
  apply Nat.ltb_lt in Hsz. rewrite Hsz. cbn. rewrite Hrej. cbn.
  apply IH; cbn; auto. apply Nat.ltb_lt. exact Hsz.
Qed.

(** *** Conservation *)

Lemma size_add_fresh (X : gset T) obj :
  obj ∉ X -> size ({[obj]} ∪ X) = S (size X).
Proof.
  intros Hn. rewrite size_union by (apply disjoint_singleton_l; exact Hn). rewrite size_singleton.
  reflexivity.
Qed.

Lemma size_remove_member (X : gset T) obj :
  obj ∈ X -> S (size (X ∖ {[obj]})) = size X.
Proof.
  intros Hin. rewrite <- (size_add_fresh (X ∖ {[obj]}) obj) by (apply not_elem_of_difference; right;
      apply elem_of_singleton; reflexivity).
  f_equal. apply set_eq. intros x. rewrite elem_of_union, elem_of_difference,
    elem_of_singleton. destruct (decide (x = obj)); subst; tauto.
Qed.

Lemma consistent_callCreate_available p :
  Inj (=) (=) (createFn (config p)) ->
  consistent p ->
  let '(obj, p1) := callCreate p in
  consistent (with_stats (addAvailable 1 (onCreated (stats p1)))
                (with_available (obj :: available p1) p1)).
Proof.
  intros Hinj [Hnd Hdis Hfac Hcons]. cbn.
  assert (Hfresh : forall x, x ∈ available p \/ x ∈ active p ->
                     x <> createFn (config p) (createCalls p)).
  { intros x Hx E. destruct (Hfac x Hx) as (k & Hk & Ek).
    rewrite Ek in E. apply Hinj in E. lia. }
  constructor; cbn.
  - constructor; [|exact Hnd]. intros Hin. eapply Hfresh; eauto.
  - intros x Hx Hact. apply elem_of_cons in Hx as [->|Hx].
    + eapply Hfresh; eauto.
    + eapply Hdis; eauto.
  - intros x [Hx|Hx].
    + apply elem_of_cons in Hx as [->|Hx].
      * exists (createCalls p). split; [lia | reflexivity].
      * destruct (Hfac x (or_introl Hx)) as (k & Hk & Ek).
        exists k. split; [lia | exact Ek].
    + destruct (Hfac x (or_intror Hx)) as (k & Hk & Ek).
      exists k. split; [lia | exact Ek].
  - unfold conserved, getTotalSize in *. cbn. lia.
Qed.

Lemma createObject_config p : config (snd (createObject p)) = config p.
Proof.
  unfold createObject. destruct (_ <=? _)%nat; reflexivity.
Qed.

Lemma consistent_createObject p :
  Inj (=) (=) (createFn (config p)) ->
  consistent p -> consistent (snd (createObject p)).
Proof.
  intros Hinj Hc. unfold createObject.
  destruct (_ <=? _)%nat; [exact Hc|].
  apply (consistent_callCreate_available p Hinj Hc).
Qed.

Lemma consistent_initialize (n : nat) : forall p,
  Inj (=) (=) (createFn (config p)) ->
  consistent p ->
  consistent (snd (initialize n p))
  /\ config (snd (initialize n p)) = config p.
Proof.
  induction n as [|n IH]; intros p Hinj Hc; [split; [exact Hc | reflexivity]|].
  cbn [initialize].
  pose proof (consistent_createObject p Hinj Hc) as Hc1.
  pose proof (createObject_config p) as Hcfg.
  destruct (createObject p) as [[obj|e] p1]; cbn [snd] in *.
  - destruct (IH p1) as [Hc2 Hcfg2]; [rewrite Hcfg; exact Hinj | exact Hc1 |].
    split; [exact Hc2 | congruence].
  - split; [exact Hc1 | exact Hcfg].
Qed.

Lemma consistent_construct (cfg : PoolConfig T) p :
  Inj (=) (=) (createFn cfg) ->
  construct cfg = JS.Normal p -> consistent p /\ config p = cfg.
Proof.
  intros Hinj. unfold construct.
  set (p0 := mkPool [] ∅ cfg emptyStats 0 0 []).
  assert (Hc0 : consistent p0).
  { constructor; cbn.
    - constructor.
    - intros x Hx. apply elem_of_nil in Hx. contradiction.
    - intros x [Hx|Hx]; [apply elem_of_nil in Hx | apply elem_of_empty in Hx];
        contradiction.
    - unfold conserved, getTotalSize. cbn. rewrite size_empty. reflexivity. }
  destruct (consistent_initialize (initialSize cfg) p0 Hinj Hc0) as [Hc Hcfg].
  destruct (initialize (initialSize cfg) p0) as [[u|e] p1]; [|discriminate].
  intros [= <-]. split; [exact Hc | exact Hcfg].
Qed.

Lemma consistent_acquire (fuel : nat) : forall p r p',
  Inj (=) (=) (createFn (config p)) ->
  consistent p ->
  acquire fuel p = Some (r, p') ->
  consistent p' /\ config p' = config p.
Proof.
  induction fuel as [|fuel IH]; intros p r p' Hinj Hc Hacq; [discriminate|].
  cbn [acquire] in Hacq.
  destruct Hc as [Hnd Hdis Hfac Hcons].
  unfold conserved, getTotalSize in Hcons.
  destruct (available p) as [|obj rest] eqn:Ea.
  - destruct (autoGrow (config p)
              && (getTotalSize p <? maxSize (config p))%nat) eqn:Eg.
    + cbn in Hacq.
      assert (Hfresh : createFn (config p) (createCalls p) ∉ active p).
      { intros Hin. destruct (Hfac _ (or_intror Hin)) as (k & Hk & Ek).
        apply Hinj in Ek. lia. }
      destruct (validateFn (config p) (createFn (config p) (createCalls p)));
        cbn in Hacq.
      * injection Hacq as <- <-. split; [|reflexivity].
        constructor; unfold conserved, getTotalSize; cbn; rewrite ?Ea.
        -- constructor.
        -- intros x Hx. apply elem_of_nil in Hx. contradiction.
        -- intros x [Hx|Hx].
           ++ apply elem_of_nil in Hx. contradiction.
           ++ apply elem_of_union in Hx as [Hx|Hx].
              ** apply elem_of_singleton in Hx as ->.
                 exists (createCalls p). split; [lia | reflexivity].
              ** destruct (Hfac x (or_intror Hx)) as (k & Hk & Ek).
                 exists k. split; [lia | exact Ek].
        -- rewrite size_add_fresh by exact Hfresh. cbn in *. lia.
      * apply IH in Hacq; [exact Hacq | exact Hinj |].
        constructor; unfold conserved, getTotalSize; cbn; rewrite ?Ea.
        -- exact Hnd.
        -- exact Hdis.
        -- intros x Hx. destruct (Hfac x Hx) as (k & Hk & Ek).
           exists k. split; [lia | exact Ek].
        -- cbn in *. lia.
    + injection Hacq as <- <-. split; [|reflexivity].
      constructor; unfold conserved, getTotalSize; rewrite ?Ea; assumption.
  - cbn [with_stats with_available config available stats] in Hacq.
    apply NoDup_cons in Hnd as [Hnotin Hnd].
    assert (Hobj : obj ∉ active p).
    { apply Hdis. apply elem_of_cons. left. reflexivity. }
    destruct (validateFn (config p) obj); cbn [negb] in Hacq.
    + injection Hacq as <- <-. split; [|reflexivity].
      constructor; unfold conserved, getTotalSize; cbn; rewrite ?Ea.
      * exact Hnd.
      * intros x Hx Hact. apply elem_of_union in Hact as [Hact|Hact].
        -- apply elem_of_singleton in Hact as ->. contradiction.
        -- eapply Hdis; [|exact Hact]. apply elem_of_cons.
           right. exact Hx.
      * intros x [Hx|Hx].
        -- apply Hfac. left. apply elem_of_cons. right. exact Hx.
        -- apply elem_of_union in Hx as [Hx|Hx].
           ++ apply elem_of_singleton in Hx as ->. apply Hfac. left.
              apply elem_of_cons. left. reflexivity.
           ++ apply Hfac. right. exact Hx.
      * rewrite size_add_fresh by exact Hobj. cbn in *. lia.
    + apply IH in Hacq; [exact Hacq | exact Hinj |].
      constructor; unfold conserved, getTotalSize; cbn; rewrite ?Ea.
      * exact Hnd.
      * intros x Hx. apply Hdis. apply elem_of_cons. right.
        exact Hx.
      * intros x [Hx|Hx]; apply Hfac; [left | right; exact Hx].
        apply elem_of_cons. right. exact Hx.
      * cbn in *. lia.
Qed.

Lemma consistent_shrinkOne p :
  consistent p -> consistent (shrinkOne p) /\ config (shrinkOne p) = config p.
Proof.
  intros [Hnd Hdis Hfac Hcons]. unfold shrinkOne.
  unfold conserved, getTotalSize in Hcons.
  destruct (available p) as [|obj rest] eqn:Ea.
  - split; [|reflexivity].
    constructor; unfold conserved, getTotalSize; rewrite ?Ea; assumption.
  - split; [|reflexivity].
    apply NoDup_cons in Hnd as [Hnotin Hnd].
    constructor; unfold conserved, getTotalSize; cbn.
    + exact Hnd.
    + intros x Hx. apply Hdis. apply elem_of_cons. right. exact Hx.
    + intros x [Hx|Hx]; apply Hfac; [left | right; exact Hx].
      apply elem_of_cons. right. exact Hx.
    + cbn in Hcons. lia.
Qed.

Lemma consistent_iter_shrinkOne (n : nat) p :
  consistent p ->
  consistent (Nat.iter n shrinkOne p)
  /\ config (Nat.iter n shrinkOne p) = config p.
Proof.
  intros Hc. induction n as [|n [IH1 IH2]]; [split; [exact Hc | reflexivity]|].
  change (Nat.iter (S n) shrinkOne p)
    with (shrinkOne (Nat.iter n shrinkOne p)).
  destruct (consistent_shrinkOne _ IH1) as [H1 H2].
  split; [exact H1 | rewrite H2; exact IH2].
Qed.

Lemma consistent_checkShrink (now : Z) p :
  consistent p ->
  consistent (checkShrink now p) /\ config (checkShrink now p) = config p.
Proof.
  intros Hc. unfold checkShrink.
  destruct (_ <? _)%Z; [split; [exact Hc | reflexivity]|].
  assert (Hc1 : consistent (with_lastShrinkCheck now p)).
  { destruct Hc as [Hnd Hdis Hfac Hcons]. constructor; assumption. }
  destruct (_ && _).
  - apply (consistent_iter_shrinkOne _ _ Hc1).
  - split; [exact Hc1 | reflexivity].
Qed.

Lemma consistent_release (now : Z) obj p :
  consistent p ->
  consistent (release now obj p) /\ config (release now obj p) = config p.
Proof.
  intros Hc. unfold release.
  destruct (decide (obj ∈ active p)) as [Hin|Hout];
    [|split; [exact Hc | reflexivity]].
  destruct Hc as [Hnd Hdis Hfac Hcons].
  unfold conserved, getTotalSize in Hcons.
  pose proof (size_remove_member _ _ Hin) as Hsz.
  cbn [with_stats with_active with_available config available stats active].
  destruct (resetFn (config p) obj).
  - assert (Hc2 : consistent
        (with_stats (addAvailable 1 (addActive (-1) (stats p)))
           (with_available (obj :: available p)
              (with_stats (addActive (-1) (stats p))
                 (with_active (active p ∖ {[obj]}) p))))).
    { constructor; unfold conserved, getTotalSize; cbn.
      - constructor; [|exact Hnd]. intros Hav. exact (Hdis _ Hav Hin).
      - intros x Hx Hact. apply elem_of_difference in Hact as [Hact Hne].
        apply elem_of_cons in Hx as [->|Hx].
        + apply Hne. apply elem_of_singleton. reflexivity.
        + exact (Hdis _ Hx Hact).
      - intros x [Hx|Hx].
        + apply elem_of_cons in Hx as [->|Hx]; apply Hfac;
            [right; exact Hin | left; exact Hx].
        + apply elem_of_difference in Hx as [Hx _]. apply Hfac. right.
          exact Hx.
      - lia. }
    destruct (autoShrink (config p)).
    + apply (consistent_checkShrink now _ Hc2).
    + split; [exact Hc2 | reflexivity].
  - split; [|reflexivity].
    constructor; unfold conserved, getTotalSize; cbn.
    + exact Hnd.
    + intros x Hx Hact. apply elem_of_difference in Hact as [Hact _].
      exact (Hdis _ Hx Hact).
    + intros x [Hx|Hx]; apply Hfac; [left; exact Hx | right].
      apply elem_of_difference in Hx as [Hx _]. exact Hx.
    + lia.
Qed.

Lemma consistent_run (fuel : nat) (cs : list call) : forall p p',
  Inj (=) (=) (createFn (config p)) ->
  consistent p ->
  run fuel cs p = Some p' ->
  consistent p'.
Proof.
  induction cs as [|c cs IH]; intros p p' Hinj Hc Hrun; cbn [run] in Hrun.
  - injection Hrun as <-. exact Hc.
  - destruct c as [|obj now].
    + destruct (acquire fuel p) as [[r p1]|] eqn:Ea; [|discriminate].
      destruct (consistent_acquire fuel p r p1 Hinj Hc Ea) as [Hc1 Hcfg].
      apply (IH p1 p'); [rewrite Hcfg; exact Hinj | exact Hc1 | exact Hrun].
    + destruct (consistent_release now obj p Hc) as [Hc1 Hcfg].
      apply (IH (release now obj p) p');
        [rewrite Hcfg; exact Hinj | exact Hc1 | exact Hrun].
Qed.

End PoolFacts.

Example pickyPool_constructed :
  ObjectPool.construct pickyConfig = JS.Normal pickyPool.
Proof. reflexivity. Qed.

Example pickyPool_acquire :
  option_map fst (ObjectPool.acquire 4 pickyPool) = Some (JS.Normal 1%nat).
Proof. reflexivity. Qed.

(** C1, as stated, fails: a pool that may grow, with nothing available and
    a validator that rejects every instance, constructs and disposes
    instances for ever; no number of calls brings [acquire] to return. *)
Lemma acquire_retry_unbounded :
  exists p0 : ObjectPool.t nat,
    ObjectPool.construct rejectingConfig = JS.Normal p0
    /\ forall fuel, ObjectPool.acquire fuel p0 = None.
Proof.
  eexists. split; [reflexivity|].
  intros fuel. apply acquire_never_returns; cbn; auto.
  rewrite size_empty. lia.
Qed.

(** C1, amended.  [acquire] returns exactly when something ends its
    retries: [autoGrow] is off, or the active objects fill [maxSize], or an
    available instance is accepted, or the validator accepts the instance
    of the [k]-th call of the factory from now on.  It then returns within
    [available.length + k + 1] calls of itself, with an instance the
    validator accepts, now active, or with the exhaustion failure, and
    every instance rejected on the way was disposed and counted.  When
    nothing ends the retries, no number of calls brings it to return. *)
Theorem acquire_terminates {T : Type} `{Countable T} (p : ObjectPool.t T) :
  (forall k, ObjectPool.retryEnds k p ->
     exists r p',
       ObjectPool.acquire (S (length (ObjectPool.available p) + k)) p
       = Some (r, p')
       /\ (r = JS.Throw "Pool exhausted and cannot grow"
           \/ exists obj, r = JS.Normal obj
                /\ ObjectPool.validateFn (ObjectPool.config p) obj = true
                /\ obj ∈ ObjectPool.active p')
       /\ exists rejected,
            ObjectPool.disposeLog p' = rejected ++ ObjectPool.disposeLog p
            /\ Forall (fun obj =>
                         ObjectPool.validateFn (ObjectPool.config p) obj = false)
                      rejected
            /\ ObjectPool.disposed (ObjectPool.stats p')
               = (ObjectPool.disposed (ObjectPool.stats p)
                  + Z.of_nat (length rejected))%Z)
  /\ ((forall k, ~ ObjectPool.retryEnds k p) ->
      forall fuel, ObjectPool.acquire fuel p = None).
Proof.
  split.
  - intros k Hend.
    destruct (acquire_ends_within k (length (ObjectPool.available p)) p
                eq_refl Hend) as (r & p' & Hacq & _ & Hr & Hrej).
    exists r, p'. split; [exact Hacq|]. split; [exact Hr | exact Hrej].
  - intros Hno fuel. apply acquire_retries_for_ever, Hno.
Qed.


(** C2, as stated, fails: with a factory that hands out one object twice
    the set of active objects holds it once, and the counters say that two
    objects were made and none disposed. *)
Lemma shared_instance_breaks_conservation :
  exists p p' : ObjectPool.t nat,
    ObjectPool.construct sharedConfig = JS.Normal p
    /\ ObjectPool.run 1 [ObjectPool.Acquire; ObjectPool.Acquire] p = Some p'
    /\ (length (ObjectPool.available p') + size (ObjectPool.active p') = 1)%nat
    /\ (length (ObjectPool.available p') + size (ObjectPool.active p')
        <= ObjectPool.maxSize sharedConfig)%nat
    /\ (ObjectPool.created (ObjectPool.stats p')
        - ObjectPool.disposed (ObjectPool.stats p') = 2)%Z.
Proof.
  eexists _, _. split; [reflexivity|]. split; [vm_compute; reflexivity|].
  repeat split; vm_compute; try reflexivity. lia.
Qed.

(** C2, amended.  With a factory that returns a new object at each call:
    from the constructor on, after every sequence of [acquire] and
    [release] calls, [available.length + active.size] equals
    [stats.created - stats.disposed]. *)
Theorem pool_conservation {T : Type} `{Countable T}
    (cfg : ObjectPool.PoolConfig T) (p p' : ObjectPool.t T)
    (fuel : nat) (calls : list ObjectPool.call) :
  Inj (=) (=) (ObjectPool.createFn cfg) ->
  ObjectPool.construct cfg = JS.Normal p ->
  ObjectPool.run fuel calls p = Some p' ->
  Z.of_nat (length (ObjectPool.available p') + size (ObjectPool.active p'))
  = (ObjectPool.created (ObjectPool.stats p')
     - ObjectPool.disposed (ObjectPool.stats p'))%Z.
Proof.
  intros Hinj Hnew Hrun.
  destruct (consistent_construct cfg p Hinj Hnew) as [Hc Hcfg].
  rewrite <- Hcfg in Hinj.
  apply (ObjectPool.size_conserved _ (consistent_run fuel calls p p' Hinj Hc Hrun)).
Qed.

Lemma acquire_terminates_witness :
  ObjectPool.retryEnds 1 fussyPool
  /\ exists r p',
       ObjectPool.acquire 2 fussyPool = Some (r, p')
       /\ (r = JS.Throw "Pool exhausted and cannot grow"
           \/ exists obj, r = JS.Normal obj
                /\ Nat.odd obj = true
                /\ obj ∈ ObjectPool.active p')
       /\ exists rejected,
            ObjectPool.disposeLog p' = rejected ++ []
            /\ Forall (fun obj => Nat.odd obj = false) rejected
            /\ ObjectPool.disposed (ObjectPool.stats p')
               = (0 + Z.of_nat (length rejected))%Z.
Proof.
  assert (Hend : ObjectPool.retryEnds 1 fussyPool).
  { right. right. right. reflexivity. }
  split; [exact Hend|].
  apply (proj1 (acquire_terminates fussyPool) 1%nat Hend).
Defined.

Example fussyPool_acquire :
  ObjectPool.construct fussyConfig = JS.Normal fussyPool
  /\ option_map fst (ObjectPool.acquire 2 fussyPool) = Some (JS.Normal 1%nat)
  /\ ObjectPool.acquire 1 fussyPool = None.
Proof. repeat split. Qed.

Lemma pool_conservation_witness :
  exists p',
    ObjectPool.run 4 [ObjectPool.Acquire; ObjectPool.Acquire;
                      ObjectPool.Release 1%nat 6000; ObjectPool.Release 7%nat 6000;
                      ObjectPool.Acquire] pickyPool = Some p'
    /\ Z.of_nat (length (ObjectPool.available p') + size (ObjectPool.active p'))
       = (ObjectPool.created (ObjectPool.stats p')
          - ObjectPool.disposed (ObjectPool.stats p'))%Z.
Proof.
  eexists. split; [vm_compute; reflexivity|].
  apply (pool_conservation pickyConfig pickyPool _ 4
           [ObjectPool.Acquire; ObjectPool.Acquire;
            ObjectPool.Release 1%nat 6000; ObjectPool.Release 7%nat 6000;
            ObjectPool.Acquire]).
  - intros a b E. exact E.
  - reflexivity.
  - vm_compute. reflexivity.
Defined.

(** ** Particles *)

Lemma update_velocityY (dt : Q) (p : DataParticle.t) :
  velocityY (snd (DataParticle.update dt p)) =
  if JS.Qleb (ParticleData.life (DataParticle.data p) - dt) 0
  then velocityY p
  else if JS.Qgtb (velocityY p) (-10)
       then (velocityY p - (98 # 10) * dt * (1 # 10))%Q
       else velocityY p.
Proof.
  unfold DataParticle.update, velocityY.
  destruct (JS.Qleb _ 0); [reflexivity|].
  cbn. destruct (JS.Qgtb _ _); reflexivity.
Qed.

(** One step: gravity takes at most 0.98 dt off a velocity above -10 and
    nothing off one at or below it. *)
Lemma update_velocityY_bounds (dt : Q) (p : DataParticle.t) :
  (0 <= dt)%Q ->
  (Qmin (velocityY p) (-10) - (98 # 100) * dt
   <= velocityY (snd (DataParticle.update dt p)) <= velocityY p)%Q.
Proof.
  intros Hdt. rewrite update_velocityY.
  pose proof (Q.le_min_l (velocityY p) (-10)) as Hl.
  pose proof (Q.le_min_r (velocityY p) (-10)) as Hr.
  destruct (JS.Qleb _ 0); [lra|].
  destruct (JS.Qgtb (velocityY p) (-10)) eqn:Eg; [|lra].
  apply Qltb_lt in Eg. lra.
Qed.

Lemma updates_velocityY_bounds (D lower : Q) (dts : list Q) :
  Forall (fun dt => 0 <= dt <= D)%Q dts ->
  forall p,
    (lower <= -10 - (98 # 100) * D)%Q ->
    (lower <= velocityY p)%Q ->
    (lower <= velocityY (DataParticle.updates dts p) <= velocityY p)%Q.
Proof.
  induction 1 as [|dt dts [Hdt HD] _ IH]; intros p Hlow Hp; cbn [DataParticle.updates].
  - lra.
  - pose proof (update_velocityY_bounds dt p Hdt) as [H1 H2].
    assert (Hstep : (lower <= velocityY (snd (DataParticle.update dt p)))%Q).
    { rewrite update_velocityY in *.
      destruct (JS.Qleb _ 0); [lra|].
      destruct (JS.Qgtb (velocityY p) (-10)) eqn:Eg; [|lra].
      apply Qltb_lt in Eg. lra. }
    destruct (DataParticle.update dt p) as [[|] p1]; cbn [snd] in *.
    + destruct (IH p1 Hlow Hstep). lra.
    + lra.
Qed.

(** C3, as stated, fails: a particle at -9.95, above -10, is taken to
    -10.048 by one update of a tenth of a second, and stays alive. *)
Lemma gravity_passes_terminal_velocity :
  (-10 <= velocityY sinking)%Q
  /\ fst (DataParticle.update (1 # 10) sinking) = true
  /\ (velocityY (snd (DataParticle.update (1 # 10) sinking)) < -10)%Q.
Proof.
  split; [|split].
  - vm_compute. discriminate.
  - reflexivity.
  - vm_compute. reflexivity.
Qed.

(** C3, amended.  Over every sequence of [update(dt)] calls with each [dt]
    between 0 and [D], [velocity.y] never rises and never drops below
    [min(v0, -10) - 0.98 D], where [v0] is its value at the start: gravity
    is applied only while [velocity.y > -10], and one application takes
    [0.98 dt] off.  The [enablePhysics] setting is not consulted. *)
Theorem gravity_overshoot_bounded (D : Q) (dts : list Q) (p : DataParticle.t) :
  (0 <= D)%Q ->
  Forall (fun dt => 0 <= dt <= D)%Q dts ->
  (Qmin (velocityY p) (-10) - (98 # 100) * D
   <= velocityY (DataParticle.updates dts p) <= velocityY p)%Q.
Proof.
  intros HD Hdts.
  pose proof (Q.le_min_l (velocityY p) (-10)) as Hl.
  pose proof (Q.le_min_r (velocityY p) (-10)) as Hr.
  apply (updates_velocityY_bounds D); [exact Hdts | lra | lra].
Qed.

Lemma gravity_overshoot_bounded_witness :
  (Qmin (velocityY sinking) (-10) - (98 # 100) * (1 # 10)
   <= velocityY (DataParticle.updates [1 # 10; 1 # 10; 1 # 20] sinking)
   <= velocityY sinking)%Q.
Proof.
  apply (gravity_overshoot_bounded (1 # 10) [1 # 10; 1 # 10; 1 # 20] sinking).
  - vm_compute. discriminate.
  - repeat constructor; vm_compute; discriminate.
Defined.

(** *** The spawn interval *)

Lemma removeParticle_fields (now : Z) (r : nat) (s : ParticleSystem.t) :
  ParticleSystem.config (ParticleSystem.removeParticle now r s)
  = ParticleSystem.config s
  /\ ParticleSystem.spawnTimer (ParticleSystem.removeParticle now r s)
     = ParticleSystem.spawnTimer s
  /\ ParticleSystem.enabled (ParticleSystem.removeParticle now r s)
     = ParticleSystem.enabled s.
Proof. repeat split. Qed.

Lemma removeParticles_fields (now : Z) (rs : list nat) :
  forall s : ParticleSystem.t,
    let s' := foldl (fun acc r => ParticleSystem.removeParticle now r acc) s rs in
    ParticleSystem.config s' = ParticleSystem.config s
    /\ ParticleSystem.spawnTimer s' = ParticleSystem.spawnTimer s
    /\ ParticleSystem.enabled s' = ParticleSystem.enabled s.
Proof.
  induction rs as [|r rs IH]; intros s; cbn [foldl]; [repeat split|].
  destruct (IH (ParticleSystem.removeParticle now r s)) as (H1 & H2 & H3).
  cbn zeta in *. rewrite H1, H2, H3. repeat split.
Qed.

Lemma update_fields (now : Z) (dt : Q) (s : ParticleSystem.t) :
  ParticleSystem.config (ParticleSystem.update now dt s)
  = ParticleSystem.config s
  /\ ParticleSystem.enabled (ParticleSystem.update now dt s)
     = ParticleSystem.enabled s
  /\ ParticleSystem.spawnTimer (ParticleSystem.update now dt s)
     = if ParticleSystem.enabled s
       then (ParticleSystem.spawnTimer s + dt)%Q
       else ParticleSystem.spawnTimer s.
Proof.
  unfold ParticleSystem.update.
  destruct (ParticleSystem.enabled s) eqn:En; cbn [negb]; [|rewrite En; repeat split].
  destruct (ParticleSystem.updateParticles _ _ _) as [objs dead].
  match goal with
  | |- context [foldl ?f ?s2 dead] =>
      destruct (removeParticles_fields now dead s2) as (H1 & H2 & H3)
  end.
  cbn zeta in *. rewrite H1, H2, H3. cbn. rewrite En. repeat split.
Qed.


Lemma spawnParticle_config (sqrt : Q -> Q)
    (table : string -> ParticleSystem.TypeConfig) (fuel : nat)
    (r : ParticleSystem.Samples) (from to : Vector3.t) (ty : string)
    (color : Z) (s s1 : ParticleSystem.t) (res : JS.completion (option nat)) :
  ParticleSystem.spawnParticle sqrt table fuel r from to ty color s
  = Some (res, s1) ->
  ParticleSystem.config s1 = ParticleSystem.config s
  /\ ParticleSystem.enabled s1 = ParticleSystem.enabled s.
Proof.
  unfold ParticleSystem.spawnParticle.
  destruct (_ <=? _)%nat; [intros [= <- <-]; split; reflexivity|].
  destruct (ObjectPool.acquire _ _) as [[[obj|e] pool]|]; [| |discriminate].
  - intros [= <- <-]. split; reflexivity.
  - intros [= <- <-]. split; reflexivity.
Qed.





(** ** The LOD manager *)

Lemma markAllForUpdate_flags (m : LODManager.t) :
  Forall (fun e => LODManager.forceUpdate (snd e) = true)
         (LODManager.lodObjects (LODManager.markAllForUpdate m)).
Proof.
  unfold LODManager.markAllForUpdate. cbn.
  induction (LODManager.lodObjects m) as [|e l IH]; cbn; constructor.
  - reflexivity.
  - exact IH.
Qed.

(** A forced object is re-evaluated whatever its distance: the pass stores
    the measured distance and clears the flag. *)
Lemma forced_object_reevaluated (cfg : LODManager.LODConfig) (camera : bool)
    (distance : Q) (intersects : bool) (o : LODManager.LODObject)
    (p : LODManager.Pass) :
  LODManager.forceUpdate o = true ->
  let o' := fst (LODManager.updateLODObject cfg camera distance intersects o p) in
  LODManager.lastDistance o' = JS.Fin distance
  /\ LODManager.forceUpdate o' = false.
Proof.
  intros Hf. unfold LODManager.updateLODObject. rewrite Hf. cbn [negb andb].
  destruct (negb (if camera && LODManager.enableFrustumCulling cfg
                  then intersects else true)).
  - unfold LODManager.setObjectVisibility. cbn.
    destruct (Bool.eqb _ false); cbn; split; reflexivity.
  - destruct (LODManager.tierOf _ _) as [lvl|].
    + unfold LODManager.setObjectVisibility. cbn.
      destruct (Bool.eqb _ true); cbn.
      * rewrite orb_false_r. destruct (negb _); cbn; split; reflexivity.
      * rewrite orb_false_r. destruct (negb _); cbn; split; reflexivity.
    + unfold LODManager.setObjectVisibility. cbn.
      destruct (Bool.eqb _ false); cbn; split; reflexivity.
Qed.

(** C5, as stated, fails for [setUpdateFrequency]: an object whose flag the
    last pass cleared keeps it cleared when the frequency changes. *)
Lemma setUpdateFrequency_leaves_flags :
  exists o,
    LODManager.lookupObject "district-1"
      (LODManager.setUpdateFrequency 15 settled) = Some o
    /\ LODManager.forceUpdate o = false
    /\ LODManager.updateFrequency
         (LODManager.config (LODManager.setUpdateFrequency 15 settled))
       = 15%Q
    /\ LODManager.updateFrequency (LODManager.config settled) = 30%Q.
Proof.
  eexists. split; [vm_compute; reflexivity|].
  repeat split.
Qed.

Lemma updateLODObject_object (cfg : LODManager.LODConfig) (camera : bool)
    (distance : Q) (intersects : bool) (o : LODManager.LODObject)
    (p : LODManager.Pass) :
  LODManager.object
    (fst (LODManager.updateLODObject cfg camera distance intersects o p))
  = LODManager.object o.
Proof.
  unfold LODManager.updateLODObject.
  destruct (negb (LODManager.forceUpdate o) && _); [reflexivity|].
  destruct (negb (if camera && LODManager.enableFrustumCulling cfg
                  then intersects else true)).
  - unfold LODManager.setObjectVisibility. cbn.
    destruct (Bool.eqb _ false); reflexivity.
  - destruct (LODManager.tierOf _ _) as [lvl|].
    + unfold LODManager.setObjectVisibility. cbn.
      destruct (Bool.eqb _ true); cbn;
        rewrite orb_false_r; destruct (negb _); reflexivity.
    + unfold LODManager.setObjectVisibility. cbn.
      destruct (Bool.eqb _ false); reflexivity.
Qed.

(** A pass over objects that were all marked measures each of them
    anew. *)
Lemma updateObjects_marked (cfg : LODManager.LODConfig) (camera : bool)
    (probe : string -> Q * bool) (l : list (string * LODManager.LODObject)) :
  forall p,
  Forall2 (fun e e' =>
             fst e' = fst e
             /\ LODManager.object (snd e') = LODManager.object (snd e)
             /\ LODManager.lastDistance (snd e')
                = JS.Fin (fst (probe (LODManager.object (snd e))))
             /\ LODManager.forceUpdate (snd e') = false)
          l
          (fst (LODManager.updateObjects cfg camera probe
                  (map (fun e => (fst e, LODManager.set_forceUpdate true (snd e)))
                       l) p)).
Proof.
  induction l as [|[k o] rest IH]; intros p;
    cbn [map LODManager.updateObjects fst snd].
  - constructor.
  - change (LODManager.object (LODManager.set_forceUpdate true o))
      with (LODManager.object o).
    destruct (probe (LODManager.object o)) as [distance intersects] eqn:Ep.
    pose proof (forced_object_reevaluated cfg camera distance intersects
                  (LODManager.set_forceUpdate true o) p eq_refl) as [Hd Hc].
    pose proof (updateLODObject_object cfg camera distance intersects
                  (LODManager.set_forceUpdate true o) p) as Ho.
    destruct (LODManager.updateLODObject cfg camera distance intersects
                (LODManager.set_forceUpdate true o) p) as [o' p1].
    specialize (IH p1).
    destruct (LODManager.updateObjects cfg camera probe _ p1) as [rest' p2].
    cbn [fst snd] in *. constructor; [|exact IH].
    cbn [fst snd]. rewrite Ep. cbn [fst]. repeat split; assumption.
Qed.

(** C5, amended.  [setDistances] stores the thresholds and sets
    [forceUpdate] on every tracked object, changing nothing else; the next
    pass that runs then measures every tracked object anew, whatever its
    distance, and clears the flag.  [setUpdateFrequency] only clamps the
    frequency to [5, 60] and recomputes the interval from it: the tracked
    objects, their [forceUpdate] flags included, and all the rest of the
    manager are as before. *)
Theorem threshold_change_forces_update (m : LODManager.t)
    (d : LODManager.Distances) (frequency now duration : Q) (camera : bool)
    (probe : string -> Q * bool) :
  let marked := LODManager.setDistances d m in
  let f := Qmax 5 (Qmin 60 frequency) in
  (marked
   = LODManager.mk (LODManager.set_distances d (LODManager.config m))
       (map (fun e => (fst e, LODManager.set_forceUpdate true (snd e)))
            (LODManager.lodObjects m))
       (LODManager.visibleObjects m) (LODManager.lastUpdateTime m)
       (LODManager.updateInterval m) (LODManager.stats m)
   /\ Forall (fun e => LODManager.forceUpdate (snd e) = true)
             (LODManager.lodObjects marked))
  /\ (JS.lt (JS.Fin (now - LODManager.lastUpdateTime m))
            (LODManager.updateInterval m) = false ->
      Forall2 (fun e e' =>
                 fst e' = fst e
                 /\ LODManager.object (snd e') = LODManager.object (snd e)
                 /\ LODManager.lastDistance (snd e')
                    = JS.Fin (fst (probe (LODManager.object (snd e))))
                 /\ LODManager.forceUpdate (snd e') = false)
              (LODManager.lodObjects m)
              (LODManager.lodObjects
                 (fst (LODManager.update now duration camera probe marked))))
  /\ LODManager.setUpdateFrequency frequency m
     = LODManager.mk (LODManager.set_frequency f (LODManager.config m))
         (LODManager.lodObjects m) (LODManager.visibleObjects m)
         (LODManager.lastUpdateTime m) (JS.Fin (1000 / f))
         (LODManager.stats m)
  /\ (5 <= f <= 60)%Q.
Proof.
  cbn zeta. split; [split; [reflexivity | apply markAllForUpdate_flags]|].
  split.
  - intros Hrun. unfold LODManager.update.
    change (LODManager.lastUpdateTime (LODManager.setDistances d m))
      with (LODManager.lastUpdateTime m).
    change (LODManager.updateInterval (LODManager.setDistances d m))
      with (LODManager.updateInterval m).
    rewrite Hrun.
    change (LODManager.lodObjects (LODManager.setDistances d m))
      with (map (fun e => (fst e, LODManager.set_forceUpdate true (snd e)))
                (LODManager.lodObjects m)).
    match goal with
    | |- context [LODManager.updateObjects ?cfg ?cam ?pr _ ?p] =>
        pose proof (updateObjects_marked cfg cam pr (LODManager.lodObjects m) p)
          as Hall;
        destruct (LODManager.updateObjects cfg cam pr _ p) as [objs p']
    end.
    exact Hall.
  - split.
    + unfold LODManager.setUpdateFrequency, LODManager.with_interval,
        LODManager.with_config. cbn. f_equal.
      unfold JS.div.
      destruct (Qeq_bool (Qmax 5 (Qmin 60 frequency)) 0) eqn:E; [|reflexivity].
      apply Qeq_bool_iff in E. pose proof (Q.le_max_l 5 (Qmin 60 frequency)). lra.
    + split; [apply Q.le_max_l|].
      apply Q.max_lub; [discriminate | apply Q.le_min_l].
Qed.

Lemma threshold_change_forces_update_witness :
  Forall2 (fun e e' =>
             fst e' = fst e
             /\ LODManager.object (snd e') = LODManager.object (snd e)
             /\ LODManager.lastDistance (snd e')
                = JS.Fin (fst (nearby (LODManager.object (snd e))))
             /\ LODManager.forceUpdate (snd e') = false)
          (LODManager.lodObjects settled)
          (LODManager.lodObjects
             (fst (LODManager.update 200 1 true nearby
                     (LODManager.setDistances (10, 20, 40)%Q settled)))).
Proof.
  apply (proj1 (proj2 (threshold_change_forces_update settled (10, 20, 40)%Q
                         15 200 1 true nearby))).
  vm_compute. reflexivity.
Defined.

(** C6 on the code.  A district registered with the manager carries
    [forceUpdate = true] and the tier [high]; the first update pass finds
    it 30 units away, inside the [high] threshold of 50, re-evaluates it,
    and calls no [setLOD]: the pass cleared the flag before it tested it. *)
Theorem forced_update_skips_hook :
  LODManager.lookupObject "district-1" oneDistrict
  = Some (LODManager.mkObject "district-1" true (Some LODManager.District)
                              JS.PInf LODManager.high true true)
  /\ LODManager.update 100 1 false nearby oneDistrict
     = (settled, [LODManager.Emit "lod:stats-update" EmptyString])
  /\ LODManager.lookupObject "district-1" settled
     = Some (LODManager.mkObject "district-1" true (Some LODManager.District)
                                 (JS.Fin 30) LODManager.high true false).
Proof.
  repeat split.
Qed.

(** The flag is never set where [updateLODObject] tests it: whenever the
    tier found equals the last one, nothing is applied. *)
Lemma same_tier_applies_nothing (cfg : LODManager.LODConfig)
    (distance : Q) (o : LODManager.LODObject) (p : LODManager.Pass) :
  LODManager.forceUpdate o = true ->
  LODManager.tierOf (LODManager.distances cfg) distance
  = Some (LODManager.lastLODLevel o) ->
  LODManager.passEffects
    (snd (LODManager.updateLODObject cfg false distance true o p))
  = LODManager.passEffects p.
Proof.
  intros Hf Ht. unfold LODManager.updateLODObject. rewrite Hf, Ht.
  cbn [negb andb]. unfold LODManager.setObjectVisibility. cbn.
  destruct (Bool.eqb _ true); cbn.
  - destruct (LODManager.lastLODLevel o); reflexivity.
  - destruct (LODManager.lastLODLevel o); reflexivity.
Qed.

(** A changed tier is applied: the component's [setLOD] is called with the
    distance and the thresholds. *)
Lemma changed_tier_calls_hook (cfg : LODManager.LODConfig)
    (distance : Q) (o : LODManager.LODObject) (p : LODManager.Pass)
    (c : LODManager.Component) (level : LODManager.LODLevel) :
  LODManager.forceUpdate o = true ->
  LODManager.component o = Some c ->
  LODManager.tierOf (LODManager.distances cfg) distance = Some level ->
  level <> LODManager.lastLODLevel o ->
  LODManager.SetLOD (LODManager.object o) c distance (LODManager.distances cfg)
  ∈ LODManager.passEffects
      (snd (LODManager.updateLODObject cfg false distance true o p)).
Proof.
  intros Hf Hc Ht Hne. unfold LODManager.updateLODObject. rewrite Hf, Ht.
  cbn [negb andb]. unfold LODManager.setObjectVisibility. cbn.
  assert (Hl : LODManager.level_eqb level (LODManager.lastLODLevel o) = false).
  { destruct level, (LODManager.lastLODLevel o); try reflexivity;
      exfalso; apply Hne; reflexivity. }
  destruct (Bool.eqb _ true); cbn; rewrite Hl; cbn;
    unfold LODManager.applyLODLevel; cbn; rewrite Hc; cbn;
    apply elem_of_app; right; apply elem_of_cons; left; reflexivity.
Qed.

(** ** The animation loop *)

(** A frame of a paused loop calls no hook, and adds the clamped time since
    the frame before to [elapsedTime]. *)
Lemma paused_frame_counts_time (fuel : nat) (now : Z) (currentTime : Q)
    (s : AnimationLoop.t) :
  AnimationLoop.isRunning s = true ->
  AnimationLoop.isPaused s = true ->
  AnimationLoop.enablePerformanceTracking (AnimationLoop.config s) = false ->
  exists s',
    AnimationLoop.loop fuel now currentTime s
    = Some (s', [AnimationLoop.RequestFrame])
    /\ AnimationLoop.elapsedTime s'
       = (AnimationLoop.elapsedTime s
          + Qmin ((currentTime - AnimationLoop.lastTime s) / 1000)
                 (AnimationLoop.maxDeltaTime (AnimationLoop.config s)))%Q
    /\ AnimationLoop.lastTime s' = currentTime.
Proof.
  intros Hr Hp Ht. unfold AnimationLoop.loop. rewrite Hr. cbn [negb].
  cbn. rewrite Ht. cbn. rewrite Hp.
  eexists. split; [reflexivity|]. split; reflexivity.
Qed.

Lemma drain_deltaTime (fuel : nat) : forall s s' out,
  AnimationLoop.drain fuel s = Some (s', out) ->
  AnimationLoop.deltaTime s' = AnimationLoop.deltaTime s
  /\ AnimationLoop.elapsedTime s' = AnimationLoop.elapsedTime s.
Proof.
  induction fuel as [|fuel IH]; intros s s' out; cbn [AnimationLoop.drain];
    destruct (JS.Qgeb _ _); try discriminate;
    try (intros [= <- <-]; split; reflexivity).
  destruct (AnimationLoop.drain fuel _) as [[s3 o3]|] eqn:E3; [|discriminate].
  intros [= <- <-]. apply IH in E3. exact E3.
Qed.

(** The first frame after [resume] measures its step from the moment of the
    [resume] call, whatever the time of the frame before. *)
Lemma first_delta_after_resume (fuel : nat) (now : Z) (resumed currentTime : Q)
    (s s' : AnimationLoop.t) (out : list AnimationLoop.effect) :
  AnimationLoop.isRunning s = true ->
  AnimationLoop.isPaused s = true ->
  AnimationLoop.loop fuel now currentTime
    (fst (AnimationLoop.resume resumed s)) = Some (s', out) ->
  AnimationLoop.deltaTime s'
  = Qmin ((currentTime - resumed) / 1000)
         (AnimationLoop.maxDeltaTime (AnimationLoop.config s)).
Proof.
  intros Hr Hp. unfold AnimationLoop.resume. rewrite Hr, Hp. cbn [negb orb fst].
  unfold AnimationLoop.loop. cbn.
  destruct (AnimationLoop.enablePerformanceTracking (AnimationLoop.config s));
    cbn;
    (destruct (AnimationLoop.enableFixedTimeStep (AnimationLoop.config s));
     cbn; [|intros [= <- <-]; reflexivity]);
    unfold AnimationLoop.fixedTimeStepUpdate; cbn;
    match goal with
    | |- context [AnimationLoop.drain fuel ?s0] =>
        destruct (AnimationLoop.drain fuel s0) as [[s2 o]|] eqn:Ed;
        [|discriminate];
        apply drain_deltaTime in Ed as [Ed _]; intros [= <- <-]; cbn; exact Ed
    end.
Qed.

(** C7 on the code.  A loop starts at 0 ms, runs one frame at 16 ms and is
    paused; the host calls it at 1016 ms and at 2016 ms; it is resumed at
    2020 ms and runs a frame at 2036 ms.  The two frames of the pause call
    no hook, and each adds the maximal step of 0.1 s to [elapsedTime], which
    goes from 0.016 to 0.216 over the pause; the frame after the resume
    gets a step of 0.016 s and an elapsed time of 0.232 s. *)
Theorem pause_counts_as_elapsed_time :
  exists s1 out1 s2 s3 dt et,
    AnimationLoop.run 0 [AnimationLoop.Start 0; AnimationLoop.Frame 0 16;
                         AnimationLoop.Pause] plainLoop = Some (s1, out1)
    /\ (AnimationLoop.elapsedTime s1 == 16 # 1000)%Q
    /\ AnimationLoop.run 0 [AnimationLoop.Frame 0 1016;
                            AnimationLoop.Frame 0 2016] s1
       = Some (s2, [AnimationLoop.RequestFrame; AnimationLoop.RequestFrame])
    /\ (AnimationLoop.elapsedTime s2 == 216 # 1000)%Q
    /\ AnimationLoop.run 0 [AnimationLoop.Resume 2020;
                            AnimationLoop.Frame 0 2036] s2
       = Some (s3, [AnimationLoop.Emit "animation:resume";
                    AnimationLoop.PreUpdate dt et; AnimationLoop.Update dt et;
                    AnimationLoop.Render; AnimationLoop.PostRender dt et;
                    AnimationLoop.RequestFrame])
    /\ (dt == 16 # 1000)%Q
    /\ (et == 232 # 1000)%Q.
Proof.
  eexists _, _, _, _, _, _.
  split; [vm_compute; reflexivity|].
  split; [vm_compute; reflexivity|].
  split; [vm_compute; reflexivity|].
  split; [vm_compute; reflexivity|].
  split; [vm_compute; reflexivity|].
  split; vm_compute; reflexivity.
Qed.

(** ** The camera *)

Lemma Math_PI_bounds : (3 < JS.Math_PI < 4)%Q.
Proof. split; reflexivity. Qed.

(** What [update] leaves alone, and the state it leaves, field by field. *)
Lemma updateWith_effect (rnd : Q -> Q) (now : Z) (dt : Q) (c : Camera.t) :
  let s := Camera.state c in
  let tg := Camera.targetState c in
  let k := Camera.smoothing (Camera.config c) in
  let c' := Camera.updateWith rnd now dt c in
  Camera.targetState c' = tg
  /\ Camera.config c' = Camera.config c
  /\ Camera.isTransitioning c'
     = Camera.isTransitioning
         (snd (if Camera.isTransitioning c
               then Camera.updateTransition now c else (false, c)))
  /\ Camera.state c'
     = Camera.mkState
         (Camera.smoothedNumber rnd (rnd (1 # 100)) (Camera.distance s)
                                (Camera.distance tg) k)
         (let w := Camera.wrapAngleWith rnd
                     (rnd (Camera.angle tg - Camera.angle s)) in
          if JS.Qgtb (Qabs w) (rnd (1 # 1000))
          then rnd (Camera.angle s + rnd (w * k)) else Camera.angle s)%Q
         (Camera.smoothed rnd (rnd (1 # 1000)) (Camera.elevation s)
                          (Camera.elevation tg) k)
         (let tx := rnd (Vector3.x (Camera.target tg)
                         - Vector3.x (Camera.target s)) in
          let ty := rnd (Vector3.y (Camera.target tg)
                         - Vector3.y (Camera.target s)) in
          let tz := rnd (Vector3.z (Camera.target tg)
                         - Vector3.z (Camera.target s)) in
          if JS.Qgtb (Qabs tx) (rnd (1 # 100))
             || JS.Qgtb (Qabs ty) (rnd (1 # 100))
             || JS.Qgtb (Qabs tz) (rnd (1 # 100))
          then Vector3.mk
                 (rnd (Vector3.x (Camera.target s) + rnd (tx * k)))
                 (rnd (Vector3.y (Camera.target s) + rnd (ty * k)))
                 (rnd (Vector3.z (Camera.target s) + rnd (tz * k)))
          else Camera.target s)%Q
         (Camera.smoothed rnd (rnd (1 # 10)) (Camera.fov s)
                          (Camera.fov tg) k).
Proof.
  cbn zeta. unfold Camera.updateWith.
  assert (Ht : forall c0 b,
             (if Camera.isTransitioning c
              then Camera.updateTransition now c else (false, c)) = (b, c0) ->
             Camera.state c0 = Camera.state c
             /\ Camera.targetState c0 = Camera.targetState c
             /\ Camera.config c0 = Camera.config c).
  { intros c0 b. destruct (Camera.isTransitioning c).
    - unfold Camera.updateTransition.
      destruct (match Camera.min1 _ with JS.Fin q => _ | _ => false end);
        intros [= <- <-]; repeat split.
    - intros [= <- <-]. repeat split. }
  destruct (if Camera.isTransitioning c
            then Camera.updateTransition now c else (false, c)) as [b c0].
  destruct (Ht c0 b eq_refl) as (Hs & Htg & Hcfg).
  rewrite <- Hs, <- Htg, <- Hcfg. cbn [snd].
  destruct (Camera.moves rnd (rnd (1 # 10)) _ _);
    destruct (_ || _ || _ || _ || _ || _); cbn; repeat split.
Qed.

(** The same in the exact arithmetic of [update], for the angle. *)
Lemma update_angle (now : Z) (dt : Q) (c : Camera.t) :
  Camera.angle (Camera.state (Camera.update now dt c))
  = (if JS.Qgtb (Qabs (Camera.angleDiffOf c)) (1 # 1000)
     then Camera.angle (Camera.state c)
          + Camera.angleDiffOf c * Camera.smoothing (Camera.config c)
     else Camera.angle (Camera.state c))%Q.
Proof.
  unfold Camera.update.
  destruct (updateWith_effect JS.unrounded now dt c) as (_ & _ & _ & Hs).
  cbn zeta in Hs. rewrite Hs. reflexivity.
Qed.

(** A step towards the target stays between the two. *)
Lemma smooth_step_between (lo hi s tg k : Q) :
  (lo <= s <= hi)%Q -> (lo <= tg <= hi)%Q -> (0 <= k <= 1)%Q ->
  (lo <= s + (tg - s) * k <= hi)%Q.
Proof.
  intros [Hs1 Hs2] [Ht1 Ht2] [Hk1 Hk2].
  assert (H1 : (0 <= (tg - lo) * k)%Q) by (apply Qmult_le_0_compat; lra).
  assert (H2 : (0 <= (s - lo) * (1 - k))%Q) by (apply Qmult_le_0_compat; lra).
  assert (H3 : (0 <= (hi - tg) * k)%Q) by (apply Qmult_le_0_compat; lra).
  assert (H4 : (0 <= (hi - s) * (1 - k))%Q) by (apply Qmult_le_0_compat; lra).
  split.
  - assert (E : (s + (tg - s) * k
                 == lo + ((tg - lo) * k + (s - lo) * (1 - k)))%Q) by ring.
    rewrite E. lra.
  - assert (E : (s + (tg - s) * k
                 == hi - ((hi - tg) * k + (hi - s) * (1 - k)))%Q) by ring.
    rewrite E. lra.
Qed.

(** The two wrapping steps bring a difference of at most three half turns
    into one turn around zero, moving it by a whole turn at most. *)
Lemma wrapAngle_range (d : Q) :
  (- (JS.Math_PI * 3) <= d <= JS.Math_PI * 3)%Q ->
  (- JS.Math_PI <= Camera.wrapAngle d <= JS.Math_PI)%Q
  /\ (Camera.wrapAngle d == d
      \/ Camera.wrapAngle d == d - JS.Math_PI * 2
      \/ Camera.wrapAngle d == d + JS.Math_PI * 2)%Q.
Proof.
  intros [Hlo Hhi]. pose proof Math_PI_bounds as [Hpi _].
  unfold Camera.wrapAngle, Camera.wrapAngleWith, JS.unrounded.
  destruct (JS.Qgtb d JS.Math_PI) eqn:E1.
  - apply Qltb_lt in E1.
    destruct (JS.Qltb (d - JS.Math_PI * 2) (- JS.Math_PI)) eqn:E2.
    + apply Qltb_lt in E2. lra.
    + apply Qltb_ge in E2. split; [lra|]. right. left. reflexivity.
  - apply Qltb_ge in E1.
    destruct (JS.Qltb d (- JS.Math_PI)) eqn:E2.
    + apply Qltb_lt in E2. split; [lra|]. right. right. reflexivity.
    + apply Qltb_ge in E2. split; [lra|]. left. reflexivity.
Qed.

(** C8, as stated, fails: for a camera at angle 0 asked to turn to 13 the
    difference used is [13 - 2 pi], more than [pi], and the step of the
    update is a tenth of it. *)
Lemma angle_difference_beyond_half_turn :
  (Camera.angle (Camera.targetState whirled)
   - Camera.angle (Camera.state whirled) == 13)%Q
  /\ (JS.Math_PI < Camera.angleDiffOf whirled)%Q
  /\ (Camera.angle (Camera.state (Camera.update 0 (1 # 60) whirled))
      == (13 - JS.Math_PI * 2) * (1 # 10))%Q.
Proof.
  split; [|split]; vm_compute; reflexivity.
Qed.

(** C8, amended.  In every [update] the angle moves by the smoothing factor
    times the wrapped difference (when that exceeds 0.001 in magnitude);
    for a difference [target - current] between [-3 pi] and [3 pi] the
    wrapped difference lies in [[-pi, pi]] and differs from it by no turn
    or by one whole turn.  A difference of exactly [-pi] is kept, and
    differences beyond three half turns are moved by one turn only. *)
Theorem angle_difference_wrapped (now : Z) (dt : Q) (c : Camera.t) :
  let d := (Camera.angle (Camera.targetState c)
            - Camera.angle (Camera.state c))%Q in
  let w := Camera.angleDiffOf c in
  (- (JS.Math_PI * 3) <= d <= JS.Math_PI * 3)%Q ->
  (- JS.Math_PI <= w <= JS.Math_PI)%Q
  /\ (w == d \/ w == d - JS.Math_PI * 2 \/ w == d + JS.Math_PI * 2)%Q
  /\ Camera.angle (Camera.state (Camera.update now dt c))
     = (if JS.Qgtb (Qabs w) (1 # 1000)
        then Camera.angle (Camera.state c)
             + w * Camera.smoothing (Camera.config c)
        else Camera.angle (Camera.state c))%Q.
Proof.
  cbn zeta. intros Hd.
  destruct (wrapAngle_range _ Hd) as [Hr Hc].
  split; [exact Hr|]. split; [exact Hc|].
  apply (update_angle now dt c).
Qed.

Lemma angle_difference_wrapped_witness :
  let c := Camera.setAngle 4 true restingCamera in
  (- JS.Math_PI <= Camera.angleDiffOf c <= JS.Math_PI)%Q
  /\ (Camera.angleDiffOf c == 4 - 0
      \/ Camera.angleDiffOf c == 4 - 0 - JS.Math_PI * 2
      \/ Camera.angleDiffOf c == 4 - 0 + JS.Math_PI * 2)%Q
  /\ Camera.angle (Camera.state (Camera.update 0 (1 # 60) c))
     = (if JS.Qgtb (Qabs (Camera.angleDiffOf c)) (1 # 1000)
        then 0 + Camera.angleDiffOf c * (1 # 10)
        else 0)%Q.
Proof.
  cbn zeta.
  apply (angle_difference_wrapped 0 (1 # 60)
           (Camera.setAngle 4 true restingCamera)).
  split; vm_compute; discriminate.
Defined.

(** *** The error of [round64] *)

(** The doubles of [0.1] and of a third, and the two ties next to [2^53],
    which go to the even neighbour. *)
Example round64_doubles :
  JS.round64 (1 # 10) = (3602879701896397 # 36028797018963968)%Q
  /\ JS.round64 (1 # 3) = (6004799503160661 # 18014398509481984)%Q
  /\ JS.round64 9007199254740993 = 9007199254740992%Q
  /\ JS.round64 9007199254740995 = 9007199254740996%Q.
Proof. repeat split; vm_compute; reflexivity. Qed.

Lemma pow2_Qpower (e : Z) : (JS.pow2 e == 2 ^ e)%Q.
Proof.
  unfold JS.pow2. destruct (0 <=? e)%Z eqn:E.
  - apply Z.leb_le in E. exact (Zpower_Qpower 2 e E).
  - apply Z.leb_gt in E.
    assert (Hp : (0 < 2 ^ (- e))%Z) by (apply Z.pow_pos_nonneg; lia).
    assert (E2 : (2 ^ e == / (2 ^ (- e)))%Q).
    { rewrite <- Qpower_opp. rewrite Z.opp_involutive. reflexivity. }
    rewrite E2.
    assert (E3 : (2 ^ (- e) == inject_Z (2 ^ (- e)))%Q).
    { symmetry. exact (Zpower_Qpower 2 (- e) ltac:(lia)). }
    rewrite E3. unfold Qeq, Qinv. cbn.
    destruct (2 ^ (- e))%Z as [|p|p] eqn:Ep; try lia.
    cbn. lia.
Qed.

Lemma pow2_pos (e : Z) : (0 < JS.pow2 e)%Q.
Proof.
  rewrite pow2_Qpower. apply Qpower_0_lt. reflexivity.
Qed.

Lemma pow2_add (x y : Z) : (JS.pow2 (x + y) == JS.pow2 x * JS.pow2 y)%Q.
Proof.
  rewrite !pow2_Qpower. apply Qpower_plus. discriminate.
Qed.

Lemma floorLog2_le (a : Q) : (0 < a)%Q -> (JS.pow2 (JS.floorLog2 a) <= a)%Q.
Proof.
  intros Ha. unfold JS.floorLog2.
  set (n := Qnum a). set (d := Zpos (Qden a)).
  set (l := (Z.log2 n - Z.log2 d)%Z).
  destruct (Qle_bool (JS.pow2 l) a) eqn:E; [apply Qle_bool_iff; exact E|].
  assert (Hn : (0 < n)%Z).
  { unfold Qlt in Ha. cbn in Ha. fold n in Ha. lia. }
  assert (Hd : (0 < d)%Z) by (unfold d; lia).
  destruct (Z.log2_spec n Hn) as [Hn1 _].
  destruct (Z.log2_spec d Hd) as [_ Hd2].
  assert (Ln : (0 <= Z.log2 n)%Z) by apply Z.log2_nonneg.
  assert (Ld : (0 <= Z.log2 d)%Z) by apply Z.log2_nonneg.
  assert (EY : (JS.pow2 (Z.log2 n) == inject_Z (2 ^ Z.log2 n))%Q).
  { unfold JS.pow2. destruct (0 <=? Z.log2 n)%Z eqn:E0; [reflexivity|].
    apply Z.leb_gt in E0. lia. }
  assert (EX : (JS.pow2 (Z.succ (Z.log2 d))
                == inject_Z (2 ^ Z.succ (Z.log2 d)))%Q).
  { unfold JS.pow2. destruct (0 <=? Z.succ (Z.log2 d))%Z eqn:E0; [reflexivity|].
    apply Z.leb_gt in E0. lia. }
  assert (HY : (JS.pow2 (Z.log2 n) <= inject_Z n)%Q).
  { rewrite EY. rewrite <- Zle_Qle. exact Hn1. }
  assert (HX : (inject_Z d <= JS.pow2 (Z.succ (Z.log2 d)))%Q).
  { rewrite EX. rewrite <- Zle_Qle. lia. }
  assert (EP : (JS.pow2 (l - 1) * JS.pow2 (Z.succ (Z.log2 d))
                == JS.pow2 (Z.log2 n))%Q).
  { rewrite <- pow2_add. replace (l - 1 + Z.succ (Z.log2 d))%Z
      with (Z.log2 n) by (unfold l; lia). reflexivity. }
  assert (Ea : (a * inject_Z d == inject_Z n)%Q).
  { unfold Qeq, n, d. destruct a as [an ad]. cbn. lia. }
  pose proof (pow2_pos (l - 1)) as HP.
  assert (HD : (0 < inject_Z d)%Q).
  { change 0%Q with (inject_Z 0). rewrite <- Zlt_Qlt. exact Hd. }
  apply (Qmult_le_r _ _ (inject_Z d) HD).
  assert (H1 : (0 <= JS.pow2 (l - 1)
                     * (JS.pow2 (Z.succ (Z.log2 d)) - inject_Z d))%Q)
    by (apply Qmult_le_0_compat; lra).
  lra.
Qed.

Lemma roundHalfEven_near (m : Q) :
  (Qabs (inject_Z (JS.roundHalfEven m) - m) <= 1 # 2)%Q.
Proof.
  unfold JS.roundHalfEven.
  pose proof (Qfloor_le m) as H1. pose proof (Qlt_floor m) as H2.
  rewrite inject_Z_plus in H2. change (inject_Z 1) with 1%Q in H2.
  apply Qabs_Qle_condition.
  destruct (Qcompare (m - inject_Z (Qfloor m)) (1 # 2)) eqn:E.
  - apply Qeq_alt in E. destruct (Z.even _);
      rewrite ?inject_Z_plus; change (inject_Z 1) with 1%Q; lra.
  - apply Qlt_alt in E. lra.
  - apply Qgt_alt in E. rewrite inject_Z_plus. change (inject_Z 1) with 1%Q. lra.
Qed.

(** The rounding error of a double: at most [2^-53] of the magnitude, or
    [2^-1075] where the result is subnormal. *)
Lemma round64_error (y : Q) :
  (Qabs (JS.round64 y - y)
   <= (1 # 9007199254740992) * Qabs y + JS.pow2 (-1075))%Q.
Proof.
  unfold JS.round64. destruct (Qeq_bool y 0) eqn:E0.
  { apply Qeq_bool_iff in E0. rewrite E0. cbn [Qabs Qminus Qplus Qopp].
    pose proof (pow2_pos (-1075)). vm_compute. discriminate. }
  assert (Hy : ~ (y == 0)%Q) by (apply Qeq_bool_neq; exact E0).
  set (a := Qabs y).
  assert (Ha : (0 < a)%Q).
  { unfold a. pose proof (Qabs_nonneg y) as Hn.
    destruct (Qlt_le_dec 0 (Qabs y)) as [Hl|Hl]; [exact Hl|].
    exfalso. apply Hy. assert (E : (Qabs y <= 0)%Q) by lra.
    apply Qabs_Qle_condition in E. lra. }
  set (e := Z.max (JS.floorLog2 a - 52) (-1074)).
  set (r := inject_Z (JS.roundHalfEven (a / JS.pow2 e))).
  pose proof (pow2_pos e) as He.
  pose proof (roundHalfEven_near (a / JS.pow2 e)) as Hr. fold r in Hr.
  apply Qabs_Qle_condition in Hr.
  (* the error in units of the last place *)
  assert (Hm : (a / JS.pow2 e * JS.pow2 e == a)%Q).
  { field. lra. }
  assert (R1 : (0 <= ((1 # 2) - (r - a / JS.pow2 e)) * JS.pow2 e)%Q)
    by (apply Qmult_le_0_compat; lra).
  assert (R2 : (0 <= ((1 # 2) + (r - a / JS.pow2 e)) * JS.pow2 e)%Q)
    by (apply Qmult_le_0_compat; lra).
  assert (Herr : (- ((1 # 2) * JS.pow2 e) <= r * JS.pow2 e - a
                  <= (1 # 2) * JS.pow2 e)%Q) by lra.
  (* the unit in the last place *)
  assert (Hulp : ((1 # 2) * JS.pow2 e
                  <= (1 # 9007199254740992) * a + JS.pow2 (-1075))%Q).
  { pose proof (floorLog2_le a Ha) as Hfl.
    pose proof (pow2_pos (JS.floorLog2 a - 52)) as Hp1.
    pose proof (pow2_pos (-1074)) as Hp2.
    assert (E1 : (JS.pow2 (JS.floorLog2 a)
                  == JS.pow2 (JS.floorLog2 a - 52) * JS.pow2 52)%Q).
    { rewrite <- pow2_add. replace (JS.floorLog2 a - 52 + 52)%Z
        with (JS.floorLog2 a) by lia. reflexivity. }
    assert (E2 : (JS.pow2 52 == 4503599627370496)%Q) by reflexivity.
    assert (E3 : (JS.pow2 (-1074) == 2 * JS.pow2 (-1075))%Q)
      by (vm_compute; reflexivity).
    rewrite E1, E2 in Hfl.
    unfold e. destruct (Z.max_spec (JS.floorLog2 a - 52) (-1074))
      as [[_ ->]|[_ ->]]; lra. }
  fold a e r. set (q := Qred (r * JS.pow2 e)).
  assert (Hq : (q == r * JS.pow2 e)%Q) by apply Qred_correct.
  destruct (Qle_bool 0 y) eqn:Es.
  - apply Qle_bool_iff in Es.
    assert (Eabs : (a == y)%Q) by (unfold a; apply Qabs_pos; exact Es).
    apply Qabs_Qle_condition. fold a. lra.
  - assert (Hneg : (y < 0)%Q).
    { apply Qnot_le_lt. intros H. apply Qle_bool_iff in H. congruence. }
    assert (Eabs : (a == - y)%Q) by (unfold a; apply Qabs_neg; lra).
    apply Qabs_Qle_condition. fold a. lra.
Qed.

(** *** Ranges and rounding *)

Lemma slack_nonneg (u eta lo hi : Q) :
  (0 <= u)%Q -> (0 <= eta)%Q -> (0 <= lo <= hi)%Q -> (0 <= slack u eta lo hi)%Q.
Proof.
  intros Hu He [Hlo Hhi]. unfold slack.
  assert (H1 : (0 <= (hi - lo) * (2 * u + u * u))%Q).
  { apply Qmult_le_0_compat; [lra|].
    assert (0 <= u * u)%Q by (apply Qmult_le_0_compat; assumption). lra. }
  assert (H2 : (0 <= eta * (2 + u))%Q) by (apply Qmult_le_0_compat; lra).
  assert (H3 : (0 <= ((hi - lo) * (2 * u + u * u) + eta * (2 + u)) * (1 + u))%Q)
    by (apply Qmult_le_0_compat; lra).
  assert (H4 : (0 <= u * hi)%Q) by (apply Qmult_le_0_compat; lra).
  lra.
Qed.

Lemma Qabs_bounds (x y : Q) : (Qabs x <= y)%Q <-> (- y <= x <= y)%Q.
Proof. apply Qabs_Qle_condition. Qed.

(** One smoothing step under a rounding of relative error [u] and absolute
    error [eta]. *)
Lemma smoothed_within (rnd : Q -> Q) (u eta threshold lo hi x t k : Q) :
  (forall y, Qabs (rnd y - y) <= u * Qabs y + eta)%Q ->
  (0 <= u)%Q -> (0 <= eta)%Q -> (0 <= lo)%Q ->
  (lo <= x <= hi)%Q -> (lo <= t <= hi)%Q -> (0 <= k <= 1)%Q ->
  (lo - slack u eta lo hi <= Camera.smoothed rnd threshold x t k
   <= hi + slack u eta lo hi)%Q.
Proof.
  intros Hrnd Hu He Hlo [Hx1 Hx2] [Ht1 Ht2] [Hk1 Hk2].
  pose proof (slack_nonneg u eta lo hi Hu He ltac:(split; lra)) as Hs.
  unfold Camera.smoothed. destruct (Camera.moves _ _ _ _); [|lra].
  set (dl := (t - x)%Q).
  set (a := rnd dl).
  set (b := rnd (a * k)%Q).
  set (r := rnd (x + b)%Q).
  set (w := (hi - lo)%Q).
  pose proof (Hrnd dl) as H1. fold a in H1.
  pose proof (Hrnd (a * k)%Q) as H2. fold b in H2.
  pose proof (Hrnd (x + b)%Q) as H3. fold r in H3.
  apply Qabs_bounds in H1, H2, H3.
  (* |dl| <= w *)
  assert (Hdl : (Qabs dl <= w)%Q).
  { apply Qabs_bounds. unfold dl, w. lra. }
  pose proof (Qabs_nonneg dl) as Hdl0.
  assert (F1 : (0 <= (w - Qabs dl) * u)%Q) by (apply Qmult_le_0_compat; lra).
  assert (Fuw : (0 <= u * Qabs dl)%Q) by (apply Qmult_le_0_compat; lra).
  assert (Hdlb : (- w <= dl <= w)%Q) by (apply Qabs_bounds; exact Hdl).
  (* a within A *)
  set (A := (w * (1 + u) + eta)%Q).
  assert (Ha : (- A <= a <= A)%Q) by (unfold A; lra).
  assert (HA0 : (0 <= A)%Q) by lra.
  (* a * k within A *)
  assert (G1 : (0 <= (A - a) * k)%Q) by (apply Qmult_le_0_compat; lra).
  assert (G2 : (0 <= (A + a) * k)%Q) by (apply Qmult_le_0_compat; lra).
  assert (G3 : (0 <= A * (1 - k))%Q) by (apply Qmult_le_0_compat; lra).
  assert (Hak : (Qabs (a * k) <= A)%Q).
  { apply Qabs_bounds. lra. }
  pose proof (Qabs_nonneg (a * k)) as Hak0.
  assert (F2 : (0 <= (A - Qabs (a * k)) * u)%Q)
    by (apply Qmult_le_0_compat; lra).
  (* (a - dl) * k within u w + eta *)
  set (B := (u * Qabs dl + eta)%Q).
  assert (HB0 : (0 <= B)%Q) by (unfold B; lra).
  assert (K1 : (0 <= (B - (a - dl)) * k)%Q)
    by (apply Qmult_le_0_compat; unfold B; lra).
  assert (K2 : (0 <= (B + (a - dl)) * k)%Q)
    by (apply Qmult_le_0_compat; unfold B; lra).
  assert (K3 : (0 <= B * (1 - k))%Q) by (apply Qmult_le_0_compat; lra).
  (* the exact step stays in the range *)
  pose proof (smooth_step_between lo hi x t k ltac:(split; lra)
                ltac:(split; lra) ltac:(split; lra)) as [S1 S2].
  fold dl in S1, S2.
  set (e := (w * (2 * u + u * u) + eta * (2 + u))%Q).
  assert (Hxb : (lo - e <= x + b <= hi + e)%Q).
  { unfold e, A, B in *. lra. }
  assert (Hxbabs : (Qabs (x + b) <= hi + e)%Q).
  { apply Qabs_bounds. lra. }
  pose proof (Qabs_nonneg (x + b)) as Hxb0.
  assert (F3 : (0 <= ((hi + e) - Qabs (x + b)) * u)%Q)
    by (apply Qmult_le_0_compat; lra).
  unfold slack. fold w. fold e. lra.
Qed.

Lemma smoothedNumber_finite (rnd : Q -> Q) (threshold x t k : Q) :
  Camera.smoothedNumber rnd threshold (JS.Fin x) (JS.Fin t) k
  = JS.Fin (Camera.smoothed rnd threshold x t k).
Proof.
  unfold Camera.smoothedNumber, Camera.smoothed, Camera.movesNumber,
    Camera.moves. cbn.
  destruct (JS.Qgtb _ _) eqn:E; unfold JS.Qgtb in E; rewrite E; reflexivity.
Qed.

(** C9, as stated, fails on doubles.  A camera with a smoothing factor of
    1 is constructed, at the elevation [Math.PI * 0.35], and asked for the
    lowest elevation: the target is the double [0.1].  Current and target
    values are within the ranges, and the update leaves the elevation at
    [0.09999999999999998], below [0.1], because the step
    [current + (target - current) * 1] is rounded three times. *)
Lemma smoothing_rounds_out_of_range :
  (0 < Camera.smoothing (Camera.config lowered64) <= 1)%Q
  /\ Camera.distance (Camera.state lowered64) = JS.Fin 140
  /\ Camera.distance (Camera.targetState lowered64) = JS.Fin 140
  /\ (1 # 10 <= Camera.elevation (Camera.state lowered64)
      <= JS.Math_PI / (25 # 10))%Q
  /\ (1 # 10 <= Camera.elevation (Camera.targetState lowered64)
      <= JS.Math_PI / (25 # 10))%Q
  /\ Camera.elevation (Camera.targetState lowered64) = JS.round64 (1 # 10)
  /\ (10 <= Camera.fov (Camera.state lowered64) <= 120)%Q
  /\ (10 <= Camera.fov (Camera.targetState lowered64) <= 120)%Q
  /\ (Camera.elevation
        (Camera.state (Camera.updateWith JS.round64 0 (1 # 60) lowered64))
      == 900719925474099 # 9007199254740992)%Q
  /\ (Camera.elevation
        (Camera.state (Camera.updateWith JS.round64 0 (1 # 60) lowered64))
      < 1 # 10)%Q.
Proof.
  repeat split; vm_compute; first [reflexivity | discriminate].
Qed.

(** C9, amended.  With a smoothing factor in (0, 1], [update] keeps the
    distance, the elevation and the field of view within their ranges up
    to the rounding of its arithmetic.  For an arithmetic whose every
    operation is off by at most [u] times the magnitude of the exact
    result plus [eta] (for doubles [u = 2^-53] and [eta = 2^-1075], for
    exact arithmetic both 0), whenever the current and the target value
    lie in [[lo, hi]] before the call, the value after it lies in
    [[lo - slack, hi + slack]], where [slack u eta lo hi] is 0 in exact
    arithmetic.  The range of the distance is any [[minDistance,
    maxDistance]] with [0 <= minDistance]: the two names of the claim are
    not defined in the code. *)
Theorem update_preserves_ranges (rnd : Q -> Q) (u eta : Q) (now : Z) (dt : Q)
    (c : Camera.t) (minDistance maxDistance d td : Q) :
  (forall y, Qabs (rnd y - y) <= u * Qabs y + eta)%Q ->
  (0 <= u)%Q -> (0 <= eta)%Q ->
  (0 < Camera.smoothing (Camera.config c) <= 1)%Q ->
  Camera.distance (Camera.state c) = JS.Fin d ->
  Camera.distance (Camera.targetState c) = JS.Fin td ->
  (0 <= minDistance)%Q ->
  (minDistance <= d <= maxDistance)%Q ->
  (minDistance <= td <= maxDistance)%Q ->
  (1 # 10 <= Camera.elevation (Camera.state c) <= JS.Math_PI / (25 # 10))%Q ->
  (1 # 10 <= Camera.elevation (Camera.targetState c)
   <= JS.Math_PI / (25 # 10))%Q ->
  (10 <= Camera.fov (Camera.state c) <= 120)%Q ->
  (10 <= Camera.fov (Camera.targetState c) <= 120)%Q ->
  let s' := Camera.state (Camera.updateWith rnd now dt c) in
  (exists d',
      Camera.distance s' = JS.Fin d'
      /\ (minDistance - slack u eta minDistance maxDistance <= d'
          <= maxDistance + slack u eta minDistance maxDistance)%Q)
  /\ ((1 # 10) - slack u eta (1 # 10) (JS.Math_PI / (25 # 10))
      <= Camera.elevation s'
      <= JS.Math_PI / (25 # 10)
         + slack u eta (1 # 10) (JS.Math_PI / (25 # 10)))%Q
  /\ (10 - slack u eta 10 120 <= Camera.fov s'
      <= 120 + slack u eta 10 120)%Q.
Proof.
  intros Hrnd Hu He [Hk0 Hk1] Ed Etd Hmin Hd Htd Hel Hel' Hf Hf'.
  destruct (updateWith_effect rnd now dt c) as (_ & _ & _ & Hs).
  cbn zeta in *. rewrite Hs.
  cbn [Camera.distance Camera.elevation Camera.fov].
  assert (Hk : (0 <= Camera.smoothing (Camera.config c) <= 1)%Q) by lra.
  split; [|split].
  - rewrite Ed, Etd, smoothedNumber_finite. eexists. split; [reflexivity|].
    apply (smoothed_within rnd u eta); assumption.
  - apply (smoothed_within rnd u eta); try assumption. discriminate.
  - apply (smoothed_within rnd u eta); try assumption. discriminate.
Qed.

Lemma slack_exact (lo hi : Q) : (slack 0 0 lo hi == 0)%Q.
Proof. unfold slack. ring. Qed.

Lemma update_preserves_ranges_witness :
  let s' := Camera.state (Camera.updateWith JS.round64 0 (1 # 60) lowered64) in
  let u := (1 # 9007199254740992)%Q in
  let eta := JS.pow2 (-1075) in
  (exists d',
      Camera.distance s' = JS.Fin d'
      /\ (30 - slack u eta 30 300 <= d' <= 300 + slack u eta 30 300)%Q)
  /\ ((1 # 10) - slack u eta (1 # 10) (JS.Math_PI / (25 # 10))
      <= Camera.elevation s'
      <= JS.Math_PI / (25 # 10)
         + slack u eta (1 # 10) (JS.Math_PI / (25 # 10)))%Q
  /\ (10 - slack u eta 10 120 <= Camera.fov s'
      <= 120 + slack u eta 10 120)%Q.
Proof.
  cbn zeta.
  apply (update_preserves_ranges JS.round64 (1 # 9007199254740992)
           (JS.pow2 (-1075)) 0 (1 # 60) lowered64 30 300 140 140).
  - exact round64_error.
  - discriminate.
  - vm_compute. discriminate.
  - split; vm_compute; [reflexivity | discriminate].
  - reflexivity.
  - reflexivity.
  - discriminate.
  - split; discriminate.
  - split; discriminate.
  - split; vm_compute; discriminate.
  - split; vm_compute; discriminate.
  - split; discriminate.
  - split; discriminate.
Defined.

(** ** More of the object pool *)

Section MorePoolFacts.
Context {T : Type} `{Countable T}.
Implicit Types (p : ObjectPool.t T) (obj : T).

Import ObjectPool.

Lemma checkShrink_active (now : Z) p : active (checkShrink now p) = active p.
Proof.
  unfold checkShrink. destruct (_ <? _)%Z; [reflexivity|].
  destruct (_ && _); [|reflexivity].
  generalize (Nat.min (length (available (with_lastShrinkCheck now p))
                       - initialSize (config (with_lastShrinkCheck now p)))
                      (length (available (with_lastShrinkCheck now p)) / 4)).
  intros n. induction n as [|n IH]; [reflexivity|].
  change (Nat.iter (S n) shrinkOne (with_lastShrinkCheck now p))
    with (shrinkOne (Nat.iter n shrinkOne (with_lastShrinkCheck now p))).
  unfold shrinkOne at 1.
  destruct (available _); cbn; exact IH.
Qed.

Lemma release_active (now : Z) obj p :
  active (release now obj p) = active p ∖ {[obj]}.
Proof.
  unfold release. destruct (decide (obj ∈ active p)) as [Hin|Hout].
  - cbn [with_stats with_active with_available config active].
    destruct (resetFn (config p) obj); [|reflexivity].
    destruct (autoShrink (config p)); [|reflexivity].
    rewrite checkShrink_active. reflexivity.
  - apply set_eq. intros x. rewrite elem_of_difference, elem_of_singleton.
    split; [|tauto]. intros Hx. split; [exact Hx|]. intros ->. contradiction.
Qed.

(** X1.  Releasing an object a second time does nothing: the second call
    finds it no longer active and leaves the pool, its available list
    included, exactly as the first call left it. *)
Theorem release_twice_rejected (now now' : Z) obj p :
  release now' obj (release now obj p) = release now obj p.
Proof.
  unfold release at 1.
  destruct (decide (obj ∈ active (release now obj p))) as [Hin|Hout];
    [|reflexivity].
  rewrite release_active in Hin. apply elem_of_difference in Hin as [_ Hne].
  exfalso. apply Hne. apply elem_of_singleton. reflexivity.
Qed.

(** X2.  Reuse is last in, first out: when shrinking is off and the hooks
    accept the object, an [acquire] right after [release(obj)] returns
    [obj] itself and brings back the collections as they were; nothing is
    constructed, and [reused] goes up by one. *)
Theorem release_then_acquire (now : Z) obj p :
  obj ∈ active p ->
  resetFn (config p) obj = true ->
  validateFn (config p) obj = true ->
  autoShrink (config p) = false ->
  exists p',
    acquire 1 (release now obj p) = Some (JS.Normal obj, p')
    /\ available p' = available p
    /\ active p' = active p
    /\ created (stats p') = created (stats p)
    /\ reused (stats p') = (reused (stats p) + 1)%Z.
Proof.
  intros Hin Hreset Hvalid Hshrink. unfold release.
  destruct (decide (obj ∈ active p)) as [_|Hout]; [|contradiction].
  cbn [with_stats with_active with_available config active].
  rewrite Hreset, Hshrink. cbn [acquire available with_stats with_available config].
  cbn. rewrite Hvalid. cbn.
  eexists. split; [reflexivity|]. cbn. repeat split.
  apply set_eq. intros x. rewrite elem_of_union, elem_of_difference,
    elem_of_singleton.
  destruct (decide (x = obj)) as [->|Hne]; [tauto|]. tauto.
Qed.


Lemma size_add_le (X : gset T) obj : (size ({[obj]} ∪ X) <= S (size X))%nat.
Proof.
  destruct (decide (obj ∈ X)) as [Hin|Hout].
  - assert (E : {[obj]} ∪ X = X).
    { apply set_eq. intros x. rewrite elem_of_union, elem_of_singleton.
      split; [intros [->|Hx]; assumption | tauto]. }
    rewrite E. lia.
  - rewrite size_union by (apply disjoint_singleton_l; exact Hout).
    rewrite size_singleton. lia.
Qed.

Lemma size_remove_le (X : gset T) obj : (size (X ∖ {[obj]}) <= size X)%nat.
Proof. apply subseteq_size. apply subseteq_difference_l. reflexivity. Qed.


Lemma createObject_bounded p :
  bounded p -> bounded (snd (createObject p))
  /\ config (snd (createObject p)) = config p.
Proof.
  unfold bounded, createObject, getTotalSize.
  destruct (_ <=? _)%nat eqn:E; cbn; [tauto|].
  apply Nat.leb_gt in E. unfold getTotalSize in E. intros _. split; [lia | reflexivity].
Qed.

Lemma initialize_bounded (n : nat) : forall p,
  bounded p -> bounded (snd (initialize n p))
  /\ config (snd (initialize n p)) = config p.
Proof.
  induction n as [|n IH]; intros p Hb; [split; [exact Hb | reflexivity]|].
  cbn [initialize].
  destruct (createObject_bounded p Hb) as [Hb1 Hc1].
  destruct (createObject p) as [[obj|e] p1]; cbn [snd] in *.
  - destruct (IH p1 Hb1) as [Hb2 Hc2]. split; [exact Hb2 | congruence].
  - split; [exact Hb1 | exact Hc1].
Qed.

Lemma acquire_bounded (fuel : nat) : forall p r p',
  bounded p -> acquire fuel p = Some (r, p') ->
  bounded p' /\ config p' = config p.
Proof.
  induction fuel as [|fuel IH]; intros p r p' Hb Hacq; [discriminate|].
  cbn [acquire] in Hacq. unfold bounded, getTotalSize in Hb.
  destruct (available p) as [|obj rest] eqn:Ea.
  - destruct (autoGrow (config p)
              && (getTotalSize p <? maxSize (config p))%nat) eqn:Eg.
    + apply andb_true_iff in Eg as [_ Eg]. apply Nat.ltb_lt in Eg.
      unfold getTotalSize in Eg. rewrite Ea in Eg. cbn in Eg, Hacq.
      destruct (validateFn _ _); cbn in Hacq.
      * injection Hacq as <- <-. split; [|reflexivity].
        unfold bounded, getTotalSize. cbn. rewrite Ea. cbn.
        pose proof (size_add_le (active p) (createFn (config p) (createCalls p))).
        lia.
      * apply IH in Hacq; [exact Hacq|].
        unfold bounded, getTotalSize. cbn. rewrite Ea. cbn. lia.
    + injection Hacq as <- <-. split; [|reflexivity].
      unfold bounded, getTotalSize. rewrite Ea. exact Hb.
  - cbn [with_stats with_available config available stats] in Hacq.
    cbn in Hb.
    destruct (validateFn (config p) obj); cbn [negb] in Hacq.
    + injection Hacq as <- <-. split; [|reflexivity].
      unfold bounded, getTotalSize. cbn.
      pose proof (size_add_le (active p) obj). lia.
    + apply IH in Hacq; [exact Hacq|].
      unfold bounded, getTotalSize. cbn. lia.
Qed.

Lemma shrinkOne_bounded p :
  bounded p -> bounded (shrinkOne p) /\ config (shrinkOne p) = config p.
Proof.
  unfold bounded, shrinkOne, getTotalSize. intros Hb.
  destruct (available p) eqn:Ea; cbn in *; rewrite ?Ea; cbn;
    split; (lia || reflexivity).
Qed.

Lemma checkShrink_bounded (now : Z) p :
  bounded p -> bounded (checkShrink now p)
  /\ config (checkShrink now p) = config p.
Proof.
  intros Hb. unfold checkShrink.
  destruct (_ <? _)%Z; [split; [exact Hb | reflexivity]|].
  destruct (_ && _); [|split; [exact Hb | reflexivity]].
  generalize (Nat.min (length (available (with_lastShrinkCheck now p))
                       - initialSize (config (with_lastShrinkCheck now p)))
                      (length (available (with_lastShrinkCheck now p)) / 4)).
  intros n. induction n as [|n [IH1 IH2]]; [split; [exact Hb | reflexivity]|].
  change (Nat.iter (S n) shrinkOne (with_lastShrinkCheck now p))
    with (shrinkOne (Nat.iter n shrinkOne (with_lastShrinkCheck now p))).
  destruct (shrinkOne_bounded _ IH1) as [H1 H2].
  split; [exact H1 | rewrite H2; exact IH2].
Qed.

Lemma release_bounded (now : Z) obj p :
  bounded p -> bounded (release now obj p)
  /\ config (release now obj p) = config p.
Proof.
  intros Hb. unfold release.
  destruct (decide (obj ∈ active p)) as [Hin|Hout];
    [|split; [exact Hb | reflexivity]].
  cbn [with_stats with_active with_available config available stats active].
  pose proof (size_remove_member _ _ Hin) as Hsz.
  unfold bounded, getTotalSize in Hb.
  destruct (resetFn (config p) obj).
  - assert (Hb2 : bounded
        (with_stats (addAvailable 1 (addActive (-1) (stats p)))
           (with_available (obj :: available p)
              (with_stats (addActive (-1) (stats p))
                 (with_active (active p ∖ {[obj]}) p))))).
    { unfold bounded, getTotalSize. cbn. lia. }
    destruct (autoShrink (config p)).
    + apply (checkShrink_bounded now _ Hb2).
    + split; [exact Hb2 | reflexivity].
  - split; [|reflexivity]. unfold bounded, getTotalSize. cbn. lia.
Qed.

Lemma run_bounded (fuel : nat) (cs : list call) : forall p p',
  bounded p -> run fuel cs p = Some p' ->
  bounded p' /\ config p' = config p.
Proof.
  induction cs as [|c cs IH]; intros p p' Hb Hrun; cbn [run] in Hrun.
  - injection Hrun as <-. split; [exact Hb | reflexivity].
  - destruct c as [|obj now].
    + destruct (acquire fuel p) as [[r p1]|] eqn:Ea; [|discriminate].
      destruct (acquire_bounded fuel p r p1 Hb Ea) as [Hb1 Hc1].
      destruct (IH p1 p' Hb1 Hrun) as [Hb2 Hc2].
      split; [exact Hb2 | congruence].
    + destruct (release_bounded now obj p Hb) as [Hb1 Hc1].
      destruct (IH (release now obj p) p' Hb1 Hrun) as [Hb2 Hc2].
      split; [exact Hb2 | congruence].
Qed.

(** X3.  From the constructor on, after every sequence of [acquire] and
    [release] calls, the pool holds at most [maxSize] objects, whatever the
    factory returns. *)
Theorem pool_never_exceeds_maxSize (cfg : PoolConfig T) p p'
    (fuel : nat) (calls : list call) :
  construct cfg = JS.Normal p ->
  run fuel calls p = Some p' ->
  (length (available p') + size (active p') <= maxSize cfg)%nat.
Proof.
  unfold construct. intros Hnew Hrun.
  set (p0 := mkPool [] ∅ cfg emptyStats 0 0 []) in Hnew.
  assert (Hb0 : bounded p0).
  { unfold bounded, getTotalSize. cbn. rewrite size_empty. lia. }
  destruct (initialize_bounded (initialSize cfg) p0 Hb0) as [Hb Hc].
  destruct (initialize (initialSize cfg) p0) as [[u|e] p1]; [|discriminate].
  injection Hnew as <-. cbn [snd] in *.
  destruct (run_bounded fuel calls p1 p' Hb Hrun) as [Hb' Hc'].
  unfold bounded, getTotalSize in Hb'. rewrite Hc', Hc in Hb'. exact Hb'.
Qed.

(** *** resize *)

Lemma initialize_grows (n : nat) : forall p,
  (getTotalSize p + n <= maxSize (config p))%nat ->
  exists p',
    initialize n p = (JS.Normal tt, p')
    /\ getTotalSize p' = (getTotalSize p + n)%nat
    /\ active p' = active p.
Proof.
  induction n as [|n IH]; intros p Hroom.
  - exists p. cbn. repeat split. lia.
  - cbn [initialize]. unfold createObject.
    destruct (_ <=? _)%nat eqn:E; [apply Nat.leb_le in E; lia|].
    cbn.
    match goal with
    | |- context [initialize n ?q] =>
        destruct (IH q) as (p' & Hi & Hs & Ha)
    end.
    { unfold getTotalSize in *. cbn. lia. }
    exists p'. rewrite Hi. split; [reflexivity|]. split.
    + rewrite Hs. unfold getTotalSize. cbn. lia.
    + rewrite Ha. reflexivity.
Qed.

Lemma removeAvailable_effect (n : nat) : forall p,
  active (removeAvailable n p) = active p
  /\ length (available (removeAvailable n p))
     = (length (available p) - n)%nat.
Proof.
  induction n as [|n IH]; intros p; cbn [removeAvailable].
  - split; [reflexivity | lia].
  - destruct (available p) as [|obj rest] eqn:Ea.
    + rewrite Ea. split; reflexivity.
    + destruct (IH (shrinkOne p)) as [Ha Hl]. rewrite Ha, Hl.
      unfold shrinkOne. rewrite Ea. cbn. split; [reflexivity | lia].
Qed.

(** X4.  [resize(n)] with [0 <= n <= maxSize] does not throw, leaves the
    active set untouched, and brings the total to [n], or to the number of
    active objects when that is larger: it disposes available objects
    only. *)
Theorem resize_keeps_active (newSize : Z) p :
  (0 <= newSize <= Z.of_nat (maxSize (config p)))%Z ->
  exists p',
    resize newSize p = (JS.Normal tt, p')
    /\ active p' = active p
    /\ getTotalSize p' = Nat.max (Z.to_nat newSize) (size (active p)).
Proof.
  intros [H0 Hmax]. unfold resize.
  destruct (newSize <? 0)%Z eqn:E0; [apply Z.ltb_lt in E0; lia|].
  destruct (_ <? newSize)%Z eqn:E1; [apply Z.ltb_lt in E1; lia|].
  destruct (getTotalSize p <? Z.to_nat newSize)%nat eqn:Eg.
  - apply Nat.ltb_lt in Eg.
    destruct (initialize_grows (Z.to_nat newSize - getTotalSize p) p)
      as (p' & Hi & Hs & Ha); [lia|].
    exists p'. split; [exact Hi|]. split; [exact Ha|].
    rewrite Hs. unfold getTotalSize in *. lia.
  - apply Nat.ltb_ge in Eg.
    destruct (Z.to_nat newSize <? getTotalSize p)%nat eqn:El.
    + apply Nat.ltb_lt in El.
      destruct (removeAvailable_effect (getTotalSize p - Z.to_nat newSize) p)
        as [Ha Hl].
      eexists. split; [reflexivity|]. split; [exact Ha|].
      unfold getTotalSize in *. rewrite Ha, Hl. lia.
    + apply Nat.ltb_ge in El. exists p. split; [reflexivity|].
      split; [reflexivity|]. unfold getTotalSize in *. lia.
Qed.

(** *** validate *)

Lemma filter_split_length (P : T -> Prop) `{!forall x, Decision (P x)}
    (l : list T) :
  (length (filter P l) + length (filter (fun x => ~ P x) l) = length l)%nat.
Proof.
  induction l as [|x l IH]; [reflexivity|].
  rewrite !filter_cons. repeat case_decide; cbn; first [lia | tauto].
Qed.

Lemma filter_split_size (P : T -> Prop) `{!forall x, Decision (P x)}
    (X : gset T) :
  (size (filter P X) + size (filter (fun x => ~ P x) X) = size X)%nat.
Proof.
  rewrite <- size_union.
  - f_equal. apply set_eq. intros x.
    rewrite elem_of_union, !elem_of_filter. destruct (decide (P x)); tauto.
  - intros x. rewrite !elem_of_filter. tauto.
Qed.

Lemma elem_of_rev_iff obj (l : list T) : obj ∈ rev l <-> obj ∈ l.
Proof. rewrite !list_elem_of_In. symmetry. apply in_rev. Qed.

(** X5.  [validate()] counts every object of the pool once, as valid or
    as invalid; it keeps exactly the available objects the validator
    accepts, leaves the active set as it is, and counts each object it
    removed in [stats.disposed]. *)
Theorem validate_counts p :
  let valid := fst (fst (validate p)) in
  let invalid := snd (fst (validate p)) in
  let p' := snd (validate p) in
  (valid + invalid = getTotalSize p)%nat
  /\ Forall (fun obj => validateFn (config p) obj = true) (available p')
  /\ (forall obj, obj ∈ available p' <->
                  obj ∈ available p /\ validateFn (config p) obj = true)
  /\ active p' = active p
  /\ (Z.of_nat (getTotalSize p) - Z.of_nat (getTotalSize p')
      = disposed (stats p') - disposed (stats p))%Z.
Proof.
  cbn zeta. unfold validate. cbn [fst snd available active stats disposed].
  set (ok := fun obj => validateFn (config p) obj = true).
  pose proof (filter_split_length ok (rev (available p))) as Hl.
  pose proof (filter_split_size ok (active p)) as Hs.
  rewrite length_rev in Hl. subst ok. cbn beta in Hl, Hs.
  split; [unfold getTotalSize; lia|].
  split.
  { apply Forall_forall. intros x Hx. rewrite elem_of_rev_iff in Hx.
    apply list_elem_of_filter in Hx as [Hx _]. exact Hx. }
  split.
  { intros x. rewrite elem_of_rev_iff, list_elem_of_filter, elem_of_rev_iff.
    tauto. }
  split; [reflexivity|].
  unfold getTotalSize. cbn. rewrite length_rev. lia.
Qed.



(** Where the object of a successful [acquire] comes from, and what the
    call does to the active set. *)
Lemma acquire_origin (fuel : nat) : forall p r p',
  acquire fuel p = Some (r, p') ->
  match r with
  | JS.Normal obj =>
      (obj ∈ available p
       \/ exists k, (createCalls p <= k)%nat /\ obj = createFn (config p) k)
      /\ active p' = {[obj]} ∪ active p
  | JS.Throw _ => active p' = active p
  end.
Proof.
  induction fuel as [|fuel IH]; intros p r p' Hacq; [discriminate|].
  cbn [acquire] in Hacq.
  destruct (available p) as [|obj rest] eqn:Ea.
  - destruct (autoGrow (config p)
              && (getTotalSize p <? maxSize (config p))%nat).
    + cbn in Hacq.
      destruct (validateFn _ _); cbn in Hacq.
      * injection Hacq as <- <-. cbn. split; [|reflexivity].
        right. exists (createCalls p). split; [lia | reflexivity].
      * apply IH in Hacq. cbn in Hacq. destruct r as [obj|e]; [|exact Hacq].
        destruct Hacq as [[Hin|(k & Hk & Ek)] Hact].
        -- rewrite Ea in Hin. apply elem_of_nil in Hin. contradiction.
        -- split; [|exact Hact]. right. exists k. split; [lia | exact Ek].
    + injection Hacq as <- <-. reflexivity.
  - cbn [with_stats with_available config available stats] in Hacq.
    destruct (validateFn (config p) obj); cbn [negb] in Hacq.
    + injection Hacq as <- <-. cbn. split; [|reflexivity].
      left. apply elem_of_cons. left. reflexivity.
    + apply IH in Hacq. cbn in Hacq. destruct r as [obj'|e]; [|exact Hacq].
      destruct Hacq as [[Hin|Hk] Hact].
      * split; [|exact Hact]. left. apply elem_of_cons. right. exact Hin.
      * split; [|exact Hact]. right. exact Hk.
Qed.

Lemma acquire_fresh (fuel : nat) p obj p' :
  Inj (=) (=) (createFn (config p)) ->
  consistent p ->
  acquire fuel p = Some (JS.Normal obj, p') ->
  (obj ∉ active p) /\ active p' = {[obj]} ∪ active p.
Proof.
  intros Hinj Hc Hacq. apply acquire_origin in Hacq as [Horigin Hact].
  split; [|exact Hact]. intros Hin.
  destruct Horigin as [Hav|(k & Hk & Ek)].
  - exact (available_inactive p Hc obj Hav Hin).
  - destruct (made_by_factory p Hc obj (or_intror Hin)) as (k' & Hk' & Ek').
    rewrite Ek in Ek'. apply Hinj in Ek'. lia.
Qed.

Lemma releases_active (now : Z) (objs : list T) : forall p,
  active (foldl (fun acc o => release now o acc) p objs)
  = active p ∖ list_to_set objs.
Proof.
  induction objs as [|o objs IH]; intros p; cbn [foldl].
  - apply set_eq. intros x.
    rewrite elem_of_difference, elem_of_list_to_set. split; [|tauto].
    intros Hx. split; [exact Hx|]. apply not_elem_of_nil.
  - rewrite IH, release_active. apply set_eq. intros x.
    rewrite !elem_of_difference, elem_of_list_to_set, elem_of_singleton,
      elem_of_list_to_set, elem_of_cons. tauto.
Qed.

Lemma batchLoop_effect (fuel : nat) (now : Z) (count : nat) :
  forall (objs : list T) p r p',
    Inj (=) (=) (createFn (config p)) ->
    consistent p ->
    batchLoop fuel now count objs p = Some (r, p') ->
    match r with
    | JS.Normal objs' =>
        exists more,
          objs' = objs ++ more
          /\ length more = count
          /\ NoDup more
          /\ (forall o, o ∈ more -> o ∉ active p)
          /\ active p' = list_to_set more ∪ active p
    | JS.Throw _ => active p' = active p ∖ list_to_set objs
    end.
Proof.
  induction count as [|count IH]; intros objs p r p' Hinj Hc Hloop;
    cbn [batchLoop] in Hloop.
  - injection Hloop as <- <-. exists []. rewrite app_nil_r.
    split; [reflexivity|]. split; [reflexivity|]. split; [constructor|].
    split.
    + intros o Ho. apply elem_of_nil in Ho. contradiction.
    + apply set_eq. intros x.
      rewrite elem_of_union, elem_of_list_to_set. split; [tauto|].
      intros [Hx|Hx]; [|exact Hx]. apply elem_of_nil in Hx. contradiction.
  - destruct (acquire fuel p) as [[[obj|e] p1]|] eqn:Ea; [| |discriminate].
    + destruct (consistent_acquire fuel p _ p1 Hinj Hc Ea) as [Hc1 Hcfg].
      destruct (acquire_fresh fuel p obj p1 Hinj Hc Ea) as [Hfresh Hact].
      rewrite <- Hcfg in Hinj.
      specialize (IH (objs ++ [obj]) p1 r p' Hinj Hc1 Hloop).
      destruct r as [objs'|e].
      * destruct IH as (more & Hobjs & Hlen & Hnd & Hout & Hset).
        exists (obj :: more). rewrite <- app_assoc in Hobjs.
        split; [exact Hobjs|]. split; [cbn; lia|].
        split.
        { constructor; [|exact Hnd]. intros Hin. apply (Hout obj Hin).
          rewrite Hact. apply elem_of_union. left.
          apply elem_of_singleton. reflexivity. }
        split.
        { intros o Ho. apply elem_of_cons in Ho as [->|Ho]; [exact Hfresh|].
          intros Hin. apply (Hout o Ho). rewrite Hact.
          apply elem_of_union. right. exact Hin. }
        rewrite Hset, Hact. apply set_eq. intros x.
        rewrite !elem_of_union, !elem_of_list_to_set, elem_of_cons,
          elem_of_singleton. tauto.
      * rewrite IH, Hact. apply set_eq. intros x.
        rewrite !elem_of_difference, elem_of_union, elem_of_singleton,
          !elem_of_list_to_set, elem_of_app, list_elem_of_singleton.
        split.
        -- intros [[->|Hx] Hn]; [exfalso; apply Hn; right; reflexivity|].
           split; [exact Hx|]. intros Ho. apply Hn. left. exact Ho.
        -- intros [Hx Hn]. split; [right; exact Hx|].
           intros [Ho| ->]; [exact (Hn Ho) | exact (Hfresh Hx)].
    + injection Hloop as <- <-. apply acquire_origin in Ea. cbn in Ea.
      rewrite releases_active, Ea. reflexivity.
Qed.

Lemma consistent_run_config (fuel : nat) (cs : list call) : forall p p',
  Inj (=) (=) (createFn (config p)) ->
  consistent p ->
  run fuel cs p = Some p' ->
  consistent p' /\ config p' = config p.
Proof.
  induction cs as [|c cs IH]; intros p p' Hinj Hc Hrun; cbn [run] in Hrun.
  - injection Hrun as <-. split; [exact Hc | reflexivity].
  - destruct c as [|obj now].
    + destruct (acquire fuel p) as [[r p1]|] eqn:Ea; [|discriminate].
      destruct (consistent_acquire fuel p r p1 Hinj Hc Ea) as [Hc1 Hcfg].
      rewrite <- Hcfg in Hinj.
      destruct (IH p1 p' Hinj Hc1 Hrun) as [Hc2 Hcfg2].
      split; [exact Hc2 | congruence].
    + destruct (consistent_release now obj p Hc) as [Hc1 Hcfg].
      rewrite <- Hcfg in Hinj.
      destruct (IH (release now obj p) p' Hinj Hc1 Hrun) as [Hc2 Hcfg2].
      split; [exact Hc2 | congruence].
Qed.

(** X6.  [batchAcquire(count)] is all or nothing on a pool reached from
    the constructor (with a factory of new objects): when it returns, it
    returns [count] distinct objects that were not active before and are
    now; when an acquisition fails, the objects acquired so far are
    released and the active set is what it was before the call. *)
Theorem batchAcquire_all_or_nothing (cfg : PoolConfig T) p0 p p'
    (fuel fuel' : nat) (calls : list call) (now : Z) (count : nat)
    (r : JS.completion (list T)) :
  Inj (=) (=) (createFn cfg) ->
  construct cfg = JS.Normal p0 ->
  run fuel calls p0 = Some p ->
  batchAcquire fuel' now count p = Some (r, p') ->
  match r with
  | JS.Normal objects =>
      length objects = count
      /\ NoDup objects
      /\ (forall obj, obj ∈ objects -> obj ∉ active p)
      /\ active p' = list_to_set objects ∪ active p
  | JS.Throw _ => active p' = active p
  end.
Proof.
  intros Hinj Hnew Hrun Hbatch.
  destruct (consistent_construct cfg p0 Hinj Hnew) as [Hc0 Hcfg0].
  rewrite <- Hcfg0 in Hinj.
  destruct (consistent_run_config fuel calls p0 p Hinj Hc0 Hrun) as [Hc Hcfg].
  rewrite <- Hcfg in Hinj.
  pose proof (batchLoop_effect fuel' now count [] p r p' Hinj Hc Hbatch) as HL.
  destruct r as [objects|e].
  - destruct HL as (more & -> & Hlen & Hnd & Hout & Hset). cbn.
    repeat split; assumption.
  - rewrite HL. apply set_eq. intros x.
    rewrite elem_of_difference, elem_of_list_to_set. split; [tauto|].
    intros Hx. split; [exact Hx|]. apply not_elem_of_nil.
Qed.

End MorePoolFacts.

Lemma release_then_acquire_witness :
  exists p',
    ObjectPool.acquire 1 (ObjectPool.release 0 1%nat pickyActive)
    = Some (JS.Normal 1%nat, p')
    /\ ObjectPool.available p' = ObjectPool.available pickyActive
    /\ ObjectPool.active p' = ObjectPool.active pickyActive
    /\ ObjectPool.created (ObjectPool.stats p')
       = ObjectPool.created (ObjectPool.stats pickyActive)
    /\ ObjectPool.reused (ObjectPool.stats p')
       = (ObjectPool.reused (ObjectPool.stats pickyActive) + 1)%Z.
Proof.
  apply (release_then_acquire 0 1%nat pickyActive).
  - vm_compute. reflexivity.
  - reflexivity.
  - reflexivity.
  - reflexivity.
Defined.

Lemma pool_never_exceeds_maxSize_witness :
  exists p',
    ObjectPool.run 1 (replicate 11 ObjectPool.Acquire) tenPoolNew = Some p'
    /\ (length (ObjectPool.available p') + size (ObjectPool.active p')
        <= 10)%nat.
Proof.
  eexists. split; [vm_compute; reflexivity|].
  apply (pool_never_exceeds_maxSize tenPool tenPoolNew _ 1
           (replicate 11 ObjectPool.Acquire)).
  - reflexivity.
  - vm_compute. reflexivity.
Defined.

Lemma resize_keeps_active_witness :
  exists p',
    ObjectPool.resize 1 pickyActive = (JS.Normal tt, p')
    /\ ObjectPool.active p' = ObjectPool.active pickyActive
    /\ ObjectPool.getTotalSize p'
       = Nat.max (Z.to_nat 1) (size (ObjectPool.active pickyActive)).
Proof.
  apply (resize_keeps_active 1 pickyActive).
  vm_compute. split; discriminate.
Defined.

Lemma batchAcquire_all_or_nothing_witness :
  exists e p',
    ObjectPool.batchAcquire 1 0 11 tenPoolNew = Some (JS.Throw e, p')
    /\ ObjectPool.active p' = ObjectPool.active tenPoolNew.
Proof.
  eexists _, _. split; [vm_compute; reflexivity|].
  apply (batchAcquire_all_or_nothing tenPool tenPoolNew tenPoolNew _ 0 1 [] 0
           11 (JS.Throw "Pool exhausted and cannot grow")).
  - intros a b E. exact E.
  - reflexivity.
  - reflexivity.
  - vm_compute. reflexivity.
Defined.

(** ** More of the particles *)

Lemma update_life (dt : Q) (p : DataParticle.t) :
  fst (DataParticle.update dt p) = negb (JS.Qleb (lifeOf p - dt) 0)
  /\ lifeOf (snd (DataParticle.update dt p)) = (lifeOf p - dt)%Q.
Proof.
  unfold DataParticle.update, lifeOf.
  destruct (JS.Qleb _ 0); split; reflexivity.
Qed.

Lemma update_motion (dt : Q) (p : DataParticle.t) :
  fst (DataParticle.update dt p) = true ->
  let p' := snd (DataParticle.update dt p) in
  Vector3.x (positionOf p') = (Vector3.x (positionOf p) + Vector3.x (velocityOf p) * dt)%Q
  /\ Vector3.y (positionOf p') = (Vector3.y (positionOf p) + Vector3.y (velocityOf p) * dt)%Q
  /\ Vector3.z (positionOf p') = (Vector3.z (positionOf p) + Vector3.z (velocityOf p) * dt)%Q
  /\ Vector3.x (velocityOf p') = Vector3.x (velocityOf p)
  /\ Vector3.z (velocityOf p') = Vector3.z (velocityOf p)
  /\ DataParticle.meshPosition (DataParticle.mesh p') = positionOf p'.
Proof.
  unfold DataParticle.update, positionOf, velocityOf.
  destruct (JS.Qleb _ 0); [discriminate|]. intros _. cbn. repeat split.
Qed.

(** X8.  Over the updates it survives, a particle moves in a straight line
    in x and z (gravity acts on y only): its position is the start plus
    the velocity times the accumulated time, and its life is the start
    minus that time. *)
Theorem particle_flies_straight (dts : list Q) : forall p : DataParticle.t,
  DataParticle.survives dts p = true ->
  let p' := DataParticle.updates dts p in
  (Vector3.x (positionOf p')
   == Vector3.x (positionOf p) + Vector3.x (velocityOf p) * totalTime dts)%Q
  /\ (Vector3.z (positionOf p')
      == Vector3.z (positionOf p) + Vector3.z (velocityOf p) * totalTime dts)%Q
  /\ (lifeOf p' == lifeOf p - totalTime dts)%Q.
Proof.
  induction dts as [|dt dts IH]; intros p Hs;
    cbn [DataParticle.survives DataParticle.updates totalTime fold_right] in *.
  - cbn zeta. repeat split; ring.
  - fold (totalTime dts).
    pose proof (update_motion dt p) as Hm.
    destruct (update_life dt p) as [_ Hl].
    destruct (DataParticle.update dt p) as [[|] p1]; [|discriminate].
    cbn [fst snd] in *. destruct (Hm eq_refl) as (Hx & _ & Hz & Hvx & Hvz & _).
    destruct (IH p1 Hs) as (Ix & Iz & Il). cbn zeta in *.
    rewrite Ix, Iz, Il, Hx, Hz, Hvx, Hvz, Hl. repeat split; ring.
Qed.

Lemma particle_flies_straight_witness :
  let p' := DataParticle.updates [1 # 1; 2 # 1; 1 # 2] gliding in
  (Vector3.x (positionOf p')
   == Vector3.x (positionOf gliding)
      + Vector3.x (velocityOf gliding) * totalTime [1 # 1; 2 # 1; 1 # 2])%Q
  /\ (Vector3.z (positionOf p')
      == Vector3.z (positionOf gliding)
         + Vector3.z (velocityOf gliding) * totalTime [1 # 1; 2 # 1; 1 # 2])%Q
  /\ (lifeOf p' == lifeOf gliding - totalTime [1 # 1; 2 # 1; 1 # 2])%Q.
Proof.
  apply (particle_flies_straight [1 # 1; 2 # 1; 1 # 2] gliding).
  vm_compute. reflexivity.
Defined.

Lemma spawnParticle_withinCap (sqrt : Q -> Q)
    (table : string -> ParticleSystem.TypeConfig) (fuel : nat)
    (r : ParticleSystem.Samples) (from to : Vector3.t) (ty : string)
    (color : Z) (s s1 : ParticleSystem.t) (res : JS.completion (option nat)) :
  withinCap s ->
  ParticleSystem.spawnParticle sqrt table fuel r from to ty color s
  = Some (res, s1) ->
  withinCap s1.
Proof.
  intros [Hnd Hcap]. unfold ParticleSystem.spawnParticle.
  destruct (_ <=? _)%nat eqn:E; [intros [= <- <-]; split; assumption|].
  apply Nat.leb_gt in E.
  destruct (ObjectPool.acquire _ _) as [[[obj|e] pool]|]; [| |discriminate].
  - intros [= <- <-]. unfold withinCap. cbn.
    destruct (decide (obj ∈ ParticleSystem.activeParticles s)) as [Hin|Hout].
    + split; assumption.
    + split.
      * apply NoDup_app. split; [exact Hnd|]. split.
        -- intros x Hx Hx'. apply list_elem_of_singleton in Hx'. subst x.
           contradiction.
        -- apply NoDup_singleton.
      * rewrite length_app. cbn. lia.
  - intros [= <- <-]. split; assumption.
Qed.

Lemma removeParticle_withinCap (now : Z) (r : nat) (s : ParticleSystem.t) :
  withinCap s -> withinCap (ParticleSystem.removeParticle now r s).
Proof.
  intros [Hnd Hcap]. unfold withinCap, ParticleSystem.removeParticle. cbn.
  split.
  - apply NoDup_filter. exact Hnd.
  - pose proof (length_filter (fun r' => r' <> r)
                  (ParticleSystem.activeParticles s)). lia.
Qed.

Lemma removeParticles_withinCap (now : Z) (rs : list nat) :
  forall s, withinCap s ->
    withinCap (foldl (fun acc r => ParticleSystem.removeParticle now r acc) s rs).
Proof.
  induction rs as [|r rs IH]; intros s Hs; cbn [foldl]; [exact Hs|].
  apply IH. apply removeParticle_withinCap. exact Hs.
Qed.

Lemma update_withinCap (now : Z) (dt : Q) (s : ParticleSystem.t) :
  withinCap s -> withinCap (ParticleSystem.update now dt s).
Proof.
  intros Hs. unfold ParticleSystem.update.
  destruct (negb (ParticleSystem.enabled s)); [exact Hs|].
  destruct (ParticleSystem.updateParticles _ _ _) as [objs dead].
  apply removeParticles_withinCap. exact Hs.
Qed.

Lemma spawnDataFlow_withinCap (sqrt : Q -> Q)
    (table : string -> ParticleSystem.TypeConfig) (fuel : nat)
    (r : ParticleSystem.Samples) (from to : Vector3.t)
    (color : Z) (s s1 : ParticleSystem.t) (res : JS.completion unit) :
  withinCap s ->
  ParticleSystem.spawnDataFlow sqrt table fuel r from to color s
  = Some (res, s1) ->
  withinCap s1.
Proof.
  intros Hs. unfold ParticleSystem.spawnDataFlow.
  destruct (JS.lt _ _); [intros [= <- <-]; exact Hs|].
  destruct (ParticleSystem.spawnParticle _ _ _ _ _ _ _ _ _)
    as [[[res'|e] s0]|] eqn:Es; [| |discriminate].
  - intros [= <- <-]. apply (spawnParticle_withinCap _ _ _ _ _ _ _ _ _ _ _ Hs) in Es.
    exact Es.
  - intros [= <- <-]. apply (spawnParticle_withinCap _ _ _ _ _ _ _ _ _ _ _ Hs) in Es.
    exact Es.
Qed.

Lemma run_withinCap (sqrt : Q -> Q)
    (table : string -> ParticleSystem.TypeConfig) (fuel : nat)
    (cs : list ParticleSystem.call) : forall s s',
  withinCap s ->
  ParticleSystem.run sqrt table fuel cs s = Some s' ->
  withinCap s'.
Proof.
  induction cs as [|c cs IH]; intros s s' Hs Hrun; cbn [ParticleSystem.run] in Hrun.
  - injection Hrun as <-. exact Hs.
  - destruct c as [r from to ty color|r from to color|now dt].
    + destruct (ParticleSystem.spawnParticle _ _ _ _ _ _ _ _ _)
        as [[res s1]|] eqn:Es; [|discriminate].
      apply (IH s1 s'); [|exact Hrun].
      apply (spawnParticle_withinCap _ _ _ _ _ _ _ _ _ _ _ Hs Es).
    + destruct (ParticleSystem.spawnDataFlow _ _ _ _ _ _ _ _)
        as [[res s1]|] eqn:Es; [|discriminate].
      apply (IH s1 s'); [|exact Hrun].
      apply (spawnDataFlow_withinCap _ _ _ _ _ _ _ _ _ _ Hs Es).
    + apply (IH (ParticleSystem.update now dt s) s'); [|exact Hrun].
      apply update_withinCap. exact Hs.
Qed.

Lemma run_config (sqrt : Q -> Q)
    (table : string -> ParticleSystem.TypeConfig) (fuel : nat)
    (cs : list ParticleSystem.call) : forall s s',
  ParticleSystem.run sqrt table fuel cs s = Some s' ->
  ParticleSystem.config s' = ParticleSystem.config s.
Proof.
  induction cs as [|c cs IH]; intros s s' Hrun; cbn [ParticleSystem.run] in Hrun.
  - injection Hrun as <-. reflexivity.
  - destruct c as [r from to ty color|r from to color|now dt].
    + destruct (ParticleSystem.spawnParticle _ _ _ _ _ _ _ _ _)
        as [[res s1]|] eqn:Es; [|discriminate].
      rewrite (IH s1 s' Hrun).
      apply (spawnParticle_config _ _ _ _ _ _ _ _ _ _ _ Es).
    + destruct (ParticleSystem.spawnDataFlow _ _ _ _ _ _ _ _)
        as [[res s1]|] eqn:Es; [|discriminate].
      rewrite (IH s1 s' Hrun). unfold ParticleSystem.spawnDataFlow in Es.
      destruct (JS.lt _ _); [injection Es as <- <-; reflexivity|].
      destruct (ParticleSystem.spawnParticle _ _ _ _ _ _ _ _ _)
        as [[[res'|e] s0]|] eqn:Es0; [| |discriminate];
        injection Es as <- <-; cbn;
        apply (spawnParticle_config _ _ _ _ _ _ _ _ _ _ _ Es0).
    + rewrite (IH (ParticleSystem.update now dt s) s' Hrun).
      apply (update_fields now dt s).
Qed.

(** X9.  On a system whose active particles are distinct and at most
    [maxParticles], an empty one in particular, they are so after every
    sequence of [spawnParticle], [spawnDataFlow] and [update] calls. *)
Theorem particle_cap_enforced (sqrt : Q -> Q)
    (table : string -> ParticleSystem.TypeConfig) (fuel : nat)
    (cs : list ParticleSystem.call) (s s' : ParticleSystem.t) :
  NoDup (ParticleSystem.activeParticles s) ->
  (ParticleSystem.getActiveCount s
   <= ParticleSystem.maxParticles (ParticleSystem.config s))%nat ->
  ParticleSystem.run sqrt table fuel cs s = Some s' ->
  NoDup (ParticleSystem.activeParticles s')
  /\ (ParticleSystem.getActiveCount s'
      <= ParticleSystem.maxParticles (ParticleSystem.config s))%nat.
Proof.
  intros Hnd0 Hcap0 Hrun.
  pose proof (run_config sqrt table fuel cs _ s' Hrun) as Hcfg.
  assert (H0 : withinCap s) by (split; assumption).
  destruct (run_withinCap sqrt table fuel cs _ s' H0 Hrun) as [Hnd Hcap].
  rewrite Hcfg in Hcap. split; [exact Hnd | exact Hcap].
Qed.

(** *** update removes the dead *)

Lemma updateParticles_effect (dt : Q) (rs : list nat) :
  NoDup rs ->
  forall objs,
    let objs' := fst (ParticleSystem.updateParticles dt rs objs) in
    let dead := snd (ParticleSystem.updateParticles dt rs objs) in
    (forall r, r ∈ dead <->
               r ∈ rs /\ fst (DataParticle.update dt
                                (default ParticleSystem.createParticle (objs !! r)))
                         = false)
    /\ (forall r, r ∈ rs ->
                  objs' !! r
                  = Some (snd (DataParticle.update dt
                                 (default ParticleSystem.createParticle (objs !! r)))))
    /\ (forall r, r ∉ rs -> objs' !! r = objs !! r).
Proof.
  induction 1 as [|r0 rs Hnotin Hnd IH]; intros objs; cbn zeta.
  - cbn. split; [|split].
    + intros r. split; [intros Hr; apply elem_of_nil in Hr; contradiction|].
      intros [Hr _]. apply elem_of_nil in Hr. contradiction.
    + intros r Hr. apply elem_of_nil in Hr. contradiction.
    + reflexivity.
  - cbn [ParticleSystem.updateParticles].
    destruct (DataParticle.update dt
                (default ParticleSystem.createParticle (objs !! r0)))
      as [alive p'] eqn:Eu.
    specialize (IH (<[r0 := p']> objs)). cbn zeta in IH.
    destruct (ParticleSystem.updateParticles dt rs (<[r0 := p']> objs))
      as [objs' dead] eqn:Er. cbn [fst snd] in *.
    destruct IH as (Hdead & Hin & Hout).
    assert (Hother : forall r, r ∈ rs ->
              (<[r0 := p']> objs) !! r = objs !! r).
    { intros r Hr. apply lookup_insert_ne. intros ->. contradiction. }
    split; [|split].
    + intros r. rewrite elem_of_cons.
      destruct alive.
      * rewrite Hdead. split.
        -- intros [Hr Hf]. split; [right; exact Hr|]. rewrite <- (Hother r Hr).
           exact Hf.
        -- intros [[->|Hr] Hf]; [rewrite Eu in Hf; discriminate|].
           split; [exact Hr|]. rewrite (Hother r Hr). exact Hf.
      * rewrite elem_of_cons, Hdead. split.
        -- intros [->|[Hr Hf]].
           ++ split; [left; reflexivity|]. rewrite Eu. reflexivity.
           ++ split; [right; exact Hr|]. rewrite <- (Hother r Hr). exact Hf.
        -- intros [[->|Hr] Hf]; [left; reflexivity|].
           right. split; [exact Hr|]. rewrite (Hother r Hr). exact Hf.
    + intros r Hr. apply elem_of_cons in Hr as [->|Hr].
      * rewrite (Hout r0 Hnotin), lookup_insert_eq, Eu. reflexivity.
      * rewrite (Hin r Hr), (Hother r Hr). reflexivity.
    + intros r Hr. rewrite not_elem_of_cons in Hr. destruct Hr as [Hne Hr].
      rewrite (Hout r Hr). apply lookup_insert_ne. congruence.
Qed.

Lemma removeParticles_effect (now : Z) (dead : list nat) :
  forall s,
    let s' := foldl (fun acc r => ParticleSystem.removeParticle now r acc) s dead in
    (forall r, r ∈ ParticleSystem.activeParticles s' <->
               r ∈ ParticleSystem.activeParticles s /\ r ∉ dead)
    /\ ParticleSystem.objects s' = ParticleSystem.objects s
    /\ (forall r, r ∈ dead ->
                  r ∉ ObjectPool.active (ParticleSystem.particlePool s')).
Proof.
  induction dead as [|d dead IH]; intros s; cbn zeta; cbn [foldl].
  - split; [|split].
    + intros r. split; [intros Hr; split; [exact Hr | apply not_elem_of_nil]|].
      intros [Hr _]. exact Hr.
    + reflexivity.
    + intros r Hr. apply elem_of_nil in Hr. contradiction.
  - destruct (IH (ParticleSystem.removeParticle now d s)) as (Hact & Hobj & Hpool).
    cbn zeta in *. split; [|split].
    + intros r. rewrite Hact. unfold ParticleSystem.removeParticle at 1. cbn.
      rewrite list_elem_of_filter, not_elem_of_cons. tauto.
    + rewrite Hobj. reflexivity.
    + intros r Hr.
      destruct (decide (r ∈ dead)) as [Hin|Hout]; [apply Hpool; exact Hin|].
      apply elem_of_cons in Hr as [->|Hr]; [|contradiction].
      clear - Hout. 
      assert (Hgone : d ∉ ObjectPool.active
                (ParticleSystem.particlePool
                   (ParticleSystem.removeParticle now d s))).
      { cbn. rewrite release_active. intros Hin.
        apply elem_of_difference in Hin as [_ Hne]. apply Hne.
        apply elem_of_singleton. reflexivity. }
      revert Hgone. generalize (ParticleSystem.removeParticle now d s).
      induction dead as [|d' dead IHd]; intros s0 Hgone; cbn [foldl];
        [exact Hgone|].
      apply IHd.
      * intros Hin. apply Hout. apply elem_of_cons. right. exact Hin.
      * cbn. rewrite release_active. intros Hin.
        apply elem_of_difference in Hin as [Hin _]. contradiction.
Qed.

(** X10.  One [update(dt)] of an enabled system keeps active exactly the
    particles with more than [dt] of life left, takes [dt] off their life,
    and releases the others to the pool in the same tick: none of them is
    still active there. *)
Theorem update_retires_the_dead (now : Z) (dt : Q) (s : ParticleSystem.t) :
  NoDup (ParticleSystem.activeParticles s) ->
  ParticleSystem.enabled s = true ->
  let s' := ParticleSystem.update now dt s in
  (forall r, r ∈ ParticleSystem.activeParticles s' <->
             r ∈ ParticleSystem.activeParticles s
             /\ (0 < lifeOf (ParticleSystem.deref s r) - dt)%Q)
  /\ (forall r, r ∈ ParticleSystem.activeParticles s' ->
                lifeOf (ParticleSystem.deref s' r)
                = (lifeOf (ParticleSystem.deref s r) - dt)%Q)
  /\ (forall r, r ∈ ParticleSystem.activeParticles s ->
                r ∉ ParticleSystem.activeParticles s' ->
                r ∉ ObjectPool.active (ParticleSystem.particlePool s')).
Proof.
  intros Hnd Hen. cbn zeta. unfold ParticleSystem.update. rewrite Hen.
  cbn [negb].
  pose proof (updateParticles_effect dt (ParticleSystem.activeParticles s) Hnd
                (ParticleSystem.objects s)) as Hu.
  cbn zeta in Hu. cbn [ParticleSystem.with_spawnTimer
    ParticleSystem.activeParticles ParticleSystem.objects].
  destruct (ParticleSystem.updateParticles dt
              (ParticleSystem.activeParticles s) (ParticleSystem.objects s))
    as [objs dead]. cbn [fst snd] in Hu. destruct Hu as (Hdead & Hin & _).
  match goal with
  | |- context [foldl ?f ?s2 dead] =>
      pose proof (removeParticles_effect now dead s2) as Hr
  end.
  cbn zeta in Hr. destruct Hr as (Hact & Hobj & Hpool).
  cbn [ParticleSystem.activeParticles ParticleSystem.objects] in Hact, Hobj.
  assert (Halive : forall r,
            fst (DataParticle.update dt (ParticleSystem.deref s r)) = false
            <-> ~ (0 < lifeOf (ParticleSystem.deref s r) - dt)%Q).
  { intros r. destruct (update_life dt (ParticleSystem.deref s r)) as [Ha _].
    rewrite Ha. destruct (JS.Qleb _ 0) eqn:E; cbn.
    - apply Qleb_le in E. split; [intros _ Hlt; lra | reflexivity].
    - apply Qleb_gt in E. split; [discriminate | intros Hn; contradiction]. }
  split; [|split].
  - intros r. rewrite Hact, Hdead. unfold ParticleSystem.deref in Halive.
    rewrite Halive. split.
    + intros [Hr Hn]. split; [exact Hr|].
      destruct (Qlt_le_dec 0 (lifeOf (default ParticleSystem.createParticle
                                        (ParticleSystem.objects s !! r)) - dt))
        as [Hlt|Hle]; [exact Hlt|].
      exfalso. apply Hn. split; [exact Hr|]. intros Hlt. lra.
    + intros [Hr Hlt]. split; [exact Hr|]. intros [_ Hn]. contradiction.
  - intros r Hr. apply Hact in Hr as [Hr _].
    unfold ParticleSystem.deref at 1. rewrite Hobj, (Hin r Hr). cbn [default].
    apply (update_life dt).
  - intros r Hr Hgone. apply Hpool. apply Hdead.
    destruct (decide (r ∈ dead)) as [Hd|Hd]; [apply Hdead in Hd; exact Hd|].
    exfalso. apply Hgone. apply Hact. split; assumption.
Qed.

Lemma particle_cap_enforced_witness :
  exists s s',
    assembled singleConfig = Some s
    /\ ParticleSystem.run sqrtOfSquare plainTable 1 busyCalls s = Some s'
    /\ NoDup (ParticleSystem.activeParticles s')
    /\ (ParticleSystem.getActiveCount s' <= 1)%nat.
Proof.
  eexists _, _.
  split; [vm_compute; reflexivity|].
  match goal with
  | |- ParticleSystem.run _ _ _ _ ?s = _ /\ _ => pose (s0 := s)
  end.
  split; [vm_compute; reflexivity|].
  apply (particle_cap_enforced sqrtOfSquare plainTable 1 busyCalls s0).
  - constructor.
  - vm_compute. lia.
  - vm_compute. reflexivity.
Defined.

Lemma update_retires_the_dead_witness :
  exists s,
    crowded = Some s
    /\ let s' := ParticleSystem.update 0 (2 # 10) s in
       (forall r, r ∈ ParticleSystem.activeParticles s' <->
                  r ∈ ParticleSystem.activeParticles s
                  /\ (0 < lifeOf (ParticleSystem.deref s r) - (2 # 10))%Q)
       /\ (forall r, r ∈ ParticleSystem.activeParticles s' ->
                     lifeOf (ParticleSystem.deref s' r)
                     = (lifeOf (ParticleSystem.deref s r) - (2 # 10))%Q)
       /\ (forall r, r ∈ ParticleSystem.activeParticles s ->
                     r ∉ ParticleSystem.activeParticles s' ->
                     r ∉ ObjectPool.active (ParticleSystem.particlePool s')).
Proof.
  eexists. split; [vm_compute; reflexivity|].
  match goal with
  | |- context [ParticleSystem.update 0 (2 # 10) ?s] => pose (s0 := s)
  end.
  apply (update_retires_the_dead 0 (2 # 10) s0).
  - vm_compute. apply NoDup_singleton.
  - vm_compute. reflexivity.
Defined.

(** ** More of the LOD manager *)

(** X11.  The tier is monotone in the distance, for any thresholds: an
    object that is farther away never gets a more detailed tier. *)
Theorem farther_is_never_finer (d : LODManager.Distances) (near far : Q) :
  (near <= far)%Q ->
  (tierRank (LODManager.tierOf d near) <= tierRank (LODManager.tierOf d far))%nat.
Proof.
  intros Hle. destruct d as [[h m] l]. unfold LODManager.tierOf.
  destruct (JS.Qleb far h) eqn:Fh.
  { apply Qleb_le in Fh. assert (E : JS.Qleb near h = true) by (apply Qleb_le; lra).
    rewrite E. cbn. lia. }
  destruct (JS.Qleb near h); [cbn; destruct (JS.Qleb far m), (JS.Qleb far l); cbn; lia|].
  destruct (JS.Qleb far m) eqn:Fm.
  { apply Qleb_le in Fm. assert (E : JS.Qleb near m = true) by (apply Qleb_le; lra).
    rewrite E. cbn. lia. }
  destruct (JS.Qleb near m); [cbn; destruct (JS.Qleb far l); cbn; lia|].
  destruct (JS.Qleb far l) eqn:Fl.
  { apply Qleb_le in Fl. assert (E : JS.Qleb near l = true) by (apply Qleb_le; lra).
    rewrite E. cbn. lia. }
  destruct (JS.Qleb near l); cbn; lia.
Qed.

(** X12.  When an object is re-evaluated (forced, or moved by more than 5
    units) its stored tier becomes the distance tier if the frustum test
    lets it through and [culled] otherwise, also when it is within the
    [high] threshold; the bookkeeping flag [isVisible] says visible exactly
    when the tier is not [culled]; the [visible] flag of the scene object
    and the set of visible objects follow only when that flag changes, so
    an object registered while hidden stays hidden and out of the set at a
    visible tier; the measured distance is stored and the force flag
    cleared. *)
Theorem reevaluated_tier (cfg : LODManager.LODConfig) (camera : bool)
    (distance : Q) (intersects : bool) (o : LODManager.LODObject)
    (p : LODManager.Pass) :
  LODManager.forceUpdate o = true
  \/ JS.gt (JS.abs (JS.sub (JS.Fin distance) (LODManager.lastDistance o)))
           (JS.Fin 5) = true ->
  let o' := fst (LODManager.updateLODObject cfg camera distance intersects o p) in
  let p' := snd (LODManager.updateLODObject cfg camera distance intersects o p) in
  let tier :=
    if inFrustum cfg camera intersects
    then match LODManager.tierOf (LODManager.distances cfg) distance with
         | Some l => l
         | None => LODManager.culled
         end
    else LODManager.culled in
  let shown := negb (LODManager.level_eqb tier LODManager.culled) in
  LODManager.lastLODLevel o' = tier
  /\ LODManager.isVisible o' = shown
  /\ LODManager.objectVisible o'
     = (if Bool.eqb (LODManager.isVisible o) shown
        then LODManager.objectVisible o else shown)
  /\ LODManager.passVisible p'
     = (if Bool.eqb (LODManager.isVisible o) shown
        then LODManager.passVisible p
        else if shown
             then {[LODManager.object o]} ∪ LODManager.passVisible p
             else LODManager.passVisible p ∖ {[LODManager.object o]})
  /\ LODManager.lastDistance o' = JS.Fin distance
  /\ LODManager.forceUpdate o' = false.
Proof.
  intros Hre. cbn zeta. unfold LODManager.updateLODObject, inFrustum.
  assert (Hgo : negb (LODManager.forceUpdate o)
                && negb (JS.gt (JS.abs (JS.sub (JS.Fin distance)
                                          (LODManager.lastDistance o)))
                               (JS.Fin 5)) = false).
  { destruct Hre as [-> | ->]; [reflexivity | apply andb_false_r]. }
  rewrite Hgo.
  destruct (if camera && LODManager.enableFrustumCulling cfg
            then intersects else true); cbn [negb].
  - destruct (LODManager.tierOf _ _) as [lvl|] eqn:Et.
    + assert (Hl : lvl <> LODManager.culled).
      { unfold LODManager.tierOf in Et.
        destruct (LODManager.distances cfg) as [[h m] l].
        destruct (JS.Qleb distance h); [injection Et as <-; discriminate|].
        destruct (JS.Qleb distance m); [injection Et as <-; discriminate|].
        destruct (JS.Qleb distance l); [injection Et as <-; discriminate|].
        discriminate. }
      unfold LODManager.setObjectVisibility. cbn.
      destruct (LODManager.isVisible o), (LODManager.lastLODLevel o), lvl;
        cbn; repeat split; try reflexivity; exfalso; apply Hl; reflexivity.
    + unfold LODManager.setObjectVisibility. cbn.
      destruct (LODManager.isVisible o); cbn; repeat split.
  - unfold LODManager.setObjectVisibility. cbn.
    destruct (LODManager.isVisible o); cbn; repeat split.
Qed.


Lemma farther_is_never_finer_witness :
  (tierRank (LODManager.tierOf (50, 100, 200)%Q 75)
   <= tierRank (LODManager.tierOf (50, 100, 200)%Q 150))%nat.
Proof.
  apply (farther_is_never_finer (50, 100, 200)%Q 75 150).
  vm_compute. discriminate.
Defined.

Lemma reevaluated_tier_witness :
  let r := LODManager.updateLODObject LODManager.defaultConfig true 30
             true hiddenDistrict
             (LODManager.mkPass ∅ (LODManager.mkStats 1 0 0 0 0 0 0) []) in
  LODManager.lastLODLevel (fst r) = LODManager.high
  /\ LODManager.isVisible (fst r) = true
  /\ LODManager.objectVisible (fst r) = false
  /\ LODManager.passVisible (snd r) = ∅
  /\ LODManager.lastDistance (fst r) = JS.Fin 30
  /\ LODManager.forceUpdate (fst r) = false.
Proof.
  apply (reevaluated_tier LODManager.defaultConfig true 30 true hiddenDistrict
           (LODManager.mkPass ∅ (LODManager.mkStats 1 0 0 0 0 0 0) [])).
  left. reflexivity.
Defined.

Lemma updateObjects_length (cfg : LODManager.LODConfig) (camera : bool)
    (probe : string -> Q * bool) (l : list (string * LODManager.LODObject)) :
  forall p, length (fst (LODManager.updateObjects cfg camera probe l p))
            = length l.
Proof.
  induction l as [|[k o] l IH]; intros p; cbn [LODManager.updateObjects];
    [reflexivity|].
  destruct (probe (LODManager.object o)) as [distance intersects].
  destruct (LODManager.updateLODObject cfg camera distance intersects o p)
    as [o' p1].
  specialize (IH p1).
  destruct (LODManager.updateObjects cfg camera probe l p1) as [rest' p2].
  cbn in *. rewrite IH. reflexivity.
Qed.

(** A pass that is not throttled sets the time of the last pass. *)
Lemma update_sets_time (now duration : Q) (camera : bool)
    (probe : string -> Q * bool) (m : LODManager.t) :
  JS.lt (JS.Fin (now - LODManager.lastUpdateTime m))
        (LODManager.updateInterval m) = false ->
  LODManager.lastUpdateTime (fst (LODManager.update now duration camera probe m))
  = now
  /\ LODManager.updateInterval
       (fst (LODManager.update now duration camera probe m))
     = LODManager.updateInterval m
  /\ length (LODManager.lodObjects
               (fst (LODManager.update now duration camera probe m)))
     = length (LODManager.lodObjects m).
Proof.
  intros Hgo. unfold LODManager.update. rewrite Hgo.
  pose proof (updateObjects_length (LODManager.config m) camera probe
                (LODManager.lodObjects m)) as Hlen.
  match goal with
  | |- context [LODManager.updateObjects ?a ?b ?c ?d ?e] =>
      specialize (Hlen e); destruct (LODManager.updateObjects a b c d e) as [objs p]
  end.
  cbn in *. repeat split. exact Hlen.
Qed.

(** X13.  After a pass that ran at [now], a call of [update] less than the
    update interval later does nothing: no object is touched and no event
    is emitted. *)
Theorem second_pass_throttled (now now' duration duration' : Q)
    (camera camera' : bool) (probe probe' : string -> Q * bool)
    (m : LODManager.t) :
  JS.lt (JS.Fin (now - LODManager.lastUpdateTime m))
        (LODManager.updateInterval m) = false ->
  JS.lt (JS.Fin (now' - now)) (LODManager.updateInterval m) = true ->
  let m1 := fst (LODManager.update now duration camera probe m) in
  LODManager.update now' duration' camera' probe' m1 = (m1, []).
Proof.
  intros Hgo Hstop. cbn zeta.
  destruct (update_sets_time now duration camera probe m Hgo) as (Ht & Hi & _).
  unfold LODManager.update at 1. rewrite Ht, Hi, Hstop. reflexivity.
Qed.

(** *** The counters of a pass *)

Lemma tierOf_not_culled (d : LODManager.Distances) (distance : Q) :
  LODManager.tierOf d distance <> Some LODManager.culled.
Proof.
  unfold LODManager.tierOf. destruct d as [[h m] l].
  destruct (JS.Qleb distance h); [discriminate|].
  destruct (JS.Qleb distance m); [discriminate|].
  destruct (JS.Qleb distance l); discriminate.
Qed.

Lemma updateLODObject_tallied (cfg : LODManager.LODConfig) (camera : bool)
    (distance : Q) (intersects : bool) (o : LODManager.LODObject)
    (p : LODManager.Pass) (n : Z) :
  tallied (LODManager.passStats p) n ->
  tallied (LODManager.passStats
             (snd (LODManager.updateLODObject cfg camera distance intersects o p)))
          (n + 1)
  /\ (LODManager.forceUpdate o = true ->
      let s := LODManager.passStats p in
      let s' := LODManager.passStats
                  (snd (LODManager.updateLODObject cfg camera distance
                          intersects o p)) in
      (LODManager.visibleCount s' + LODManager.culledObjects s'
       = LODManager.visibleCount s + LODManager.culledObjects s + 1)%Z).
Proof.
  unfold tallied. intros (Hsum & Hv & Hc & Hn).
  unfold LODManager.updateLODObject.
  destruct (LODManager.forceUpdate o); cbn [negb andb].
  - destruct (negb (if camera && LODManager.enableFrustumCulling cfg
                    then intersects else true)).
    + unfold LODManager.setObjectVisibility. cbn.
      destruct (Bool.eqb _ false); cbn; repeat split; intros; cbn in *; lia.
    + pose proof (tierOf_not_culled (LODManager.distances cfg) distance) as Hl.
      destruct (LODManager.tierOf _ _) as [lvl|].
      * unfold LODManager.setObjectVisibility. cbn.
        destruct (Bool.eqb _ true); cbn; rewrite orb_false_r;
          destruct (negb _); cbn; destruct lvl; cbn;
          try (exfalso; apply Hl; reflexivity);
          repeat split; intros; cbn in *; lia.
      * unfold LODManager.setObjectVisibility. cbn.
        destruct (Bool.eqb _ false); cbn; repeat split; intros; cbn in *; lia.
  - destruct (negb (JS.gt _ _)); cbn; [repeat split; (lia || discriminate)|].
    destruct (negb (if camera && LODManager.enableFrustumCulling cfg
                    then intersects else true)).
    + unfold LODManager.setObjectVisibility. cbn.
      destruct (Bool.eqb _ false); cbn; repeat split; cbn in *; (lia || discriminate).
    + pose proof (tierOf_not_culled (LODManager.distances cfg) distance) as Hl.
      destruct (LODManager.tierOf _ _) as [lvl|].
      * unfold LODManager.setObjectVisibility. cbn.
        destruct (Bool.eqb _ true); cbn; rewrite orb_false_r;
          destruct (negb _); cbn; destruct lvl; cbn;
          try (exfalso; apply Hl; reflexivity);
          repeat split; cbn in *; (lia || discriminate).
      * unfold LODManager.setObjectVisibility. cbn.
        destruct (Bool.eqb _ false); cbn; repeat split; cbn in *; (lia || discriminate).
Qed.

Lemma updateObjects_tallied (cfg : LODManager.LODConfig) (camera : bool)
    (probe : string -> Q * bool) (l : list (string * LODManager.LODObject)) :
  forall p n,
    tallied (LODManager.passStats p) n ->
    let p' := snd (LODManager.updateObjects cfg camera probe l p) in
    tallied (LODManager.passStats p') (n + Z.of_nat (length l))
    /\ (Forall (fun e => LODManager.forceUpdate (snd e) = true) l ->
        (LODManager.visibleCount (LODManager.passStats p')
         + LODManager.culledObjects (LODManager.passStats p')
         = LODManager.visibleCount (LODManager.passStats p)
           + LODManager.culledObjects (LODManager.passStats p)
           + Z.of_nat (length l))%Z).
Proof.
  induction l as [|[k o] l IH]; intros p n Hp; cbn zeta;
    cbn [LODManager.updateObjects].
  - cbn. split; [|intros _; lia]. unfold tallied in *. lia.
  - destruct (probe (LODManager.object o)) as [distance intersects].
    destruct (updateLODObject_tallied cfg camera distance intersects o p n Hp)
      as [H1 H1f].
    destruct (LODManager.updateLODObject cfg camera distance intersects o p)
      as [o' p1]. cbn [snd] in *.
    destruct (IH p1 (n + 1)%Z H1) as [H2 H2f]. cbn zeta in *.
    destruct (LODManager.updateObjects cfg camera probe l p1) as [rest' p2].
    cbn [snd length] in *. split.
    + replace (n + Z.of_nat (S (length l)))%Z
        with (n + 1 + Z.of_nat (length l))%Z by lia. exact H2.
    + intros Hall. inversion Hall as [|e l' Ho Hl]; subst. cbn [snd] in Ho.
      specialize (H1f Ho). specialize (H2f Hl). lia.
Qed.

(** X14.  After a pass the tier counters add up to [stats.visibleObjects],
    and visible and culled objects together are at most the tracked
    objects: the pass counts only the objects it re-evaluated, all of them
    when every object was marked for update. *)
Theorem pass_counters_add_up (now duration : Q) (camera : bool)
    (probe : string -> Q * bool) (m : LODManager.t) :
  JS.lt (JS.Fin (now - LODManager.lastUpdateTime m))
        (LODManager.updateInterval m) = false ->
  let s := LODManager.stats
             (fst (LODManager.update now duration camera probe m)) in
  let n := Z.of_nat (length (LODManager.lodObjects m)) in
  (LODManager.highCount s + LODManager.mediumCount s + LODManager.lowCount s
   = LODManager.visibleCount s)%Z
  /\ (0 <= LODManager.visibleCount s /\ 0 <= LODManager.culledObjects s)%Z
  /\ (LODManager.visibleCount s + LODManager.culledObjects s <= n)%Z
  /\ (Forall (fun e => LODManager.forceUpdate (snd e) = true)
             (LODManager.lodObjects m) ->
      (LODManager.visibleCount s + LODManager.culledObjects s = n)%Z).
Proof.
  intros Hgo. cbn zeta. unfold LODManager.update. rewrite Hgo.
  match goal with
  | |- context [LODManager.updateObjects ?a ?b ?c ?d ?e] =>
      assert (H0 : tallied (LODManager.passStats e) 0)
        by (unfold tallied; cbn; lia);
      pose proof (updateObjects_tallied a b c d e 0 H0) as Ht;
      destruct (LODManager.updateObjects a b c d e) as [objs p]
  end.
  cbn zeta in Ht. cbn [snd] in Ht. cbn.
  destruct Ht as [(Hsum & Hv & Hc & Hn) Hall].
  cbn in Hall.
  repeat split; first [assumption | intros Hf; specialize (Hall Hf); lia].
Qed.

(** *** View modes *)

(** X15.  A view-mode change scales the thresholds in force, not a base
    value, so two changes compound: the thresholds end up multiplied by
    both factors (1.2 for city, 0.6 for network, 1 for transition). *)
Theorem view_modes_compound (v1 v2 : LODManager.ViewMode) (m : LODManager.t) :
  let '(h, md, l) := LODManager.distances (LODManager.config m) in
  let '(h', md', l') :=
    LODManager.distances
      (LODManager.config
         (LODManager.handleViewModeChange v2
            (LODManager.handleViewModeChange v1 m))) in
  (h' == h * (viewFactor v1 * viewFactor v2)
   /\ md' == md * (viewFactor v1 * viewFactor v2)
   /\ l' == l * (viewFactor v1 * viewFactor v2))%Q.
Proof.
  unfold LODManager.handleViewModeChange.
  destruct (LODManager.distances (LODManager.config m)) as [[h md] l] eqn:Ed.
  destruct v1, v2; cbn; rewrite ?Ed; cbn; repeat split; ring.
Qed.

Lemma second_pass_throttled_witness :
  LODManager.update 110 1 false nearby settled = (settled, []).
Proof.
  apply (second_pass_throttled 100 110 1 1 false false nearby nearby
           oneDistrict).
  - vm_compute. reflexivity.
  - vm_compute. reflexivity.
Defined.

Lemma pass_counters_add_up_witness :
  let s := LODManager.stats settled in
  (LODManager.highCount s + LODManager.mediumCount s + LODManager.lowCount s
   = LODManager.visibleCount s)%Z
  /\ (0 <= LODManager.visibleCount s /\ 0 <= LODManager.culledObjects s)%Z
  /\ (LODManager.visibleCount s + LODManager.culledObjects s <= 1)%Z
  /\ (Forall (fun e => LODManager.forceUpdate (snd e) = true)
             (LODManager.lodObjects oneDistrict) ->
      (LODManager.visibleCount s + LODManager.culledObjects s = 1)%Z).
Proof.
  apply (pass_counters_add_up 100 1 false nearby oneDistrict).
  vm_compute. reflexivity.
Defined.

Lemma find_mapSet_same (k : string) (o : LODManager.LODObject)
    (l : list (string * LODManager.LODObject)) :
  find (fun e => String.eqb (fst e) k) (LODManager.mapSet k o l) = Some (k, o).
Proof.
  induction l as [|[k' o'] l IH]; cbn.
  - rewrite String.eqb_refl. reflexivity.
  - destruct (String.eqb k' k) eqn:E; cbn.
    + rewrite String.eqb_refl. reflexivity.
    + rewrite E. exact IH.
Qed.

Lemma find_mapSet_other (k k1 : string) (o : LODManager.LODObject)
    (l : list (string * LODManager.LODObject)) :
  k1 <> k ->
  find (fun e => String.eqb (fst e) k1) (LODManager.mapSet k o l)
  = find (fun e => String.eqb (fst e) k1) l.
Proof.
  intros Hne. assert (Hk : String.eqb k k1 = false).
  { apply String.eqb_neq. congruence. }
  induction l as [|[k' o'] l IH]; cbn.
  - rewrite Hk. reflexivity.
  - destruct (String.eqb k' k) eqn:E; cbn.
    + apply String.eqb_eq in E. subst k'. rewrite Hk. reflexivity.
    + destruct (String.eqb k' k1); [reflexivity | exact IH].
Qed.

Lemma find_filter_removed (k : string)
    (l : list (string * LODManager.LODObject)) :
  find (fun e => String.eqb (fst e) k) (filter (fun e => fst e <> k) l) = None.
Proof.
  induction l as [|[k' o'] l IH]; [reflexivity|].
  rewrite filter_cons. cbn [fst]. case_decide as Hd; [|exact IH].
  cbn. apply String.eqb_neq in Hd. rewrite Hd. exact IH.
Qed.

Lemma find_filter_other (k k1 : string)
    (l : list (string * LODManager.LODObject)) :
  k1 <> k ->
  find (fun e => String.eqb (fst e) k1) (filter (fun e => fst e <> k) l)
  = find (fun e => String.eqb (fst e) k1) l.
Proof.
  intros Hne. induction l as [|[k' o'] l IH]; [reflexivity|].
  rewrite filter_cons. cbn [fst]. case_decide as Hd; cbn.
  - destruct (String.eqb k' k1); [reflexivity | exact IH].
  - subst k'.
    assert (Hk : String.eqb k k1 = false) by (apply String.eqb_neq; congruence).
    rewrite Hk. exact IH.
Qed.

Lemma existsb_find_none (k : string)
    (l : list (string * LODManager.LODObject)) :
  find (fun e => String.eqb (fst e) k) l = None ->
  existsb (fun e => String.eqb (fst e) k) l = false.
Proof.
  induction l as [|[k' o'] l IH]; [reflexivity|]. cbn.
  destruct (String.eqb k' k); [discriminate|]. exact IH.
Qed.

(** X16.  [addObject] tracks the object as visible, [high], never measured
    and marked for update, replacing an entry of the same uuid, and leaves
    the other entries alone; [removeObject] removes the entry and only it;
    removing an untracked id changes nothing and emits nothing. *)
Theorem registry_round_trip (objectId : string) (visible : bool)
    (c : option LODManager.Component) (m : LODManager.t) :
  LODManager.lookupObject objectId
    (fst (LODManager.addObject objectId visible c m))
  = Some (LODManager.mkObject objectId visible c JS.PInf LODManager.high
                              true true)
  /\ (forall other, other <> objectId ->
        LODManager.lookupObject other
          (fst (LODManager.addObject objectId visible c m))
        = LODManager.lookupObject other m)
  /\ LODManager.lookupObject objectId (fst (LODManager.removeObject objectId m))
     = None
  /\ (forall other, other <> objectId ->
        LODManager.lookupObject other (fst (LODManager.removeObject objectId m))
        = LODManager.lookupObject other m)
  /\ (LODManager.lookupObject objectId m = None ->
      LODManager.removeObject objectId m = (m, [])).
Proof.
  unfold LODManager.lookupObject, LODManager.addObject, LODManager.removeObject.
  cbn [fst LODManager.lodObjects LODManager.with_stats LODManager.with_objects].
  split; [rewrite find_mapSet_same; reflexivity|].
  split; [intros other Hne; rewrite (find_mapSet_other _ _ _ _ Hne); reflexivity|].
  split.
  { destruct (existsb _ _) eqn:Ee; cbn.
    - rewrite find_filter_removed. reflexivity.
    - destruct (find _ (LODManager.lodObjects m)) as [e|] eqn:Ef; [|reflexivity].
      exfalso. apply find_some in Ef as [Hin He].
      assert (existsb (fun e => String.eqb (fst e) objectId)
                      (LODManager.lodObjects m) = true).
      { apply existsb_exists. exists e. split; assumption. }
      congruence. }
  split.
  { intros other Hne. destruct (existsb _ _); cbn; [|reflexivity].
    rewrite (find_filter_other _ _ _ Hne). reflexivity. }
  intros Hnone.
  destruct (find _ (LODManager.lodObjects m)) eqn:Ef; [discriminate|].
  rewrite (existsb_find_none _ _ Ef). reflexivity.
Qed.

(** ** More of the animation loop *)

Lemma drain_only_accumulator (fuel : nat) : forall s s' out,
  AnimationLoop.drain fuel s = Some (s', out) ->
  s' = AnimationLoop.with_accumulator (AnimationLoop.accumulator s') s.
Proof.
  induction fuel as [|fuel IH]; intros s s' out; cbn [AnimationLoop.drain];
    destruct (JS.Qgeb _ _); try discriminate;
    try (intros [= <- <-]; destruct s; reflexivity).
  destruct (AnimationLoop.drain fuel _) as [[s3 o3]|] eqn:E3; [|discriminate].
  intros [= <- <-]. apply IH in E3. rewrite E3 at 1. reflexivity.
Qed.


Lemma trackPerformance_effect (now : Z) (frameTime : Q) (s : AnimationLoop.t) :
  let s' := fst (AnimationLoop.trackPerformance now frameTime s) in
  updateSteps (snd (AnimationLoop.trackPerformance now frameTime s)) = []
  /\ AnimationLoop.isRunning s' = AnimationLoop.isRunning s
  /\ AnimationLoop.isPaused s' = AnimationLoop.isPaused s
  /\ AnimationLoop.config s' = AnimationLoop.config s
  /\ AnimationLoop.deltaTime s' = AnimationLoop.deltaTime s
  /\ AnimationLoop.elapsedTime s' = AnimationLoop.elapsedTime s
  /\ AnimationLoop.accumulator s' = AnimationLoop.accumulator s.
Proof.
  unfold AnimationLoop.trackPerformance. cbn.
  destruct (_ <? _)%Z; cbn; repeat split.
Qed.


(** *** Callbacks that throw *)

Lemma callAll_quiet (hooks : AnimationLoop.Hooks) (s : AnimationLoop.t)
    (calls : list AnimationLoop.effect) :
  (forall st e, hooks st e = false) ->
  AnimationLoop.callAll hooks s calls = (calls, false).
Proof.
  intros Hq. induction calls as [|e rest IH]; cbn [AnimationLoop.callAll];
    [reflexivity|].
  rewrite Hq, IH. reflexivity.
Qed.

Lemma drainWith_quiet (hooks : AnimationLoop.Hooks) (fuel : nat) :
  (forall st e, hooks st e = false) ->
  forall s,
    AnimationLoop.drainWith hooks fuel s
    = match AnimationLoop.drain fuel s with
      | Some (s', es) => Some (s', es, false)
      | None => None
      end.
Proof.
  intros Hq. induction fuel as [|fuel IH]; intros s;
    cbn [AnimationLoop.drainWith AnimationLoop.drain];
    destruct (JS.Qgeb _ _); try reflexivity.
  rewrite callAll_quiet by exact Hq. rewrite IH.
  destruct (AnimationLoop.drain fuel _) as [[s' es]|]; reflexivity.
Qed.

(** When no callback throws, [loopWith] is [loop]. *)
Lemma loopWith_quiet (hooks : AnimationLoop.Hooks) (fuel : nat) (now : Z)
    (currentTime : Q) (s : AnimationLoop.t) :
  (forall st e, hooks st e = false) ->
  AnimationLoop.loopWith hooks fuel now currentTime s
  = AnimationLoop.loop fuel now currentTime s.
Proof.
  intros Hq. unfold AnimationLoop.loopWith, AnimationLoop.loop.
  destruct (negb (AnimationLoop.isRunning s)); [reflexivity|].
  destruct (if AnimationLoop.enablePerformanceTracking _ then _ else _)
    as [s2 es1].
  destruct (AnimationLoop.isPaused s2); [reflexivity|].
  destruct (AnimationLoop.enableFixedTimeStep (AnimationLoop.config s2)).
  - unfold AnimationLoop.fixedTimeStepUpdateWith,
      AnimationLoop.fixedTimeStepUpdate.
    rewrite drainWith_quiet by exact Hq.
    destruct (AnimationLoop.drain fuel _) as [[s3 es]|]; [|reflexivity].
    rewrite callAll_quiet by exact Hq. reflexivity.
  - unfold AnimationLoop.variableTimeStepUpdateWith.
    rewrite callAll_quiet by exact Hq. reflexivity.
Qed.



(** *** The fixed step *)

Lemma drain_never_ends (fuel : nat) : forall s,
  (AnimationLoop.fixedTimeStep (AnimationLoop.config s) <= 0)%Q ->
  (AnimationLoop.fixedTimeStep (AnimationLoop.config s)
   <= AnimationLoop.accumulator s)%Q ->
  AnimationLoop.drain fuel s = None.
Proof.
  induction fuel as [|fuel IH]; intros s Hstep Hacc; cbn [AnimationLoop.drain];
    apply Qleb_le in Hacc as E; unfold JS.Qgeb; unfold JS.Qleb in E; rewrite E;
    [reflexivity|].
  rewrite IH; [reflexivity | exact Hstep |]. cbn. lra.
Qed.

(** With quiet callbacks. *)
Lemma loop_never_returns (fuel : nat) (now : Z) (currentTime step : Q)
    (s : AnimationLoop.t) :
  AnimationLoop.isRunning s = true ->
  AnimationLoop.isPaused s = false ->
  (step <= 0)%Q ->
  (0 <= AnimationLoop.accumulator s)%Q ->
  (AnimationLoop.lastTime s <= currentTime)%Q ->
  (0 <= AnimationLoop.maxDeltaTime (AnimationLoop.config s))%Q ->
  AnimationLoop.loop fuel now currentTime
    (AnimationLoop.setFixedTimeStep true (Some step) s) = None.
Proof.
  intros Hr Hp Hstep Hacc Htime Hmax.
  assert (Hdt : (0 <= Qmin ((currentTime - AnimationLoop.lastTime s) / 1000)
                           (AnimationLoop.maxDeltaTime (AnimationLoop.config s)))%Q).
  { apply Q.min_glb; [|exact Hmax].
    apply Qle_shift_div_l; [reflexivity | lra]. }
  assert (Hnone : forall s2,
            AnimationLoop.fixedTimeStep (AnimationLoop.config s2) = step ->
            (0 <= AnimationLoop.accumulator s2 + AnimationLoop.deltaTime s2)%Q ->
            AnimationLoop.fixedTimeStepUpdate fuel s2 = None).
  { intros s2 Hc Hsum. unfold AnimationLoop.fixedTimeStepUpdate.
    rewrite drain_never_ends; [reflexivity | |];
      cbn [AnimationLoop.with_accumulator AnimationLoop.accumulator
           AnimationLoop.config]; rewrite Hc; [exact Hstep|].
    unfold AnimationLoop.maxAccumulator. destruct (JS.Qgtb _ _); lra. }
  unfold AnimationLoop.loop.
  cbn [AnimationLoop.setFixedTimeStep AnimationLoop.with_config
       AnimationLoop.isRunning AnimationLoop.isPaused AnimationLoop.lastTime
       AnimationLoop.config AnimationLoop.maxDeltaTime
       AnimationLoop.enablePerformanceTracking AnimationLoop.scheduled
       AnimationLoop.elapsedTime AnimationLoop.frameCount
       AnimationLoop.fpsHistory AnimationLoop.frameTimeHistory
       AnimationLoop.lastPerformanceUpdate AnimationLoop.accumulator].
  rewrite Hr. cbn [negb].
  set (s1 := AnimationLoop.mk _ _ _ _ _ _ _ _ _ _ _ _).
  pose proof (trackPerformance_effect now
                (currentTime - AnimationLoop.lastTime s) s1)
    as (_ & _ & Hp2 & Hp3 & Hp4 & _ & Hp6).
  assert (Hgo : forall s2 (es1 : list AnimationLoop.effect),
            AnimationLoop.isPaused s2 = false ->
            AnimationLoop.config s2 = AnimationLoop.config s1 ->
            AnimationLoop.deltaTime s2 = AnimationLoop.deltaTime s1 ->
            AnimationLoop.accumulator s2 = AnimationLoop.accumulator s1 ->
            (if AnimationLoop.isPaused s2
             then Some (AnimationLoop.with_scheduled true s2,
                        es1 ++ [AnimationLoop.RequestFrame])
             else
               match
                 (if AnimationLoop.enableFixedTimeStep (AnimationLoop.config s2)
                  then AnimationLoop.fixedTimeStepUpdate fuel s2
                  else Some (s2, AnimationLoop.variableTimeStepUpdate s2))
               with
               | Some (s3, es2) =>
                   Some (AnimationLoop.with_scheduled true s3,
                         es1 ++ es2 ++
                         (if AnimationLoop.enableAdaptiveFrameRate
                               (AnimationLoop.config s3)
                          then AnimationLoop.scheduleAdaptiveFrame s3
                          else [AnimationLoop.RequestFrame]))
               | None => None
               end) = None).
  { intros s2 es1 H2 H3 H4 H6. rewrite H2, H3. cbn [s1 AnimationLoop.config
      AnimationLoop.enableFixedTimeStep].
    rewrite Hnone; [reflexivity | rewrite H3; reflexivity |].
    rewrite H4, H6. cbn [s1 AnimationLoop.deltaTime AnimationLoop.accumulator].
    lra. }
  destruct (AnimationLoop.enablePerformanceTracking (AnimationLoop.config s)).
  - destruct (AnimationLoop.trackPerformance now _ s1) as [s2 es1].
    cbn [fst snd] in *. apply Hgo; try assumption.
    rewrite Hp2. exact Hp.
  - apply Hgo; try reflexivity. exact Hp.
Qed.

Lemma drainWith_never_ends (hooks : AnimationLoop.Hooks) (fuel : nat) :
  (forall st e, hooks st e = false) ->
  forall s,
  (AnimationLoop.fixedTimeStep (AnimationLoop.config s) <= 0)%Q ->
  (AnimationLoop.fixedTimeStep (AnimationLoop.config s)
   <= AnimationLoop.accumulator s)%Q ->
  AnimationLoop.drainWith hooks fuel s = None.
Proof.
  intros Hq s Hstep Hacc. rewrite drainWith_quiet by exact Hq.
  rewrite drain_never_ends by assumption. reflexivity.
Qed.

(** X19.  [setFixedTimeStep] takes any step.  With a step of zero or
    less, a frame of a running loop that is not paused, whose accumulator
    and [maxDeltaTime] are not negative and whose clock has not run
    backwards, never leaves the [while] loop of [fixedTimeStepUpdate] as
    long as no callback throws: no number of rounds is enough. *)
Theorem zero_step_never_returns (hooks : AnimationLoop.Hooks) (fuel : nat)
    (now : Z) (currentTime step : Q) (s : AnimationLoop.t) :
  (forall st e, hooks st e = false) ->
  AnimationLoop.isRunning s = true ->
  AnimationLoop.isPaused s = false ->
  (step <= 0)%Q ->
  (0 <= AnimationLoop.accumulator s)%Q ->
  (AnimationLoop.lastTime s <= currentTime)%Q ->
  (0 <= AnimationLoop.maxDeltaTime (AnimationLoop.config s))%Q ->
  AnimationLoop.loopWith hooks fuel now currentTime
    (AnimationLoop.setFixedTimeStep true (Some step) s) = None.
Proof.
  intros Hq Hr Hp Hstep Hacc Htime Hmax.
  rewrite loopWith_quiet by exact Hq.
  apply loop_never_returns; assumption.
Qed.


Lemma zero_step_never_returns_witness :
  AnimationLoop.loopWith AnimationLoop.quiet 1000 0 16
    (AnimationLoop.setFixedTimeStep true (Some 0%Q) steppedLoop) = None.
Proof.
  apply (zero_step_never_returns AnimationLoop.quiet 1000 0 16 0 steppedLoop);
    first [reflexivity | vm_compute; discriminate].
Defined.

(** *** The state of a loop over any history of events *)

Lemma wellFormed_same (s s' : AnimationLoop.t) :
  AnimationLoop.isRunning s' = AnimationLoop.isRunning s ->
  AnimationLoop.isPaused s' = AnimationLoop.isPaused s ->
  AnimationLoop.fpsHistory s' = AnimationLoop.fpsHistory s ->
  AnimationLoop.frameTimeHistory s' = AnimationLoop.frameTimeHistory s ->
  wellFormed s -> wellFormed s'.
Proof.
  unfold wellFormed. intros -> -> -> ->. tauto.
Qed.

Lemma trackPerformance_wellFormed (now : Z) (frameTime : Q)
    (s : AnimationLoop.t) :
  wellFormed s ->
  wellFormed (fst (AnimationLoop.trackPerformance now frameTime s)).
Proof.
  unfold wellFormed, AnimationLoop.trackPerformance.
  cbn [fst AnimationLoop.isPaused AnimationLoop.isRunning
       AnimationLoop.fpsHistory AnimationLoop.frameTimeHistory].
  intros (Hp & Hl & Hle). split; [exact Hp|].
  destruct (60 <? _)%nat eqn:E.
  - rewrite !length_drop, !length_app. cbn [length]. lia.
  - apply Nat.ltb_ge in E. rewrite !length_app in *. cbn [length] in *. lia.
Qed.

Lemma fixedTimeStepUpdate_wellFormed (fuel : nat) (s s' : AnimationLoop.t)
    (out : list AnimationLoop.effect) :
  AnimationLoop.fixedTimeStepUpdate fuel s = Some (s', out) ->
  wellFormed s -> wellFormed s'.
Proof.
  unfold AnimationLoop.fixedTimeStepUpdate.
  destruct (AnimationLoop.drain fuel _) as [[s3 o3]|] eqn:Ed; [|discriminate].
  intros [= <- <-]. apply drain_only_accumulator in Ed.
  apply wellFormed_same; rewrite Ed; reflexivity.
Qed.

Lemma loop_wellFormed (fuel : nat) (now : Z) (currentTime : Q)
    (s s' : AnimationLoop.t) (out : list AnimationLoop.effect) :
  AnimationLoop.loop fuel now currentTime s = Some (s', out) ->
  wellFormed s -> wellFormed s'.
Proof.
  unfold AnimationLoop.loop. intros Hl Hw.
  destruct (AnimationLoop.isRunning s) eqn:Hr; cbn [negb] in Hl;
    [|injection Hl as <- <-; exact Hw].
  set (s1 := AnimationLoop.mk _ _ _ _ _ _ _ _ _ _ _ _) in Hl.
  assert (Hw1 : wellFormed s1).
  { revert Hw. apply wellFormed_same; try reflexivity. symmetry; exact Hr. }
  assert (Hgo : forall s2 (es1 : list AnimationLoop.effect),
            wellFormed s2 ->
            (if AnimationLoop.isPaused s2
             then Some (AnimationLoop.with_scheduled true s2,
                        es1 ++ [AnimationLoop.RequestFrame])
             else
               match
                 (if AnimationLoop.enableFixedTimeStep (AnimationLoop.config s2)
                  then AnimationLoop.fixedTimeStepUpdate fuel s2
                  else Some (s2, AnimationLoop.variableTimeStepUpdate s2))
               with
               | Some (s3, es2) =>
                   Some (AnimationLoop.with_scheduled true s3,
                         es1 ++ es2 ++
                         (if AnimationLoop.enableAdaptiveFrameRate
                               (AnimationLoop.config s3)
                          then AnimationLoop.scheduleAdaptiveFrame s3
                          else [AnimationLoop.RequestFrame]))
               | None => None
               end) = Some (s', out) ->
            wellFormed s').
  { intros s2 es1 Hw2 H2. destruct (AnimationLoop.isPaused s2).
    - injection H2 as <- <-. revert Hw2. apply wellFormed_same; reflexivity.
    - destruct (AnimationLoop.enableFixedTimeStep _).
      + destruct (AnimationLoop.fixedTimeStepUpdate fuel s2) as [[s3 es2]|] eqn:Ef;
          [|discriminate].
        injection H2 as <- <-.
        apply (wellFormed_same s3); try reflexivity.
        exact (fixedTimeStepUpdate_wellFormed _ _ _ _ Ef Hw2).
      + injection H2 as <- <-. revert Hw2. apply wellFormed_same; reflexivity. }
  destruct (AnimationLoop.enablePerformanceTracking (AnimationLoop.config s1)).
  - pose proof (trackPerformance_wellFormed now
                  (currentTime - AnimationLoop.lastTime s) s1 Hw1) as Hw2.
    destruct (AnimationLoop.trackPerformance now _ s1) as [s2 es1].
    exact (Hgo s2 es1 Hw2 Hl).
  - exact (Hgo s1 [] Hw1 Hl).
Qed.

Lemma handle_wellFormed (fuel : nat) (e : AnimationLoop.event)
    (s s' : AnimationLoop.t) (out : list AnimationLoop.effect) :
  AnimationLoop.handle fuel e s = Some (s', out) ->
  wellFormed s -> wellFormed s'.
Proof.
  destruct e as [now currentTime|now| | |now|]; cbn [AnimationLoop.handle].
  - apply loop_wellFormed.
  - unfold AnimationLoop.start. destruct (AnimationLoop.isRunning s);
      intros [= <- <-]; [tauto|].
    unfold wellFormed. cbn. tauto.
  - unfold AnimationLoop.stop. destruct (AnimationLoop.isRunning s);
      cbn [negb]; intros [= <- <-]; [|tauto].
    unfold wellFormed. cbn. intros (_ & H); split; [discriminate | exact H].
  - unfold AnimationLoop.pause.
    destruct (AnimationLoop.isRunning s) eqn:Hr; cbn [negb orb];
      [destruct (AnimationLoop.isPaused s)|]; intros [= <- <-]; try tauto.
    unfold wellFormed. cbn. intros (_ & H); split; [intros _; reflexivity | exact H].
  - unfold AnimationLoop.resume.
    destruct (AnimationLoop.isRunning s) eqn:Hr; cbn [negb orb];
      [destruct (AnimationLoop.isPaused s)|]; cbn [negb]; intros [= <- <-];
      try tauto.
    unfold wellFormed. cbn. intros (_ & H); split; [discriminate | exact H].
  - unfold AnimationLoop.step.
    destruct (AnimationLoop.isRunning s && negb (AnimationLoop.isPaused s));
      intros [= <- <-]; [tauto|].
    apply wellFormed_same; reflexivity.
Qed.

Lemma run_wellFormed (fuel : nat) (es : list AnimationLoop.event) :
  forall (s s' : AnimationLoop.t) (out : list AnimationLoop.effect),
  AnimationLoop.run fuel es s = Some (s', out) ->
  wellFormed s -> wellFormed s'.
Proof.
  induction es as [|e rest IH]; intros s s' out; cbn [AnimationLoop.run].
  - intros [= <- <-]. tauto.
  - destruct (AnimationLoop.handle fuel e s) as [[s1 o1]|] eqn:Eh; [|discriminate].
    destruct (AnimationLoop.run fuel rest s1) as [[s2 o2]|] eqn:Er; [|discriminate].
    intros [= <- <-] Hw. apply (IH _ _ _ Er).
    exact (handle_wellFormed _ _ _ _ _ Eh Hw).
Qed.

(** X20.  From the constructor on, over every history of frames and of
    [start], [stop], [pause], [resume] and [step] calls, a loop is paused
    only while it runs, and its two performance histories have the same
    length, of sixty samples at most. *)
Theorem loop_state_well_formed (fuel : nat) (c : AnimationLoop.AnimationLoopConfig)
    (es : list AnimationLoop.event) (s : AnimationLoop.t)
    (out : list AnimationLoop.effect) :
  AnimationLoop.run fuel es (AnimationLoop.construct c) = Some (s, out) ->
  wellFormed s.
Proof.
  intros Hr. apply (run_wellFormed _ _ _ _ _ Hr).
  unfold wellFormed. cbn. split; [discriminate | split; [reflexivity | lia]].
Qed.

Lemma loop_state_well_formed_witness :
  exists s out,
    AnimationLoop.run 15
      [AnimationLoop.Start 0; AnimationLoop.Frame 600 16; AnimationLoop.Pause;
       AnimationLoop.Frame 1200 33; AnimationLoop.Step; AnimationLoop.Stop]
      (AnimationLoop.construct
         (AnimationLoop.mkConfig 60 true true (1 # 10) true (1 # 60)))
    = Some (s, out)
    /\ wellFormed s.
Proof.
  eexists _, _. split; [vm_compute; reflexivity|].
  match goal with |- wellFormed ?s => pose (s0 := s) end.
  apply (loop_state_well_formed 15
           (AnimationLoop.mkConfig 60 true true (1 # 10) true (1 # 60))
           [AnimationLoop.Start 0; AnimationLoop.Frame 600 16;
            AnimationLoop.Pause; AnimationLoop.Frame 1200 33;
            AnimationLoop.Step; AnimationLoop.Stop] s0
           (match AnimationLoop.run 15
              [AnimationLoop.Start 0; AnimationLoop.Frame 600 16;
               AnimationLoop.Pause; AnimationLoop.Frame 1200 33;
               AnimationLoop.Step; AnimationLoop.Stop]
              (AnimationLoop.construct
                 (AnimationLoop.mkConfig 60 true true (1 # 10) true (1 # 60)))
            with Some (_, o) => o | None => [] end)).
  vm_compute; reflexivity.
Defined.

(** ** More of the camera *)

Lemma clamp_between (lo hi x : Q) :
  (lo <= hi)%Q -> (lo <= Qmax lo (Qmin hi x) <= hi)%Q.
Proof.
  intros H. split; [apply Q.le_max_l|].
  apply Q.max_lub; [exact H | apply Q.le_min_l].
Qed.

Lemma update_clampedTargets (now : Z) (dt : Q) (c : Camera.t) :
  clampedTargets c -> clampedTargets (Camera.update now dt c).
Proof.
  unfold clampedTargets, Camera.update.
  destruct (updateWith_effect JS.unrounded now dt c) as (Ht & _).
  cbn zeta in Ht. rewrite Ht. tauto.
Qed.

Lemma setDistance_clampedTargets (d : JS.number) (smooth : bool)
    (c : Camera.t) :
  clampedTargets c -> clampedTargets (Camera.setDistance d smooth c).
Proof.
  unfold clampedTargets, Camera.setDistance.
  destruct smooth; camera_fields; tauto.
Qed.

Lemma setAngle_clampedTargets (a : Q) (smooth : bool) (c : Camera.t) :
  clampedTargets c -> clampedTargets (Camera.setAngle a smooth c).
Proof.
  unfold clampedTargets, Camera.setAngle.
  destruct smooth; camera_fields; tauto.
Qed.

Lemma setElevation_clampedTargets (e : Q) (smooth : bool) (c : Camera.t) :
  clampedTargets c -> clampedTargets (Camera.setElevation e smooth c).
Proof.
  pose proof (clamp_between Camera.minElevation Camera.maxElevation e
                ltac:(discriminate)) as Hc.
  unfold clampedTargets, Camera.setElevation, Camera.setElevationWith.
  change (Camera.minElevationWith JS.unrounded) with Camera.minElevation.
  change (Camera.maxElevationWith JS.unrounded) with Camera.maxElevation.
  destruct smooth; camera_fields; tauto.
Qed.

Lemma setTarget_clampedTargets (v : Vector3.t) (smooth : bool)
    (c : Camera.t) :
  clampedTargets c -> clampedTargets (Camera.setTarget v smooth c).
Proof.
  unfold clampedTargets, Camera.setTarget.
  destruct smooth; camera_fields; tauto.
Qed.

Lemma setFOV_clampedTargets (f : Q) (smooth : bool) (c : Camera.t) :
  clampedTargets c -> clampedTargets (Camera.setFOV f smooth c).
Proof.
  pose proof (clamp_between 10 120 f ltac:(discriminate)) as Hc.
  unfold clampedTargets, Camera.setFOV.
  destruct smooth; camera_fields; tauto.
Qed.

Lemma startTransition_clampedTargets (d : Q) (now : Z) (c : Camera.t) :
  clampedTargets c -> clampedTargets (Camera.startTransition d now c).
Proof. unfold clampedTargets. camera_fields. tauto. Qed.

Lemma perform_clampedTargets (k : Camera.call) (c : Camera.t) :
  clampedTargets c -> clampedTargets (Camera.perform k c).
Proof.
  intros H. destruct k; cbn [Camera.perform].
  - apply update_clampedTargets, H.
  - apply setDistance_clampedTargets, H.
  - apply setAngle_clampedTargets, H.
  - apply setElevation_clampedTargets, H.
  - apply setTarget_clampedTargets, H.
  - apply setFOV_clampedTargets, H.
  - apply setElevation_clampedTargets, setAngle_clampedTargets, H.
  - apply setDistance_clampedTargets, H.
  - apply setDistance_clampedTargets, H.
  - apply setDistance_clampedTargets, H.
  - unfold Camera.focusOn.
    assert (H0 : clampedTargets (if transition
                                 then Camera.startTransition 1000 now c else c))
      by (destruct transition; [apply startTransition_clampedTargets|]; exact H).
    destruct d; [apply setDistance_clampedTargets|];
      apply setTarget_clampedTargets, H0.
  - unfold Camera.setViewMode.
    apply setFOV_clampedTargets, setElevation_clampedTargets,
      setAngle_clampedTargets, setDistance_clampedTargets.
    destruct transition; [apply startTransition_clampedTargets|]; exact H.
  - unfold Camera.reset.
    apply setFOV_clampedTargets, setTarget_clampedTargets,
      setElevation_clampedTargets, setAngle_clampedTargets,
      setDistance_clampedTargets.
    destruct transition; [apply startTransition_clampedTargets|]; exact H.
  - apply startTransition_clampedTargets, H.
  - revert H. unfold clampedTargets. camera_fields. tauto.
Qed.

(** X21.  Once the target elevation and the target field of view of a
    camera are within the bounds that [setElevation] and [setFOV] clamp
    to, they stay within them whatever is asked of the camera: over every
    sequence of the setters (smooth or not), [orbit], the zooms,
    [focusOn], [setViewMode], [reset], the transitions and [update]. *)
Theorem targets_stay_clamped (ks : list Camera.call) (c : Camera.t) :
  clampedTargets c -> clampedTargets (Camera.run ks c).
Proof.
  unfold Camera.run. revert c.
  induction ks as [|k ks IH]; intros c H; cbn [fold_left]; [exact H|].
  apply IH, perform_clampedTargets, H.
Qed.

Lemma targets_stay_clamped_witness :
  clampedTargets restingCamera
  /\ clampedTargets (Camera.run busyCamera restingCamera).
Proof.
  assert (H : clampedTargets restingCamera).
  { repeat split; vm_compute; discriminate. }
  split; [exact H|].
  apply (targets_stay_clamped busyCamera restingCamera). exact H.
Defined.

(** *** Smoothing towards the target *)

Lemma decay_range (k : Q) (n : nat) :
  (0 < k <= 1)%Q -> (0 <= decay k n <= 1)%Q.
Proof.
  intros [Hk0 Hk1]. induction n as [|n [IH0 IH1]]; cbn [decay]; [lra|].
  assert (H1 : (0 <= (1 - k) * decay k n)%Q)
    by (apply Qmult_le_0_compat; lra).
  assert (H2 : (0 <= (1 - k) * (1 - decay k n))%Q)
    by (apply Qmult_le_0_compat; lra).
  split; [exact H1|].
  assert (E : ((1 - k) * decay k n
               == (1 - k) - (1 - k) * (1 - decay k n))%Q) by ring.
  rewrite E. lra.
Qed.

Lemma distanceGap_update (now : Z) (dt : Q) (c : Camera.t) :
  (0 < Camera.smoothing (Camera.config c) <= 1)%Q ->
  (Qabs (distanceGap c) <= 1 # 100
   /\ distanceGap (Camera.update now dt c) == distanceGap c)%Q
  \/ (Qabs (distanceGap (Camera.update now dt c))
      == (1 - Camera.smoothing (Camera.config c)) * Qabs (distanceGap c))%Q.
Proof.
  intros [Hk0 Hk1]. unfold distanceGap, Camera.update.
  destruct (updateWith_effect JS.unrounded now dt c) as (Etg & _ & _ & Es).
  cbn zeta in Etg, Es. rewrite Etg, Es. clear Etg Es.
  cbn [Camera.distance].
  set (k := Camera.smoothing (Camera.config c)) in *.
  assert (Hpos : JS.Qltb 0 k = true) by (apply Qltb_lt; exact Hk0).
  assert (Hneg : JS.Qltb k 0 = false) by (apply Qltb_ge; lra).
  destruct (Camera.distance (Camera.state c)) as [s| | |],
           (Camera.distance (Camera.targetState c)) as [t| | |];
    try (left; split; [discriminate|];
         unfold Camera.smoothedNumber, Camera.movesNumber, JS.unrounded;
         cbn; rewrite ?Hpos, ?Hneg; cbn; reflexivity).
  rewrite smoothedNumber_finite. cbn [JS.sub].
  unfold Camera.smoothed, Camera.moves, JS.unrounded.
  destruct (JS.Qgtb _ (1 # 100)) eqn:E.
  - right.
    assert (Eg : (t - (s + (t - s) * k) == (1 - k) * (t - s))%Q) by ring.
    rewrite Eg, Qabs_Qmult, (Qabs_pos (1 - k)); [reflexivity | lra].
  - left. apply Qltb_ge in E. split; [exact E | reflexivity].
Qed.

Lemma updates_config (ticks : list (Z * Q)) : forall c,
  Camera.config (Camera.updates ticks c) = Camera.config c.
Proof.
  unfold Camera.updates.
  induction ticks as [|t ticks IH]; intros c; cbn [fold_left]; [reflexivity|].
  rewrite IH. unfold Camera.update.
  apply (updateWith_effect JS.unrounded (fst t) (snd t) c).
Qed.

Lemma distanceGap_updates (ticks : list (Z * Q)) : forall c,
  (0 < Camera.smoothing (Camera.config c) <= 1)%Q ->
  (Qabs (distanceGap (Camera.updates ticks c)) <= 1 # 100)%Q
  \/ (Qabs (distanceGap (Camera.updates ticks c))
      <= Qabs (distanceGap c)
         * decay (Camera.smoothing (Camera.config c)) (length ticks))%Q.
Proof.
  induction ticks as [|t ticks IH]; intros c Hk.
  - right. cbn. lra.
  - change (Camera.updates (t :: ticks) c)
      with (Camera.updates ticks (Camera.update (fst t) (snd t) c)).
    set (c1 := Camera.update (fst t) (snd t) c).
    assert (Ecfg : Camera.config c1 = Camera.config c).
    { unfold c1, Camera.update.
      apply (updateWith_effect JS.unrounded (fst t) (snd t) c). }
    specialize (IH c1). rewrite Ecfg in IH. specialize (IH Hk).
    destruct IH as [IH|IH]; [left; exact IH|].
    pose proof (decay_range _ (length ticks) Hk) as [Hd0 Hd1].
    pose proof (Qabs_nonneg (distanceGap c)) as Hg.
    pose proof (Qabs_nonneg (distanceGap c1)) as Hg1.
    set (k := Camera.smoothing (Camera.config c)) in *.
    set (D := decay k (length ticks)) in *.
    destruct (distanceGap_update (fst t) (snd t) c Hk) as [[Hin Hsame]|Hmove];
      fold c1 in Hsame || fold c1 in Hmove.
    + left. rewrite Hsame in IH.
      assert (H1 : (0 <= Qabs (distanceGap c) * (1 - D))%Q)
        by (apply Qmult_le_0_compat; lra).
      assert (E : (Qabs (distanceGap c) * D
                   == Qabs (distanceGap c)
                      - Qabs (distanceGap c) * (1 - D))%Q) by ring.
      rewrite E in IH. lra.
    + right. cbn [length decay]. fold k. fold D.
      fold k in Hmove. rewrite Hmove in IH.
      assert (E : (Qabs (distanceGap c) * ((1 - k) * D)
                   == (1 - k) * Qabs (distanceGap c) * D)%Q) by ring.
      rewrite E. exact IH.
Qed.

(** X22.  With a smoothing factor [k] in (0, 1] every [update] in which
    the distance moves takes away the share [k] of its gap to the target,
    so that after [n] updates the gap is at most [(1 - k)^n] times the
    first one, or within the hundredth of a unit at which the distance
    stops moving.  The arithmetic is exact, and the gap counts as 0 where
    the distance or its target is not a finite number. *)
Theorem distance_gap_decays (ticks : list (Z * Q)) (c : Camera.t) :
  (0 < Camera.smoothing (Camera.config c) <= 1)%Q ->
  (Qabs (distanceGap (Camera.updates ticks c))
   <= Qmax (1 # 100)
           (Qabs (distanceGap c)
            * decay (Camera.smoothing (Camera.config c)) (length ticks)))%Q.
Proof.
  intros Hk. apply Q.max_le_iff. apply distanceGap_updates, Hk.
Qed.

Lemma distance_gap_decays_witness :
  (Qabs (distanceGap
           (Camera.updates [(0%Z, 1 # 60); (16%Z, 1 # 60); (33%Z, 1 # 60)]
                           nudged))
   <= Qmax (1 # 100) (Qabs (distanceGap nudged) * decay (1 # 2) 3))%Q.
Proof.
  apply (distance_gap_decays [(0%Z, 1 # 60); (16%Z, 1 # 60); (33%Z, 1 # 60)]
           nudged).
  split; vm_compute; [reflexivity | discriminate].
Defined.

(** *** Transitions and the clock *)

(** X23.  A transition of a positive duration started at [t0] is over at
    the first [update] whose clock reading is [duration] milliseconds or
    more after [t0], and not before. *)
Theorem transition_ends_on_time (now t0 : Z) (duration dt : Q) (c : Camera.t) :
  (0 < duration)%Q ->
  Camera.isTransitioning
    (Camera.update now dt (Camera.startTransition duration t0 c)) = true
  <-> (inject_Z (now - t0) < duration)%Q.
Proof.
  intros Hd. unfold Camera.update.
  destruct (updateWith_effect JS.unrounded now dt
              (Camera.startTransition duration t0 c)) as (_ & _ & Ht & _).
  rewrite Ht. clear Ht.
  cbn [Camera.startTransition Camera.isTransitioning].
  unfold Camera.updateTransition. camera_fields. unfold JS.div.
  destruct (Qeq_bool duration 0) eqn:E0.
  { apply Qeq_bool_iff in E0. lra. }
  cbn [Camera.min1].
  set (e := inject_Z (now - t0)).
  assert (Hdiv : (1 <= e / duration <-> duration <= e)%Q).
  { split; intros H.
    - apply (Qmult_le_r _ _ (/ duration)); [apply Qinv_lt_0_compat, Hd|].
      rewrite Qmult_inv_r; [exact H | lra].
    - apply Qle_shift_div_l; [exact Hd | lra]. }
  destruct (JS.Qgeb (Qmin (e / duration) 1) 1) eqn:E;
    cbn [snd Camera.isTransitioning].
  - apply Qleb_le in E. split; [discriminate|]. intros Hlt. exfalso.
    assert (H1 : (1 <= e / duration)%Q).
    { destruct (Q.min_spec (e / duration) 1) as [[Hc Hm]|[Hc Hm]];
        rewrite Hm in E; lra. }
    apply Hdiv in H1. lra.
  - apply Qleb_gt in E. split; [intros _|reflexivity].
    apply Qnot_le_lt. intros Hle. apply Hdiv in Hle.
    rewrite Q.min_r in E by exact Hle. lra.
Qed.

Lemma transition_ends_on_time_witness :
  Camera.isTransitioning
    (Camera.update 999 (1 # 60)
       (Camera.startTransition 1000 0 restingCamera)) = true
  <-> (inject_Z (999 - 0) < 1000)%Q.
Proof.
  apply (transition_ends_on_time 999 0 1000 (1 # 60) restingCamera).
  reflexivity.
Defined.

Lemma update_state_determined (now now' : Z) (dt dt' : Q) (c c' : Camera.t) :
  Camera.state c' = Camera.state c ->
  Camera.targetState c' = Camera.targetState c ->
  Camera.smoothing (Camera.config c') = Camera.smoothing (Camera.config c) ->
  Camera.state (Camera.update now' dt' c') = Camera.state (Camera.update now dt c).
Proof.
  intros Es Et Ek. unfold Camera.update.
  destruct (updateWith_effect JS.unrounded now dt c) as (_ & _ & _ & H1).
  destruct (updateWith_effect JS.unrounded now' dt' c') as (_ & _ & _ & H2).
  cbn zeta in H1, H2. rewrite H1, H2, Es, Et, Ek. reflexivity.
Qed.

(** X24.  The movement of one [update] depends on nothing but the current
    state, the target state and the smoothing factor: the time step passed
    in, the clock and a transition under way or not (with its duration)
    make no difference to the state it leaves. *)
Theorem movement_ignores_time (now now' t0 : Z) (dt dt' duration : Q)
    (c : Camera.t) :
  Camera.state (Camera.update now' dt' c) = Camera.state (Camera.update now dt c)
  /\ Camera.state (Camera.update now' dt' (Camera.startTransition duration t0 c))
     = Camera.state (Camera.update now dt c).
Proof.
  split; apply update_state_determined; reflexivity.
Qed.

(** *** Rest *)

Lemma Qabs_self_small (x eps : Q) :
  (0 <= eps)%Q -> JS.Qgtb (Qabs (x - x)) eps = false.
Proof.
  intros H. destruct (JS.Qgtb (Qabs (x - x)) eps) eqn:E; [|reflexivity].
  apply Qltb_lt in E.
  assert (E0 : (x - x == 0)%Q) by ring. rewrite E0 in E.
  change (eps < 0)%Q in E. lra.
Qed.

Lemma wrapAngle_self (x : Q) :
  Camera.wrapAngleWith JS.unrounded (x - x) = (x - x)%Q.
Proof.
  pose proof Math_PI_bounds as [Hpi _].
  assert (E0 : (x - x == 0)%Q) by ring.
  unfold Camera.wrapAngleWith, JS.unrounded.
  destruct (JS.Qgtb (x - x) JS.Math_PI) eqn:E1.
  { apply Qltb_lt in E1. lra. }
  destruct (JS.Qltb (x - x) (- JS.Math_PI)) eqn:E2; [|reflexivity].
  apply Qltb_lt in E2. lra.
Qed.

Lemma smoothed_self (threshold x k : Q) :
  (0 <= threshold)%Q -> Camera.smoothed JS.unrounded threshold x x k = x.
Proof.
  intros H. unfold Camera.smoothed, Camera.moves, JS.unrounded.
  rewrite Qabs_self_small by exact H. reflexivity.
Qed.

Lemma smoothedNumber_self (threshold : Q) (x : JS.number) (k : Q) :
  (0 <= threshold)%Q ->
  Camera.smoothedNumber JS.unrounded threshold x x k = x.
Proof.
  intros H. unfold Camera.smoothedNumber, Camera.movesNumber.
  destruct x as [q| | |]; try reflexivity.
  fold (Camera.movesNumber JS.unrounded threshold (JS.Fin q) (JS.Fin q)).
  fold (Camera.smoothedNumber JS.unrounded threshold (JS.Fin q) (JS.Fin q) k).
  rewrite smoothedNumber_finite, smoothed_self by exact H. reflexivity.
Qed.

(** X25.  A camera that is at its target stays where it is: [update]
    leaves the state of a camera whose state equals its target state as it
    was, whatever the smoothing factor. *)
Theorem camera_at_rest_stays (now : Z) (dt : Q) (c : Camera.t) :
  Camera.state c = Camera.targetState c ->
  Camera.state (Camera.update now dt c) = Camera.state c.
Proof.
  intros Hrest. unfold Camera.update.
  destruct (updateWith_effect JS.unrounded now dt c) as (_ & _ & _ & Hs).
  cbn zeta in Hs. rewrite Hs, <- Hrest. clear Hs.
  unfold JS.unrounded at 1 2 3 4 5 6 7 8.
  rewrite smoothedNumber_self, !smoothed_self by discriminate.
  change (JS.unrounded (Camera.angle (Camera.state c)
                        - Camera.angle (Camera.state c)))
    with (Camera.angle (Camera.state c) - Camera.angle (Camera.state c))%Q.
  rewrite wrapAngle_self.
  unfold JS.unrounded.
  rewrite !Qabs_self_small by discriminate.
  destruct (Camera.state c) as [d a e t f]. reflexivity.
Qed.

Lemma camera_at_rest_stays_witness :
  Camera.state (Camera.update 16 (1 # 60) (Camera.reset false 0 approaching))
  = Camera.state (Camera.reset false 0 approaching).
Proof.
  apply (camera_at_rest_stays 16 (1 # 60) (Camera.reset false 0 approaching)).
  vm_compute; reflexivity.
Defined.

(** *** The distance *)

(** X26.  [setDistance] clamps with two names that are not defined where
    it reads them, so what it stores is [NaN], whatever distance is asked
    for, as the target distance and, when not smooth, as the distance too.
    [getCurrentViewMode] compares that distance with 150 and 100: right
    after a [setViewMode] without transition it answers 'transition',
    for every mode. *)
Theorem view_mode_read_back (mode : LODManager.ViewMode) (now : Z)
    (d : JS.number) (smooth : bool) (c : Camera.t) :
  Camera.distance (Camera.targetState (Camera.setDistance d smooth c)) = JS.NaN
  /\ Camera.distance (Camera.state (Camera.setDistance d false c)) = JS.NaN
  /\ Camera.distance (Camera.state (Camera.setViewMode mode false now c))
     = JS.NaN
  /\ Camera.getCurrentViewMode (Camera.setViewMode mode false now c)
     = LODManager.transition.
Proof.
  split; [destruct smooth; reflexivity|].
  split; [reflexivity|].
  split; [reflexivity|]. reflexivity.
Qed.
